(** * CompliantContactSubsystem: a shallow embedding and its verification

    The development follows [src/CompliantContactSubsystem.cpp]:
    the friction splines ([step5], [step5d], [stribeck]), the Hertz /
    Hunt-Crossley generator ([HertzCircular::calcContactForce]), the
    generator registry of [CompliantContactSubsystemImpl], its lazily
    evaluated force and potential-energy caches, and the public setters.

    [Real] (a C++ [double]) is modelled by the mathematical reals [R]:
    rounding, infinities and NaN are not represented, and the theorems
    below restrict divisors and [sqrt] arguments to the range where the
    two agree up to rounding. *)

From Stdlib Require Import Reals Lra Lia ZArith String List.
From stdpp Require Import base option list gmap.

Open Scope R_scope.

(** ** Numeric layer *)

(** SimTK's [Real]. *)
Abbreviation Real := R (only parsing).

(** [square(x)] of SimTKcommon. *)
Definition square (x : Real) : Real := x * x.

(** [a <= b] and [a > b] on [Real], as booleans. *)
Definition Rleb (a b : Real) : bool := if Rle_dec a b then true else false.
Definition Rgtb (a b : Real) : bool := if Rgt_dec a b then true else false.
Definition Rgeb (a b : Real) : bool := if Rge_dec a b then true else false.

(** ** Friction splines *)

(** [step5]: S-shaped quintic, 10x^3-15x^4+6x^5.  The source asserts
    [0 <= x <= 1] in debug builds. *)
Definition step5 (x : Real) : Real :=
  let x3 := x * x * x in
  x3 * (10 + x * (6 * x - 15)).

(** [step5d]: goes from 0 to [y] with end slope [yd]. *)
Definition step5d (y yd x : Real) : Real :=
  let a := 6 * y - 3 * yd in
  let b := -15 * y + 7 * yd in
  let c := 10 * y - 4 * yd in
  let x3 := x * x * x in
  x3 * (c + x * (b + x * a)).

(** The four segment formulas of [stribeck], named after the comments
    on the branches of the source. *)
Definition stiction (us v : Real) : Real := us * step5 v.
Definition stribeck_decay (us ud v : Real) : Real :=
  us - (us - ud) * step5 ((v - 1) / 2).
Definition transition (ud uv v : Real) : Real := ud + step5d uv uv (v - 3).
Definition sliding (ud uv v : Real) : Real := ud + uv * (v - 3).

Definition stribeck (us ud uv v : Real) : Real :=
  if Rleb v 1 then stiction us v
  else if Rleb v 3 then stribeck_decay us ud v
  else if Rleb v 4 then transition ud uv v
  else sliding ud uv v.

(** [hollars], the alternative curve kept in the source (unused). *)
Definition hollars (us ud uv v : Real) : Real :=
  Rmin v 1 * (ud + 2 * (us - ud) / (1 + v * v)) + uv * v.

(** ** Geometry: [Vec3], [UnitVec3], [SpatialVec], [Transform] *)

Record Vec3 := mkVec3 { vx : Real; vy : Real; vz : Real }.

(** [Vec3(s)]: every element set to [s]. *)
Definition Vec3_fill (s : Real) : Vec3 := mkVec3 s s s.

Definition vadd (a b : Vec3) : Vec3 :=
  mkVec3 (vx a + vx b) (vy a + vy b) (vz a + vz b).
Definition vsub (a b : Vec3) : Vec3 :=
  mkVec3 (vx a - vx b) (vy a - vy b) (vz a - vz b).
Definition vscale (s : Real) (a : Vec3) : Vec3 :=
  mkVec3 (s * vx a) (s * vy a) (s * vz a).
Definition dot (a b : Vec3) : Real := vx a * vx b + vy a * vy b + vz a * vz b.
Definition normSqr (a : Vec3) : Real := dot a a.

(** A [UnitVec3] is a [Vec3] of norm one; the norm is a precondition of
    the tracker, not a field. *)
Definition UnitVec3 := Vec3.

(** [SpatialVec]: element 0 is the torque, element 1 the force. *)
Record SpatialVec := mkSpatialVec { sv_torque : Vec3; sv_force : Vec3 }.

(** [SpatialVec(v)]: both elements set to [v]. *)
Definition SpatialVec_fill (v : Vec3) : SpatialVec := mkSpatialVec v v.

Record Transform := mkTransform
  { xf_x : Vec3; xf_y : Vec3; xf_z : Vec3; xf_p : Vec3 }.

(** ** Identifiers *)

(** Modelled from the spec: the index classes ([ContactId],
    [ContactTypeId], [ContactSurfaceIndex], [ZIndex]) are declared in
    SimTKcommon, outside src/.  The spec speaks of "a stable contact
    identifier" and of "an explicit invalid marker"; an index is taken to
    be an [int] that is valid when nonnegative, and [InvalidIndex] is the
    negative value an invalidated index holds. *)
Definition ContactId := Z.
Definition ContactTypeId := Z.
Definition ContactSurfaceIndex := Z.
Definition MobilizedBody := Z.
Definition ZIndex := nat.
Definition InvalidIndex : Z := (-1111111111)%Z.
Definition index_isValid (ix : Z) : bool := (0 <=? ix)%Z.

(** ** Contacts, materials and contact forces *)

(** A [Contact] as read through [CircularPointContact::getAs]: the
    common part (id, type tag, the two surfaces) and the circular-point
    data. *)
Record Contact := mkContact
  { getContactId : ContactId;
    getTypeId : ContactTypeId;
    getSurface1 : ContactSurfaceIndex;
    getSurface2 : ContactSurfaceIndex;
    getDepth : Real;
    getNormal : UnitVec3;
    getOrigin : Vec3;
    getEffectiveRadius : Real }.

Record ContactMaterial := mkContactMaterial
  { getStiffness23 : Real;
    getDissipation : Real;
    getStaticFriction : Real;
    getDynamicFriction : Real;
    getViscousFriction : Real }.

Record ContactForce := mkContactForce
  { m_contactId : ContactId;
    m_centerOfPressureInG : Vec3;
    m_forceOnSurface2InG : SpatialVec;
    m_potentialEnergy : Real;
    m_powerLoss : Real }.

(** Modelled from the spec: the declaration of [ContactForce] is not
    under src/.  The spec calls a result with no force "an explicit
    invalid marker"; the marker is the contact id, so [clear] invalidates
    the id and writes no other field, and [isValid] tests the id. *)
Definition ContactForce_clear (f : ContactForce) : ContactForce :=
  mkContactForce InvalidIndex (m_centerOfPressureInG f)
    (m_forceOnSurface2InG f) (m_potentialEnergy f) (m_powerLoss f).
Definition ContactForce_isValid (f : ContactForce) : bool :=
  index_isValid (m_contactId f).

(** ** Realization stages and the [State] *)

Inductive Stage :=
  | Stage_Empty | Stage_Topology | Stage_Model | Stage_Instance | Stage_Time
  | Stage_Position | Stage_Velocity | Stage_Dynamics | Stage_Acceleration
  | Stage_Report.

Definition stage_rank (g : Stage) : nat :=
  match g with
  | Stage_Empty => 0 | Stage_Topology => 1 | Stage_Model => 2
  | Stage_Instance => 3 | Stage_Time => 4 | Stage_Position => 5
  | Stage_Velocity => 6 | Stage_Dynamics => 7 | Stage_Acceleration => 8
  | Stage_Report => 9
  end%nat.

Definition stage_ge (a b : Stage) : bool := (stage_rank b <=? stage_rank a)%nat.

(** The part of a [State] this subsystem reads and writes: the stage it
    has been realized to, the generalized speeds [u], the subsystem's
    [z] variables and their derivatives, and the two lazy cache entries
    designated by [m_forceCacheIx] and [m_potEnergyCacheIx], each a value
    with its realized flag. *)
Record State := mkState
  { getStage : Stage;
    getU : list Real;
    getZ : list Real;
    getZDot : list Real;
    forceCacheEntry : list ContactForce;
    forceCacheRealized : bool;
    potEnergyCacheEntry : Real;
    potEnergyCacheRealized : bool }.

(** ** Errors *)

Inductive Error :=
  | ErrCheckFailed (method : string)
  | StageCheckFailed (method : string)
  | AssertionFailed (what : string).

Inductive result (A : Type) :=
  | Ok (a : A)
  | Err (e : Error).
Arguments Ok {A} a.
Arguments Err {A} e.

(** [result] is an error monad; an exception thrown by a callee
    propagates through [x ← r; k]. *)
#[global] Instance result_ret : MRet result := fun A a => Ok a.
#[global] Instance result_bind : MBind result := fun A B k r =>
  match r with Ok a => k a | Err e => Err e end.

(** ** External collaborators

    Everything the file reads from outside [src/]: two SimTKcommon
    constants, the class type ids of the contact classes, the contact
    tracker, the kinematic queries on a [MobilizedBody], and the force
    computations of the generators defined elsewhere. *)
Record Collaborators := mkCollaborators
  { SignificantReal : Real;
    NaN : Real;
    CircularPointContact_classTypeId : ContactTypeId;
    TriangleMeshContact_classTypeId : ContactTypeId;
    DoNothing_defaultTypeId : ContactTypeId;
    getActiveContacts : State -> list Contact;
    getMobilizedBody : ContactSurfaceIndex -> MobilizedBody;
    getContactSurfaceTransform : ContactSurfaceIndex -> Transform;
    getContactSurfaceMaterial : ContactSurfaceIndex -> ContactMaterial;
    findFrameVelocityInGround :
      MobilizedBody -> State -> Transform -> SpatialVec;
    findStationAtGroundPoint : MobilizedBody -> State -> Vec3 -> Vec3;
    findStationVelocityInGround : MobilizedBody -> State -> Vec3 -> Vec3;
    ElasticFoundation_calcContactForce :
      State -> Contact -> SpatialVec -> SpatialVec ->
      ContactForce -> ContactForce;
    DoNothing_calcContactForce :
      State -> Contact -> SpatialVec -> SpatialVec ->
      ContactForce -> ContactForce;
    UserGenerator_calcContactForce :
      nat -> State -> Contact -> SpatialVec -> SpatialVec ->
      ContactForce -> ContactForce }.

(** [ContactForce()]: an invalid id; the other members are not
    initialised, which [NaN] stands for. *)
Definition ContactForce_new (env : Collaborators) : ContactForce :=
  mkContactForce InvalidIndex (Vec3_fill (NaN env))
    (SpatialVec_fill (Vec3_fill (NaN env))) (NaN env) (NaN env).

(** ** Generator objects, the heap, and the subsystem implementation *)

Definition GeneratorPtr := positive.
Definition SubsystemRef := positive.

Inductive GeneratorClass :=
  | HertzCircularClass
  | ElasticFoundationClass
  | DoNothingClass
  | UserGeneratorClass (k : nat).

(** A [ContactForceGenerator] object: its dynamic class, the contact
    type id it was constructed for, and the back pointer written by
    [setCompliantContactSubsystem]. *)
Record ContactForceGenerator := mkGenerator
  { gen_class : GeneratorClass;
    getContactTypeId : ContactTypeId;
    m_compliantContactSubsystem : option SubsystemRef }.

Definition setCompliantContactSubsystem (subsys : SubsystemRef)
    (g : ContactForceGenerator) : ContactForceGenerator :=
  mkGenerator (gen_class g) (getContactTypeId g) (Some subsys).

(** [CompliantContactSubsystemImpl].  [m_generators] and
    [m_defaultGenerator] hold pointers into [heap], the live generator
    objects ([None] is the null pointer).  [m_dissipatedEnergyIx] is
    [None] until realizeTopology allocates it.  [topologyCacheValid] is
    the one member of the [ForceSubsystemRep] base class that the adopt
    methods touch. *)
Record CompliantContactSubsystemImpl := mkImpl
  { m_transitionVelocity : Real;
    m_ooTransitionVelocity : Real;
    m_generators : gmap ContactTypeId GeneratorPtr;
    m_defaultGenerator : option GeneratorPtr;
    m_dissipatedEnergyIx : option ZIndex;
    topologyCacheValid : bool;
    heap : gmap GeneratorPtr ContactForceGenerator }.

Definition CompliantContactSubsystemImpl_new : CompliantContactSubsystemImpl :=
  let vt := 0.01 in
  mkImpl vt (1 / vt) ∅ None None false ∅.

Definition getTransitionVelocity (impl : CompliantContactSubsystemImpl) : Real :=
  m_transitionVelocity impl.
Definition getOOTransitionVelocity (impl : CompliantContactSubsystemImpl) : Real :=
  m_ooTransitionVelocity impl.
Definition Impl_setTransitionVelocity (vt : Real)
    (impl : CompliantContactSubsystemImpl) : CompliantContactSubsystemImpl :=
  mkImpl vt (1 / vt) (m_generators impl) (m_defaultGenerator impl)
    (m_dissipatedEnergyIx impl) (topologyCacheValid impl) (heap impl).

(** Modelled from the spec: [invalidateSubsystemTopologyCache] belongs
    to the subsystem base class, outside src/.  The spec's contract for
    it is "invalidate() clears validity; it must be called whenever the
    registry of strategies changes (adding/replacing a generator
    invalidates everything derived from it)".  It clears the
    topology-cache flag of the subsystem.  The flag is what the stage
    gate of the base class reads ([Subsystem_getStage] and the
    definitions after it, below): while it is down the subsystem has
    reached no stage, no cache entry of any state counts as valid, and
    every realization call fails until realizeTopology has run again. *)
Definition invalidateSubsystemTopologyCache
    (impl : CompliantContactSubsystemImpl) : CompliantContactSubsystemImpl :=
  mkImpl (m_transitionVelocity impl) (m_ooTransitionVelocity impl)
    (m_generators impl) (m_defaultGenerator impl)
    (m_dissipatedEnergyIx impl) false (heap impl).

Definition set_heap (h : gmap GeneratorPtr ContactForceGenerator)
    (impl : CompliantContactSubsystemImpl) : CompliantContactSubsystemImpl :=
  mkImpl (m_transitionVelocity impl) (m_ooTransitionVelocity impl)
    (m_generators impl) (m_defaultGenerator impl)
    (m_dissipatedEnergyIx impl) (topologyCacheValid impl) h.

Definition set_generators (m : gmap ContactTypeId GeneratorPtr)
    (impl : CompliantContactSubsystemImpl) : CompliantContactSubsystemImpl :=
  mkImpl (m_transitionVelocity impl) (m_ooTransitionVelocity impl)
    m (m_defaultGenerator impl)
    (m_dissipatedEnergyIx impl) (topologyCacheValid impl) (heap impl).

Definition set_defaultGenerator (d : option GeneratorPtr)
    (impl : CompliantContactSubsystemImpl) : CompliantContactSubsystemImpl :=
  mkImpl (m_transitionVelocity impl) (m_ooTransitionVelocity impl)
    (m_generators impl) d
    (m_dissipatedEnergyIx impl) (topologyCacheValid impl) (heap impl).

(** [delete p]: the object leaves the heap.  [new]: a fresh address. *)
Definition delete_generator (p : GeneratorPtr)
    (impl : CompliantContactSubsystemImpl) : CompliantContactSubsystemImpl :=
  set_heap (delete p (heap impl)) impl.

Definition new_generator (g : ContactForceGenerator)
    (impl : CompliantContactSubsystemImpl)
    : GeneratorPtr * CompliantContactSubsystemImpl :=
  let p := fresh (dom (heap impl)) in
  (p, set_heap (<[p := g]> (heap impl)) impl).

(** [adoptForceGenerator]: [generator] is non-null by its type
    ([assert(generator)]). *)
Definition adoptForceGenerator (subsys : SubsystemRef)
    (generator : GeneratorPtr) (impl : CompliantContactSubsystemImpl)
    : CompliantContactSubsystemImpl :=
  let impl := set_heap (alter (setCompliantContactSubsystem subsys) generator
                          (heap impl)) impl in
  let impl := invalidateSubsystemTopologyCache impl in
  match heap impl !! generator with
  | None => impl (* dangling argument: no type id to file it under *)
  | Some g =>
    let type := getContactTypeId g in
    match m_generators impl !! type with
    | Some old =>
        let impl := delete_generator old impl in
        set_generators (<[type := generator]> (m_generators impl)) impl
    | None =>
        set_generators (<[type := generator]> (m_generators impl)) impl
    end
  end.

(** [adoptDefaultForceGenerator]: null is allowed. *)
Definition adoptDefaultForceGenerator (subsys : SubsystemRef)
    (generator : option GeneratorPtr) (impl : CompliantContactSubsystemImpl)
    : CompliantContactSubsystemImpl :=
  let impl := invalidateSubsystemTopologyCache impl in
  let impl := match m_defaultGenerator impl with
              | Some old => delete_generator old impl
              | None => impl
              end in
  let impl := set_defaultGenerator generator impl in
  match m_defaultGenerator impl with
  | Some p => set_heap (alter (setCompliantContactSubsystem subsys) p
                          (heap impl)) impl
  | None => impl
  end.

Definition hasForceGenerator (type : ContactTypeId)
    (impl : CompliantContactSubsystemImpl) : bool :=
  bool_decide (is_Some (m_generators impl !! type)).

Definition hasDefaultForceGenerator (impl : CompliantContactSubsystemImpl)
    : bool :=
  bool_decide (is_Some (m_defaultGenerator impl)).

(** [getDefaultForceGenerator]: [assert(m_defaultGenerator)], then the
    dereference. *)
Definition getDefaultForceGenerator (impl : CompliantContactSubsystemImpl)
    : result ContactForceGenerator :=
  match m_defaultGenerator impl with
  | None => Err (AssertionFailed "m_defaultGenerator")
  | Some p =>
    match heap impl !! p with
    | Some g => Ok g
    | None => Err (AssertionFailed "dangling generator")
    end
  end.

Definition getForceGenerator (type : ContactTypeId)
    (impl : CompliantContactSubsystemImpl) : result ContactForceGenerator :=
  match m_generators impl !! type with
  | Some p =>
    match heap impl !! p with
    | Some g => Ok g
    | None => Err (AssertionFailed "dangling generator")
    end
  | None => getDefaultForceGenerator impl
  end.

(** ** The Hertz / Hunt-Crossley / friction generator *)

(** Effective coefficient of friction:
    [u = 2*u1*u2; if (u != 0) u /= (u1+u2);]. *)
Definition combineFriction (u1 u2 : Real) : Real :=
  let u := 2 * u1 * u2 in
  if Req_dec_T u 0 then u else u / (u1 + u2).

Module HertzCircular.
Section Locals.
Variable env : Collaborators.
Variable subsys : CompliantContactSubsystemImpl.
Variable state : State.
Variable contact : Contact.

(** The locals of [HertzCircular::calcContactForce], in source order
    and under their source names. *)
Definition depth : Real := getDepth contact.
Definition mobod1 : MobilizedBody := getMobilizedBody env (getSurface1 contact).
Definition mobod2 : MobilizedBody := getMobilizedBody env (getSurface2 contact).
Definition mat1 : ContactMaterial :=
  getContactSurfaceMaterial env (getSurface1 contact).
(** As in the source, [mat2] is read from [getSurface1()] too. *)
Definition mat2 : ContactMaterial :=
  getContactSurfaceMaterial env (getSurface1 contact).

Definition k1 : Real := getStiffness23 mat1.
Definition k2 : Real := getStiffness23 mat2.
Definition c1 : Real := getDissipation mat1.
Definition c2 : Real := getDissipation mat2.

Definition s1 : Real := k2 / (k1 + k2).
Definition s2 : Real := 1 - s1.
Definition x : Real := getDepth contact.
Definition normal : UnitVec3 := getNormal contact.
Definition origin : Vec3 := getOrigin contact.
Definition contactPt : Vec3 := vadd origin (vscale (x * (0.5 - s1)) normal).

Definition k : Real := k1 * s1.
Definition c : Real := c1 * s1 + c2 * s2.
Definition R : Real := getEffectiveRadius contact.
Definition fH : Real := (4 / 3) * k * x * sqrt (R * k * x).

Definition station1 : Vec3 := findStationAtGroundPoint env mobod1 state contactPt.
Definition station2 : Vec3 := findStationAtGroundPoint env mobod2 state contactPt.
Definition vel1 : Vec3 := findStationVelocityInGround env mobod1 state station1.
Definition vel2 : Vec3 := findStationVelocityInGround env mobod2 state station2.
Definition vel : Vec3 := vsub vel1 vel2.
Definition xdot : Real := dot vel normal.
Definition velNormal : Vec3 := vscale xdot normal.
Definition velTangent : Vec3 := vsub vel velNormal.

Definition fHC : Real := fH * 1.5 * c * xdot.
Definition fNormal : Real := fH + fHC.

Definition forceH : Vec3 := vscale fH normal.
Definition potentialEnergy : Real := (2 / 5) * fH * x.
Definition forceHC : Vec3 := vscale fHC normal.
Definition powerHC : Real := fHC * xdot.

Definition vslipSq : Real := normSqr velTangent.
Definition vslip : Real := sqrt vslipSq.
Definition us1 : Real := getStaticFriction mat1.
Definition us2 : Real := getStaticFriction mat2.
Definition ud1 : Real := getDynamicFriction mat1.
Definition ud2 : Real := getDynamicFriction mat2.
Definition uv1 : Real := getViscousFriction mat1.
Definition uv2 : Real := getViscousFriction mat2.
Definition vtrans : Real := getTransitionVelocity subsys.
Definition ooVtrans : Real := getOOTransitionVelocity subsys.
Definition us : Real := combineFriction us1 us2.
Definition ud : Real := combineFriction ud1 ud2.
Definition uv : Real := combineFriction uv1 uv2.
Definition v : Real := vslip * ooVtrans.
Definition mu : Real := stribeck us ud (uv * vtrans) v.
Definition fFriction : Real := fNormal * mu.

(** The two variables the friction block assigns, after the block. *)
Definition slipping : bool := Rgtb vslipSq (square (SignificantReal env)).
Definition forceFriction : Vec3 :=
  if slipping then vscale (fFriction / vslip) velTangent else Vec3_fill 0.
Definition powerFriction : Real :=
  if slipping then fFriction * vslip else 0.

Definition forceLoss : Vec3 := vadd forceHC forceFriction.
Definition forceTotal : Vec3 := vadd forceH forceLoss.

(** [calcContactForce]: [contactForce] is the caller's record, written
    in place by the source and returned here.  [V_GS1] and [V_GS2] are
    parameters the body never reads. *)
Definition calcContactForce (V_GS1 V_GS2 : SpatialVec)
    (contactForce : ContactForce) : ContactForce :=
  if Rleb depth 0 then ContactForce_clear contactForce
  else if Rleb fNormal 0 then
    mkContactForce (getContactId contact) contactPt
      (SpatialVec_fill (Vec3_fill 0)) 0 0
  else
    mkContactForce (getContactId contact) contactPt
      (mkSpatialVec (Vec3_fill 0) forceTotal)
      potentialEnergy (powerHC + powerFriction).
End Locals.
End HertzCircular.

(** Virtual dispatch of [ContactForceGenerator::calcContactForce]. *)
Definition Generator_calcContactForce (env : Collaborators)
    (subsys : CompliantContactSubsystemImpl) (g : ContactForceGenerator)
    (state : State) (contact : Contact) (V_GS1 V_GS2 : SpatialVec)
    (contactForce : ContactForce) : ContactForce :=
  match gen_class g with
  | HertzCircularClass =>
      HertzCircular.calcContactForce env subsys state contact
        V_GS1 V_GS2 contactForce
  | ElasticFoundationClass =>
      ElasticFoundation_calcContactForce env state contact
        V_GS1 V_GS2 contactForce
  | DoNothingClass =>
      DoNothing_calcContactForce env state contact V_GS1 V_GS2 contactForce
  | UserGeneratorClass n =>
      UserGenerator_calcContactForce env n state contact
        V_GS1 V_GS2 contactForce
  end.

(** The generators the constructor creates with [new]. *)
Definition HertzCircular_new (env : Collaborators) : ContactForceGenerator :=
  mkGenerator HertzCircularClass (CircularPointContact_classTypeId env) None.
Definition ElasticFoundation_new (env : Collaborators) : ContactForceGenerator :=
  mkGenerator ElasticFoundationClass (TriangleMeshContact_classTypeId env) None.
Definition DoNothing_new (env : Collaborators) : ContactForceGenerator :=
  mkGenerator DoNothingClass (DoNothing_defaultTypeId env) None.

(** ** Cache entries of the [State] *)

Definition isPotentialEnergyCacheValid (s : State) : bool :=
  potEnergyCacheRealized s.
Definition isForceCacheValid (s : State) : bool := forceCacheRealized s.
Definition getPotentialEnergyCache (s : State) : Real := potEnergyCacheEntry s.
Definition getForceCache (s : State) : list ContactForce := forceCacheEntry s.

Definition updPotentialEnergyCache (pe : Real) (s : State) : State :=
  mkState (getStage s) (getU s) (getZ s) (getZDot s)
    (forceCacheEntry s) (forceCacheRealized s) pe (potEnergyCacheRealized s).
Definition updForceCache (forces : list ContactForce) (s : State) : State :=
  mkState (getStage s) (getU s) (getZ s) (getZDot s)
    forces (forceCacheRealized s)
    (potEnergyCacheEntry s) (potEnergyCacheRealized s).
Definition markPotentialEnergyCacheValid (s : State) : State :=
  mkState (getStage s) (getU s) (getZ s) (getZDot s)
    (forceCacheEntry s) (forceCacheRealized s) (potEnergyCacheEntry s) true.
Definition markForceCacheValid (s : State) : State :=
  mkState (getStage s) (getU s) (getZ s) (getZDot s)
    (forceCacheEntry s) true
    (potEnergyCacheEntry s) (potEnergyCacheRealized s).
Definition updZ (z : list Real) (s : State) : State :=
  mkState (getStage s) (getU s) z (getZDot s)
    (forceCacheEntry s) (forceCacheRealized s)
    (potEnergyCacheEntry s) (potEnergyCacheRealized s).
Definition updZDot (zdot : list Real) (s : State) : State :=
  mkState (getStage s) (getU s) (getZ s) zdot
    (forceCacheEntry s) (forceCacheRealized s)
    (potEnergyCacheEntry s) (potEnergyCacheRealized s).

(** ** The force cache *)

(** [forces.push_back()] on the cache entry held by the state. *)
Definition forces_push_back (env : Collaborators) (state : State) : State :=
  updForceCache (getForceCache state ++ [ContactForce_new env]) state.

(** One iteration of the loop of [ensureForceCacheValid]:
    [push_back()], the generator writing [forces.back()], and
    [pop_back()] when the record comes back invalid. *)
Definition forceCache_step (env : Collaborators)
    (impl : CompliantContactSubsystemImpl) (contact : Contact)
    (state : State) : result State :=
  let surf1 := getSurface1 contact in
  let surf2 := getSurface2 contact in
  let mobod1 := getMobilizedBody env surf1 in
  let mobod2 := getMobilizedBody env surf2 in
  let V_GS1 := findFrameVelocityInGround env mobod1 state
                 (getContactSurfaceTransform env surf1) in
  let V_GS2 := findFrameVelocityInGround env mobod2 state
                 (getContactSurfaceTransform env surf2) in
  generator ← getForceGenerator (getTypeId contact) impl;
  let forces := getForceCache state in
  let pushed := forces_push_back env state in
  let back := Generator_calcContactForce env impl generator pushed contact
                V_GS1 V_GS2 (ContactForce_new env) in
  if ContactForce_isValid back
  then Ok (updForceCache (forces ++ [back]) pushed)
  else Ok (updForceCache forces pushed).

Fixpoint forceCache_loop (env : Collaborators)
    (impl : CompliantContactSubsystemImpl) (active : list Contact)
    (state : State) : result State :=
  match active with
  | [] => Ok state
  | contact :: rest =>
      state' ← forceCache_step env impl contact state;
      forceCache_loop env impl rest state'
  end.

Definition ensureForceCacheValid (env : Collaborators)
    (impl : CompliantContactSubsystemImpl) (state : State) : result State :=
  if isForceCacheValid state then Ok state
  else if negb (stage_ge (getStage state) Stage_Velocity)
  then Err (StageCheckFailed
              "CompliantContactSubystemImpl::ensureForceCacheValid()")
  else
    let state := updForceCache [] state in
    let active := getActiveContacts env state in
    state ← forceCache_loop env impl active state;
    Ok (markForceCacheValid state).

(** ** The potential-energy cache *)

(** One iteration of the Position-stage loop:
    [ContactForce force; generator.calcContactForce(state, contact,
    SpatialVec(Vec3(0)), SpatialVec(Vec3(0)), force);
    pe += force.m_potentialEnergy]. *)
Definition potentialEnergy_step (env : Collaborators)
    (impl : CompliantContactSubsystemImpl) (contact : Contact)
    (state : State) : result State :=
  generator ← getForceGenerator (getTypeId contact) impl;
  let force := Generator_calcContactForce env impl generator state contact
                 (SpatialVec_fill (Vec3_fill 0)) (SpatialVec_fill (Vec3_fill 0))
                 (ContactForce_new env) in
  Ok (updPotentialEnergyCache
        (getPotentialEnergyCache state + m_potentialEnergy force) state).

Fixpoint potentialEnergy_loop (env : Collaborators)
    (impl : CompliantContactSubsystemImpl) (active : list Contact)
    (state : State) : result State :=
  match active with
  | [] => Ok state
  | contact :: rest =>
      state' ← potentialEnergy_step env impl contact state;
      potentialEnergy_loop env impl rest state'
  end.

Definition sum_potentialEnergy (pe : Real) (forces : list ContactForce) : Real :=
  fold_left (fun acc f => acc + m_potentialEnergy f) forces pe.

Definition ensurePotentialEnergyCacheValid (env : Collaborators)
    (impl : CompliantContactSubsystemImpl) (state : State) : result State :=
  if isPotentialEnergyCacheValid state then Ok state
  else if negb (stage_ge (getStage state) Stage_Position)
  then Err (StageCheckFailed
              "CompliantContactSubystemImpl::ensurePotentialEnergyCacheValid()")
  else
    let state := updPotentialEnergyCache 0 state in
    if stage_ge (getStage state) Stage_Velocity then
      state ← ensureForceCacheValid env impl state;
      let pe := sum_potentialEnergy (getPotentialEnergyCache state)
                  (getForceCache state) in
      Ok (markPotentialEnergyCacheValid (updPotentialEnergyCache pe state))
    else
      let active := getActiveContacts env state in
      state ← potentialEnergy_loop env impl active state;
      Ok (markPotentialEnergyCacheValid state).

Definition calcPotentialEnergy (env : Collaborators)
    (impl : CompliantContactSubsystemImpl) (state : State)
    : result (Real * State) :=
  state ← ensurePotentialEnergyCacheValid env impl state;
  Ok (getPotentialEnergyCache state, state).

(** ** Dissipated energy *)

Definition sum_powerLoss (forces : list ContactForce) : Real :=
  fold_left (fun acc f => acc + m_powerLoss f) forces 0.

(** Element access [vec[ix]] with the index [m_dissipatedEnergyIx]: an
    index that was never allocated, or that is out of range, fails the
    index check. *)
Definition vector_get (ix : option ZIndex) (vec : list Real) : result Real :=
  match ix with
  | None => Err (AssertionFailed "invalid index")
  | Some i =>
    match vec !! i with
    | Some e => Ok e
    | None => Err (AssertionFailed "index out of range")
    end
  end.

Definition vector_set (ix : option ZIndex) (e : Real) (vec : list Real)
    : result (list Real) :=
  match ix with
  | None => Err (AssertionFailed "invalid index")
  | Some i =>
    if (i <? length vec)%nat then Ok (<[i := e]> vec)
    else Err (AssertionFailed "index out of range")
  end.

Definition getDissipatedEnergyVar (impl : CompliantContactSubsystemImpl)
    (s : State) : result Real :=
  vector_get (m_dissipatedEnergyIx impl) (getZ s).

Definition updDissipatedEnergyVar (impl : CompliantContactSubsystemImpl)
    (e : Real) (s : State) : result State :=
  z ← vector_set (m_dissipatedEnergyIx impl) e (getZ s);
  Ok (updZ z s).

Definition updDissipatedEnergyDeriv (impl : CompliantContactSubsystemImpl)
    (e : Real) (s : State) : result State :=
  zdot ← vector_set (m_dissipatedEnergyIx impl) e (getZDot s);
  Ok (updZDot zdot s).

Definition getDissipatedEnergyDeriv (impl : CompliantContactSubsystemImpl)
    (s : State) : result Real :=
  vector_get (m_dissipatedEnergyIx impl) (getZDot s).

Definition realizeSubsystemAccelerationImpl (env : Collaborators)
    (impl : CompliantContactSubsystemImpl) (state : State) : result State :=
  state ← ensureForceCacheValid env impl state;
  let powerLoss := sum_powerLoss (getForceCache state) in
  updDissipatedEnergyDeriv impl powerLoss state.

(** [realizeSubsystemTopologyImpl]: two fresh lazy cache entries (an empty
    force array, a [NaN] energy), neither realized, and one new [z]
    variable initialised to zero. *)
Definition realizeSubsystemTopologyImpl (env : Collaborators)
    (impl : CompliantContactSubsystemImpl) (s : State)
    : CompliantContactSubsystemImpl * State :=
  let ix := length (getZ s) in
  (mkImpl (m_transitionVelocity impl) (m_ooTransitionVelocity impl)
     (m_generators impl) (m_defaultGenerator impl) (Some ix)
     (topologyCacheValid impl) (heap impl),
   mkState (getStage s) (getU s) (getZ s ++ [0]) (getZDot s ++ [NaN env])
     [] false (NaN env) false).

(** ** The public handle [CompliantContactSubsystem] *)

(** [adoptForceGenerator(new G())] and
    [adoptDefaultForceGenerator(new G())]: the way the constructor, and
    callers after it, hand a generator over. *)
Definition adoptNewForceGenerator (this : SubsystemRef)
    (g : ContactForceGenerator) (impl : CompliantContactSubsystemImpl)
    : CompliantContactSubsystemImpl :=
  let '(p, impl) := new_generator g impl in
  adoptForceGenerator this p impl.

Definition adoptNewDefaultForceGenerator (this : SubsystemRef)
    (g : ContactForceGenerator) (impl : CompliantContactSubsystemImpl)
    : CompliantContactSubsystemImpl :=
  let '(p, impl) := new_generator g impl in
  adoptDefaultForceGenerator this (Some p) impl.

(** The constructor: a fresh implementation object, then the three
    default registrations. *)
Definition CompliantContactSubsystem_new (env : Collaborators)
    (this : SubsystemRef) : CompliantContactSubsystemImpl :=
  let impl := CompliantContactSubsystemImpl_new in
  let impl := adoptNewForceGenerator this (HertzCircular_new env) impl in
  let impl := adoptNewForceGenerator this (ElasticFoundation_new env) impl in
  adoptNewDefaultForceGenerator this (DoNothing_new env) impl.

Definition setTransitionVelocity (vt : Real)
    (impl : CompliantContactSubsystemImpl)
    : result CompliantContactSubsystemImpl :=
  if Rgtb vt 0 then Ok (Impl_setTransitionVelocity vt impl)
  else Err (ErrCheckFailed "CompliantContactSubsystem::setTransitionVelocity()").

Definition getDissipatedEnergy (impl : CompliantContactSubsystemImpl)
    (s : State) : result Real :=
  getDissipatedEnergyVar impl s.

Definition setDissipatedEnergy (impl : CompliantContactSubsystemImpl)
    (s : State) (energy : Real) : result State :=
  if Rgeb energy 0 then updDissipatedEnergyVar impl energy s
  else Err (ErrCheckFailed "CompliantContactSubsystem::setDissipatedEnergy()").

(** ** The stage gate of the subsystem base class *)








(** ** Definitions used by the statements *)

(** A function defined by [f] up to [a] and by [g] beyond it, the shape
    of every branch of [stribeck]. *)
Definition glue (a : Real) (f g : Real -> Real) (x : Real) : Real :=
  if Rleb x a then f x else g x.

(** Calls a client can make after construction without ever passing a
    null default. *)
Inductive AdoptCall :=
  | CallAdopt (g : ContactForceGenerator)
  | CallAdoptDefault (g : ContactForceGenerator).

Definition run_call (this : SubsystemRef)
    (impl : CompliantContactSubsystemImpl) (c : AdoptCall)
    : CompliantContactSubsystemImpl :=
  match c with
  | CallAdopt g => adoptNewForceGenerator this g impl
  | CallAdoptDefault g => adoptNewDefaultForceGenerator this g impl
  end.

Definition run_calls (this : SubsystemRef) (calls : list AdoptCall)
    (impl : CompliantContactSubsystemImpl) : CompliantContactSubsystemImpl :=
  fold_left (run_call this) calls impl.

(** Ownership invariant of the registry: every registered pointer is a
    live object filed under its own type id, and the default generator is
    a live object that is not also registered. *)
Definition registry_owns (impl : CompliantContactSubsystemImpl) : Prop :=
  (forall (type : ContactTypeId) (p : GeneratorPtr),
     m_generators impl !! type = Some p ->
     exists g, heap impl !! p = Some g /\ getContactTypeId g = type) /\
  (forall p : GeneratorPtr,
     m_defaultGenerator impl = Some p ->
     is_Some (heap impl !! p) /\
     forall type : ContactTypeId, m_generators impl !! type <> Some p).

(** A generator the caller still owns: the subsystem holds no pointer
    to it. *)
Definition caller_owns (p : GeneratorPtr)
    (impl : CompliantContactSubsystemImpl) : Prop :=
  (forall type : ContactTypeId, m_generators impl !! type <> Some p) /\
  m_defaultGenerator impl <> Some p.


(** The transition velocity and its cached reciprocal agree. *)
Definition transition_consistent (impl : CompliantContactSubsystemImpl) : Prop :=
  0 < m_transitionVelocity impl /\
  m_ooTransitionVelocity impl * m_transitionVelocity impl = 1.

(** The physical model under which the force law is dissipative:
    nonnegative combined stiffness and dissipation, combined friction
    coefficients with us >= ud >= 0 and uv >= 0, and a nonnegative
    transition velocity and reciprocal. *)
Definition physical_model (env : Collaborators)
    (impl : CompliantContactSubsystemImpl) (contact : Contact) : Prop :=
  0 <= HertzCircular.k env contact /\
  0 <= HertzCircular.c env contact /\
  0 <= HertzCircular.ud env contact <= HertzCircular.us env contact /\
  0 <= HertzCircular.uv env contact /\
  0 <= HertzCircular.vtrans impl /\
  0 <= HertzCircular.ooVtrans impl.

(** A material as a [ContactMaterial] constructor accepts it. *)
Definition physical_material (m : ContactMaterial) : Prop :=
  0 < getStiffness23 m /\ 0 <= getDissipation m /\
  0 <= getDynamicFriction m <= getStaticFriction m /\
  0 <= getViscousFriction m.

(** ** A concrete scene

    Two bodies, 1 and 2, each carrying the contact surface of the same
    number and sliding along the x axis with the speed stored for it in
    [u]; one circular-point contact between the two surfaces, with its
    normal along x.  The generators defined outside this file do
    nothing. *)

Definition identity_transform : Transform :=
  mkTransform (mkVec3 1 0 0) (mkVec3 0 1 0) (mkVec3 0 0 1) (Vec3_fill 0).

Definition body_speed (s : State) (b : MobilizedBody) : Real :=
  match b, getU s with
  | 1%Z, _ :: u1 :: _ => u1
  | 2%Z, _ :: _ :: u2 :: _ => u2
  | _, _ => 0
  end.

Definition scene (mat1 mat2 : ContactMaterial) (contacts : list Contact)
    : Collaborators :=
  mkCollaborators (1 / 10000000000000) 0 1%Z 2%Z 0%Z
    (fun _ => contacts)
    (fun surf => surf)
    (fun _ => identity_transform)
    (fun surf => if (surf =? 1)%Z then mat1 else mat2)
    (fun b s _ => mkSpatialVec (Vec3_fill 0) (mkVec3 (body_speed s b) 0 0))
    (fun _ _ p => p)
    (fun b s _ => mkVec3 (body_speed s b) 0 0)
    (fun _ _ _ _ cf => ContactForce_clear cf)
    (fun _ _ _ _ cf => ContactForce_clear cf)
    (fun _ _ _ _ _ cf => ContactForce_clear cf).

(** A frictionless material of stiffness [k] and dissipation [c]. *)
Definition smooth_material (k c : Real) : ContactMaterial :=
  mkContactMaterial k c 0 0 0.

(** Contact 7 between surfaces 1 and 2, effective radius 1. *)
Definition scene_contact (depth : Real) : Contact :=
  mkContact 7%Z 1%Z 1%Z 2%Z depth (mkVec3 1 0 0) (Vec3_fill 0) 1.

(** A state at [stage] in which body 1 moves at [u1] and body 2 at [u2],
    with one [z] slot and nothing cached. *)
Definition scene_state (stage : Stage) (u1 u2 : Real) : State :=
  mkState stage [0; u1; u2] [0] [0] [] false 0 false.

(** The Hertz force law as the spec writes it:
    fH = (4/3) k x sqrt(R k x). *)
Definition spec_fH (k x R : Real) : Real := (4 / 3) * k * x * sqrt (R * k * x).

(** The end-to-end scenario of the spec: stiffness 100 on surface 1 and
    400 on surface 2, no dissipation, depth 0.01, radius 1, both bodies
    at rest. *)
Definition scenario_env : Collaborators :=
  scene (smooth_material 100 0) (smooth_material 400 0) [scene_contact 0.01].
Definition scenario_contact : Contact := scene_contact 0.01.
Definition scenario_state : State := scene_state Stage_Velocity 0 0.

(** A dissipative pair (stiffness 100, dissipation 1 on both surfaces)
    with the same contact; in [separating_state], realized to Position
    stage only, body 1 moves away from body 2 at speed 10. *)
Definition yank_env : Collaborators :=
  scene (smooth_material 100 1) (smooth_material 100 1) [scene_contact 0.01].
Definition separating_state : State := scene_state Stage_Position (-10) 0.
Definition resting_state : State := scene_state Stage_Velocity 0 0.

(** ** Definitions used by the further properties *)

(** The slopes of [step5] and [step5d], and the slope of the slope of
    [step5]. *)
Definition step5_slope (x : Real) : Real := 30 * (x * x) * ((1 - x) * (1 - x)).
Definition step5_slope2 (x : Real) : Real := 60 * x * (1 - x) * (1 - 2 * x).
Definition step5d_slope (y yd x : Real) : Real :=
  x * x * (3 * (10 * y - 4 * yd)
           + x * (4 * (-15 * y + 7 * yd) + 5 * (6 * y - 3 * yd) * x)).
Definition step5d_slope2 (y yd x : Real) : Real :=
  x * (6 * (10 * y - 4 * yd)
       + x * (12 * (-15 * y + 7 * yd) + 20 * (6 * y - 3 * yd) * x)).

(** The same contact at another penetration depth. *)
Definition contact_at_depth (contact : Contact) (x : Real) : Contact :=
  mkContact (getContactId contact) (getTypeId contact)
    (getSurface1 contact) (getSurface2 contact) x
    (getNormal contact) (getOrigin contact) (getEffectiveRadius contact).

(** ** The dynamics-stage pass *)

(** [a % b], the cross product, and negation of a [Vec3]. *)
Definition cross (a b : Vec3) : Vec3 :=
  mkVec3 (vy a * vz b - vz a * vy b)
         (vz a * vx b - vx a * vz b)
         (vx a * vy b - vy a * vx b).
Definition vneg (a : Vec3) : Vec3 := mkVec3 (- vx a) (- vy a) (- vz a).
Definition SpatialVec_add (A B : SpatialVec) : SpatialVec :=
  mkSpatialVec (vadd (sv_torque A) (sv_torque B))
               (vadd (sv_force A) (sv_force B)).

(** Modelled from the spec: [ContactSnapshot::getContactById] is
    declared outside src/.  The spec gives the snapshot as an "ordered
    sequence of Contact, stable ids"; the lookup returns the contact of
    the snapshot that carries the id, and [None] stands for the empty
    contact returned when there is none. *)
Definition getContactById (contacts : list Contact) (id : ContactId)
    : option Contact :=
  List.find (fun c => (getContactId c =? id)%Z) contacts.

(** Modelled from the spec: [MobilizedBody::applyBodyForce] is declared
    outside src/.  The spec has the forces "add into the solver's global
    per-body spatial-force array", "additive, never overwritten": the
    entry of the body is incremented, and an index outside the array
    fails the index check. *)
Definition applyBodyForce (mobod : MobilizedBody) (F : SpatialVec)
    (rigidBodyForces : list SpatialVec) : result (list SpatialVec) :=
  if (0 <=? mobod)%Z && (Z.to_nat mobod <? length rigidBodyForces)%nat
  then Ok (alter (fun old => SpatialVec_add old F) (Z.to_nat mobod)
             rigidBodyForces)
  else Err (AssertionFailed "index out of range").

(** One iteration of the loop of [realizeSubsystemDynamicsImpl];
    [getBodyOriginLocation] is the kinematic query of the body. *)
Definition dynamics_step (env : Collaborators)
    (getBodyOriginLocation : MobilizedBody -> State -> Vec3)
    (s : State) (contacts : list Contact) (force : ContactForce)
    (rigidBodyForces : list SpatialVec) : result (list SpatialVec) :=
  match getContactById contacts (m_contactId force) with
  | None => Err (AssertionFailed "empty contact")
  | Some contact =>
    let mobod1 := getMobilizedBody env (getSurface1 contact) in
    let mobod2 := getMobilizedBody env (getSurface2 contact) in
    let r1 := vsub (m_centerOfPressureInG force)
                (getBodyOriginLocation mobod1 s) in
    let r2 := vsub (m_centerOfPressureInG force)
                (getBodyOriginLocation mobod2 s) in
    let F2cop := m_forceOnSurface2InG force in
    let F2 := mkSpatialVec
                (vadd (sv_torque F2cop) (cross r2 (sv_force F2cop)))
                (sv_force F2cop) in
    let F1 := mkSpatialVec
                (vadd (vneg (sv_torque F2cop))
                   (cross r1 (vneg (sv_force F2cop))))
                (vneg (sv_force F2cop)) in
    rigidBodyForces ← applyBodyForce mobod1 F1 rigidBodyForces;
    applyBodyForce mobod2 F2 rigidBodyForces
  end.

Fixpoint dynamics_loop (env : Collaborators)
    (getBodyOriginLocation : MobilizedBody -> State -> Vec3)
    (s : State) (contacts : list Contact) (forces : list ContactForce)
    (rigidBodyForces : list SpatialVec) : result (list SpatialVec) :=
  match forces with
  | [] => Ok rigidBodyForces
  | force :: rest =>
      rigidBodyForces ← dynamics_step env getBodyOriginLocation s contacts
                          force rigidBodyForces;
      dynamics_loop env getBodyOriginLocation s contacts rest rigidBodyForces
  end.

(** [realizeSubsystemDynamicsImpl]: the system-global array of rigid
    body forces is passed in and returned. *)
Definition realizeSubsystemDynamicsImpl (env : Collaborators)
    (getBodyOriginLocation : MobilizedBody -> State -> Vec3)
    (impl : CompliantContactSubsystemImpl) (s : State)
    (rigidBodyForces : list SpatialVec) : result (State * list SpatialVec) :=
  s ← ensureForceCacheValid env impl s;
  let contacts := getActiveContacts env s in
  let forces := getForceCache s in
  rigidBodyForces ← dynamics_loop env getBodyOriginLocation s contacts forces
                      rigidBodyForces;
  Ok (s, rigidBodyForces).

(** The resultant of an array of body forces: the total force, and the
    total moment about the ground origin when the force on body [i]
    acts at [origin i]. *)
Fixpoint total_force (l : list SpatialVec) : Vec3 :=
  match l with
  | [] => Vec3_fill 0
  | F :: l => vadd (sv_force F) (total_force l)
  end.

Fixpoint total_moment (origin : nat -> Vec3) (i : nat) (l : list SpatialVec)
    : Vec3 :=
  match l with
  | [] => Vec3_fill 0
  | F :: l => vadd (vadd (sv_torque F) (cross (origin i) (sv_force F)))
                (total_moment origin (S i) l)
  end.

(** Negation of a spatial vector. *)
Definition SpatialVec_neg (A : SpatialVec) : SpatialVec :=
  mkSpatialVec (vneg (sv_torque A)) (vneg (sv_force A)).

(** The wrench [F] acting at the point [p], as the equivalent wrench at
    the ground origin: the same force, and the moment about the
    origin. *)
Definition shift_to_origin (p : Vec3) (F : SpatialVec) : SpatialVec :=
  mkSpatialVec (vadd (sv_torque F) (cross p (sv_force F))) (sv_force F).

(** The wrench of a cached contact force, acting on surface 2 at the
    center of pressure. *)
Definition contact_wrench (force : ContactForce) : SpatialVec :=
  shift_to_origin (m_centerOfPressureInG force) (m_forceOnSurface2InG force).

(** What body [b] is to receive from one cached force: the contact
    wrench when it carries surface 2 of the contact, the opposite wrench
    when it carries surface 1, and nothing otherwise. *)
Definition contact_share (env : Collaborators) (contacts : list Contact)
    (force : ContactForce) (b : nat) : SpatialVec :=
  match getContactById contacts (m_contactId force) with
  | None => SpatialVec_fill (Vec3_fill 0)
  | Some contact =>
    SpatialVec_add
      (if (Z.of_nat b =? getMobilizedBody env (getSurface2 contact))%Z
       then contact_wrench force else SpatialVec_fill (Vec3_fill 0))
      (if (Z.of_nat b =? getMobilizedBody env (getSurface1 contact))%Z
       then SpatialVec_neg (contact_wrench force)
       else SpatialVec_fill (Vec3_fill 0))
  end.

(** A cached force the pass can apply to an array of [n] bodies: its id
    names a contact of the snapshot, and both bodies of that contact
    have an entry in the array. *)
Definition force_applicable (env : Collaborators) (contacts : list Contact)
    (n : nat) (force : ContactForce) : Prop :=
  exists contact,
    getContactById contacts (m_contactId force) = Some contact /\
    (0 <= getMobilizedBody env (getSurface1 contact) < Z.of_nat n)%Z /\
    (0 <= getMobilizedBody env (getSurface2 contact) < Z.of_nat n)%Z.

(** ** Destruction and cloning *)

(** [delete p] on the memory of generator objects, with the fault made
    visible: deleting an object that is no longer live is an error. *)
Definition checked_delete (p : GeneratorPtr)
    (mem : gmap GeneratorPtr ContactForceGenerator)
    : result (gmap GeneratorPtr ContactForceGenerator) :=
  match mem !! p with
  | Some _ => Ok (delete p mem)
  | None => Err (AssertionFailed "deleted twice")
  end.

Fixpoint delete_all (ps : list GeneratorPtr)
    (mem : gmap GeneratorPtr ContactForceGenerator)
    : result (gmap GeneratorPtr ContactForceGenerator) :=
  match ps with
  | [] => Ok mem
  | p :: ps => mem ← checked_delete p mem; delete_all ps mem
  end.

(** [~CompliantContactSubsystemImpl]: [delete m_defaultGenerator]
    (nothing for the null pointer), then [delete p->second] for every
    entry of the map.  The outcome does not depend on the order in which
    the entries are visited. *)
Definition Impl_destructor (impl : CompliantContactSubsystemImpl)
    (mem : gmap GeneratorPtr ContactForceGenerator)
    : result (gmap GeneratorPtr ContactForceGenerator) :=
  mem ← match m_defaultGenerator impl with
        | Some d => checked_delete d mem
        | None => Ok mem
        end;
  delete_all (map_to_list (m_generators impl)).*2 mem.

(** [cloneImpl]: a new implementation object copy-constructed from this
    one.  The class declares no copy constructor, so every member is
    copied as it is:
    the clone holds the same generator pointers, not copies of the
    generators. *)
Definition cloneImpl (impl : CompliantContactSubsystemImpl)
    : CompliantContactSubsystemImpl :=
  mkImpl (m_transitionVelocity impl) (m_ooTransitionVelocity impl)
    (m_generators impl) (m_defaultGenerator impl)
    (m_dissipatedEnergyIx impl) (topologyCacheValid impl) (heap impl).

(** ** Sequences of configuration calls *)



(** * Properties *)

(** ** Comparisons *)

Lemma Rleb_true (a b : Real) : a <= b -> Rleb a b = true.
Proof.
  intros H. unfold Rleb. destruct (Rle_dec a b); [reflexivity | contradiction].
Qed.

Lemma Rleb_false (a b : Real) : b < a -> Rleb a b = false.
Proof. intros H. unfold Rleb. destruct (Rle_dec a b); [lra | reflexivity]. Qed.

Lemma Rgtb_true (a b : Real) : b < a -> Rgtb a b = true.
Proof. intros H. unfold Rgtb. destruct (Rgt_dec a b); [reflexivity | lra]. Qed.

Lemma Rgtb_false (a b : Real) : a <= b -> Rgtb a b = false.
Proof. intros H. unfold Rgtb. destruct (Rgt_dec a b); [lra | reflexivity]. Qed.

Lemma Rgeb_true (a b : Real) : b <= a -> Rgeb a b = true.
Proof. intros H. unfold Rgeb. destruct (Rge_dec a b); [reflexivity | lra]. Qed.

Lemma Rgeb_false (a b : Real) : a < b -> Rgeb a b = false.
Proof. intros H. unfold Rgeb. destruct (Rge_dec a b); [lra | reflexivity]. Qed.

(** ** The friction curve *)

Section Stribeck.
Variables us ud uv : Real.

Lemma step5_0 : step5 0 = 0.
Proof. unfold step5. lra. Qed.

Lemma step5_1 : step5 1 = 1.
Proof. unfold step5. lra. Qed.

Lemma step5d_0 (y yd : Real) : step5d y yd 0 = 0.
Proof. unfold step5d. lra. Qed.

Lemma step5d_1 (y yd : Real) : step5d y yd 1 = y.
Proof. unfold step5d. lra. Qed.

(** At each knot the formula of the segment that ends there and the
    formula of the segment that starts there give the same value. *)
Lemma knot_1 : stiction us 1 = stribeck_decay us ud 1.
Proof.
  unfold stiction, stribeck_decay.
  replace ((1 - 1) / 2) with 0 by lra. rewrite step5_0, step5_1. lra.
Qed.

Lemma knot_3 : stribeck_decay us ud 3 = transition ud uv 3.
Proof.
  unfold stribeck_decay, transition.
  replace ((3 - 1) / 2) with 1 by lra. replace (3 - 3) with 0 by lra.
  rewrite step5_1, step5d_0. lra.
Qed.

Lemma knot_4 : transition ud uv 4 = sliding ud uv 4.
Proof.
  unfold transition, sliding. replace (4 - 3) with 1 by lra.
  rewrite step5d_1. lra.
Qed.

Lemma stribeck_glue (v : Real) :
  stribeck us ud uv v =
  glue 1 (stiction us)
    (glue 3 (stribeck_decay us ud)
       (glue 4 (transition ud uv) (sliding ud uv))) v.
Proof. reflexivity. Qed.

Lemma stiction_continuity (v : Real) : continuity_pt (stiction us) v.
Proof. unfold stiction, step5. reg. Qed.

Lemma stribeck_decay_continuity (v : Real) :
  continuity_pt (stribeck_decay us ud) v.
Proof. unfold stribeck_decay, step5. reg. Qed.

Lemma transition_continuity (v : Real) : continuity_pt (transition ud uv) v.
Proof. unfold transition, step5d. reg. Qed.

Lemma sliding_continuity (v : Real) : continuity_pt (sliding ud uv) v.
Proof. unfold sliding. reg. Qed.
End Stribeck.

(** Two functions continuous everywhere that agree at [a] glue into a
    function continuous everywhere. *)
Lemma glue_continuity (a : Real) (f g : Real -> Real) :
  f a = g a ->
  (forall x, continuity_pt f x) -> (forall x, continuity_pt g x) ->
  forall x, continuity_pt (glue a f g) x.
Proof.
  intros Hag Hf Hg x0 eps Heps.
  destruct (Hf x0 eps Heps) as (df & Hdf & Hfx).
  destruct (Hg x0 eps Heps) as (dg & Hdg & Hgx).
  simpl in *. unfold Rdist in *.
  destruct (Rtotal_order x0 a) as [Hlt | [Heq | Hgt]].
  - exists (Rmin df (a - x0)). split; [apply Rmin_glb_lt; lra |].
    intros x [HD Hx].
    pose proof (Rmin_l df (a - x0)). pose proof (Rmin_r df (a - x0)).
    assert (Hx2 : Rabs (x - x0) < a - x0) by lra.
    apply Rabs_def2 in Hx2.
    unfold glue. rewrite !Rleb_true by lra.
    apply Hfx. split; [assumption | lra].
  - subst x0. exists (Rmin df dg). split; [apply Rmin_glb_lt; lra |].
    intros x [HD Hx].
    pose proof (Rmin_l df dg). pose proof (Rmin_r df dg).
    unfold glue. rewrite (Rleb_true a a) by lra.
    destruct (Rle_lt_dec x a) as [Hle | Hlt].
    + rewrite Rleb_true by lra. apply Hfx. split; [assumption | lra].
    + rewrite Rleb_false by lra. rewrite Hag.
      apply Hgx. split; [assumption | lra].
  - exists (Rmin dg (x0 - a)). split; [apply Rmin_glb_lt; lra |].
    intros x [HD Hx].
    pose proof (Rmin_l dg (x0 - a)). pose proof (Rmin_r dg (x0 - a)).
    assert (Hx2 : Rabs (x - x0) < x0 - a) by lra.
    apply Rabs_def2 in Hx2.
    unfold glue. rewrite !Rleb_false by lra.
    apply Hgx. split; [assumption | lra].
Qed.

Lemma stribeck_continuity (us ud uv v : Real) :
  continuity_pt (stribeck us ud uv) v.
Proof.
  revert v.
  apply (glue_continuity 1 (stiction us)
           (glue 3 (stribeck_decay us ud)
              (glue 4 (transition ud uv) (sliding ud uv)))).
  - unfold glue. rewrite (Rleb_true 1 3) by lra. apply knot_1.
  - apply stiction_continuity.
  - apply glue_continuity.
    + unfold glue. rewrite (Rleb_true 3 4) by lra. apply knot_3.
    + apply stribeck_decay_continuity.
    + apply glue_continuity.
      * apply knot_4.
      * apply transition_continuity.
      * apply sliding_continuity.
Qed.

(** C6: for all coefficients (in particular for us >= ud >= 0 and
    uv >= 0) the segment formulas of [stribeck] agree at the boundaries
    v = 1, v = 3 and v = 4, the function is continuous in v at each of
    them, and its value at v = 0 is 0. *)
Theorem stribeck_continuous_at_knots (us ud uv : Real) :
  stiction us 1 = stribeck_decay us ud 1 /\
  stribeck_decay us ud 3 = transition ud uv 3 /\
  transition ud uv 4 = sliding ud uv 4 /\
  continuity_pt (stribeck us ud uv) 1 /\
  continuity_pt (stribeck us ud uv) 3 /\
  continuity_pt (stribeck us ud uv) 4 /\
  stribeck us ud uv 0 = 0.
Proof.
  repeat split;
    try apply knot_1; try apply knot_3; try apply knot_4;
    try apply stribeck_continuity.
  unfold stribeck. rewrite Rleb_true by lra.
  unfold stiction. rewrite step5_0. lra.
Qed.

(** The curve is nonnegative on the range the generator uses it on. *)

Lemma step5_nonneg (x : Real) : 0 <= x -> 0 <= step5 x.
Proof.
  intros Hx. unfold step5.
  assert (0 < 10 + x * (6 * x - 15)).
  { pose proof (Rle_0_sqr (x - 5 / 4)) as Hsq. unfold Rsqr in Hsq. lra. }
  assert (0 <= x * x * x) by (repeat apply Rmult_le_pos; assumption).
  apply Rmult_le_pos; lra.
Qed.

Lemma step5_le_1 (x : Real) : 0 <= x <= 1 -> step5 x <= 1.
Proof.
  intros [H0 H1].
  assert (E : 1 - step5 x =
              (1 - x) * (1 - x) * (1 - x) * (6 * x * x + 3 * x + 1))
    by (unfold step5; ring).
  assert (0 <= (1 - x) * (1 - x) * (1 - x))
    by (repeat apply Rmult_le_pos; lra).
  assert (0 <= 6 * x * x + 3 * x + 1).
  { pose proof (Rle_0_sqr x) as Hsq. unfold Rsqr in Hsq. lra. }
  assert (0 <= 1 - step5 x) by (rewrite E; apply Rmult_le_pos; assumption).
  lra.
Qed.

Lemma step5d_nonneg (uv x : Real) : 0 <= uv -> 0 <= x -> 0 <= step5d uv uv x.
Proof.
  intros Hu Hx.
  assert (E : uv * (x * x * x) * (3 * x * x - 8 * x + 6) = step5d uv uv x)
    by (unfold step5d; ring).
  assert (0 <= x * x * x) by (repeat apply Rmult_le_pos; assumption).
  assert (0 < 3 * x * x - 8 * x + 6).
  { pose proof (Rle_0_sqr (x - 4 / 3)) as Hsq. unfold Rsqr in Hsq. lra. }
  rewrite <- E. repeat apply Rmult_le_pos; lra.
Qed.

Lemma stribeck_nonneg (us ud uv v : Real) :
  0 <= ud <= us -> 0 <= uv -> 0 <= v -> 0 <= stribeck us ud uv v.
Proof.
  intros [Hd Hs] Hv Hvel. unfold stribeck.
  destruct (Rle_lt_dec v 1) as [L1 | G1].
  { rewrite Rleb_true by assumption. unfold stiction.
    apply Rmult_le_pos; [lra | apply step5_nonneg; assumption]. }
  rewrite (Rleb_false v 1) by assumption.
  destruct (Rle_lt_dec v 3) as [L3 | G3].
  { rewrite Rleb_true by assumption. unfold stribeck_decay.
    assert (Ht : 0 <= (v - 1) / 2 <= 1) by lra.
    pose proof (step5_nonneg _ (proj1 Ht)).
    pose proof (step5_le_1 _ Ht).
    nra. }
  rewrite (Rleb_false v 3) by assumption.
  destruct (Rle_lt_dec v 4) as [L4 | G4].
  { rewrite Rleb_true by assumption. unfold transition.
    assert (0 <= step5d uv uv (v - 3)) by (apply step5d_nonneg; lra).
    lra. }
  rewrite (Rleb_false v 4) by assumption. unfold sliding. nra.
Qed.

(** Every call of [step5] and [step5d] that [stribeck] makes for a
    nonnegative [v] satisfies the assertion [0 <= x <= 1] of the callee. *)
Lemma stribeck_asserts (v : Real) :
  0 <= v ->
  (v <= 1 -> 0 <= v <= 1) /\
  (1 < v <= 3 -> 0 <= (v - 1) / 2 <= 1) /\
  (3 < v <= 4 -> 0 <= v - 3 <= 1).
Proof. intros Hv. repeat split; lra. Qed.

(** ** The Hertz generator, branch by branch *)

Section Hertz.
Variable env : Collaborators.
Variable subsys : CompliantContactSubsystemImpl.
Variable state : State.
Variable contact : Contact.
Variables V_GS1 V_GS2 : SpatialVec.
Variable contactForce : ContactForce.

Lemma calc_no_contact :
  getDepth contact <= 0 ->
  HertzCircular.calcContactForce env subsys state contact
    V_GS1 V_GS2 contactForce
  = ContactForce_clear contactForce.
Proof.
  intros H. unfold HertzCircular.calcContactForce, HertzCircular.depth.
  rewrite Rleb_true by assumption. reflexivity.
Qed.

Lemma calc_yanking :
  0 < getDepth contact ->
  HertzCircular.fNormal env state contact <= 0 ->
  HertzCircular.calcContactForce env subsys state contact
    V_GS1 V_GS2 contactForce
  = mkContactForce (getContactId contact)
      (HertzCircular.contactPt env contact)
      (SpatialVec_fill (Vec3_fill 0)) 0 0.
Proof.
  intros Hd Hn. unfold HertzCircular.calcContactForce, HertzCircular.depth.
  rewrite Rleb_false by assumption. rewrite Rleb_true by assumption.
  reflexivity.
Qed.

Lemma calc_pushing :
  0 < getDepth contact ->
  0 < HertzCircular.fNormal env state contact ->
  HertzCircular.calcContactForce env subsys state contact
    V_GS1 V_GS2 contactForce
  = mkContactForce (getContactId contact)
      (HertzCircular.contactPt env contact)
      (mkSpatialVec (Vec3_fill 0)
         (HertzCircular.forceTotal env subsys state contact))
      (HertzCircular.potentialEnergy env contact)
      (HertzCircular.powerHC env state contact
       + HertzCircular.powerFriction env subsys state contact).
Proof.
  intros Hd Hn. unfold HertzCircular.calcContactForce, HertzCircular.depth.
  rewrite !Rleb_false by assumption. reflexivity.
Qed.

(** A record is valid exactly when there is penetration and the contact
    carries a valid id. *)
Lemma calc_isValid :
  ContactForce_isValid
    (HertzCircular.calcContactForce env subsys state contact
       V_GS1 V_GS2 contactForce)
  = Rgtb (getDepth contact) 0 && index_isValid (getContactId contact).
Proof.
  destruct (Rle_lt_dec (getDepth contact) 0) as [Hd | Hd].
  - rewrite calc_no_contact, Rgtb_false by assumption. reflexivity.
  - rewrite Rgtb_true by assumption.
    destruct (Rle_lt_dec (HertzCircular.fNormal env state contact) 0).
    + rewrite calc_yanking by assumption. reflexivity.
    + rewrite calc_pushing by assumption. reflexivity.
Qed.

(** The velocity arguments are dead: any two choices give one result. *)
Lemma calc_ignores_surface_velocities (V1 V2 : SpatialVec) :
  HertzCircular.calcContactForce env subsys state contact
    V1 V2 contactForce
  = HertzCircular.calcContactForce env subsys state contact
      V_GS1 V_GS2 contactForce.
Proof. reflexivity. Qed.
End Hertz.

(** ** The force-cache build *)

Lemma updForceCache_same (s : State) : updForceCache (getForceCache s) s = s.
Proof. destruct s; reflexivity. Qed.

Lemma updForceCache_push_back (env : Collaborators)
    (forces : list ContactForce) (s : State) :
  updForceCache forces (forces_push_back env s) = updForceCache forces s.
Proof. reflexivity. Qed.

Lemma forceCache_loop_app (env : Collaborators)
    (impl : CompliantContactSubsystemImpl) (l1 l2 : list Contact) (s : State) :
  forceCache_loop env impl (l1 ++ l2) s =
  (s' ← forceCache_loop env impl l1 s; forceCache_loop env impl l2 s').
Proof.
  revert s. induction l1 as [| c l1 IH]; intros s; simpl; [reflexivity |].
  destruct (forceCache_step env impl c s) as [s1 | e]; simpl;
    [apply IH | reflexivity].
Qed.

(** What one iteration does when the contact's generator is the Hertz
    generator. *)
Lemma forceCache_step_Hertz (env : Collaborators)
    (impl : CompliantContactSubsystemImpl) (contact : Contact) (s : State)
    (g : ContactForceGenerator) :
  getForceGenerator (getTypeId contact) impl = Ok g ->
  gen_class g = HertzCircularClass ->
  forceCache_step env impl contact s =
  let back := HertzCircular.calcContactForce env impl
                (forces_push_back env s) contact
                (SpatialVec_fill (Vec3_fill 0)) (SpatialVec_fill (Vec3_fill 0))
                (ContactForce_new env) in
  if ContactForce_isValid back
  then Ok (updForceCache (getForceCache s ++ [back]) s)
  else Ok s.
Proof.
  intros Hg Hc. unfold forceCache_step. rewrite Hg. simpl.
  unfold Generator_calcContactForce. rewrite Hc.
  rewrite !updForceCache_push_back, updForceCache_same.
  reflexivity.
Qed.

(** C4: a contact with depth <= 0 makes the Hertz generator return an
    invalid (cleared) record, and the force-cache build leaves it out:
    its iteration returns the state as it was, so the cache built from a
    list of active contacts that contains it is the cache built from the
    list without it. *)
Theorem no_penetration_no_cache_entry (env : Collaborators)
    (impl : CompliantContactSubsystemImpl) (state : State) (contact : Contact)
    (V_GS1 V_GS2 : SpatialVec) (contactForce : ContactForce)
    (g : ContactForceGenerator) (before after : list Contact) :
  getDepth contact <= 0 ->
  getForceGenerator (getTypeId contact) impl = Ok g ->
  gen_class g = HertzCircularClass ->
  HertzCircular.calcContactForce env impl state contact
    V_GS1 V_GS2 contactForce = ContactForce_clear contactForce /\
  ContactForce_isValid
    (HertzCircular.calcContactForce env impl state contact
       V_GS1 V_GS2 contactForce) = false /\
  forceCache_step env impl contact state = Ok state /\
  forceCache_loop env impl (before ++ contact :: after) state =
  forceCache_loop env impl (before ++ after) state /\
  (isForceCacheValid state = false ->
   stage_ge (getStage state) Stage_Velocity = true ->
   getActiveContacts env (updForceCache [] state) = before ++ contact :: after ->
   ensureForceCacheValid env impl state =
   (s ← forceCache_loop env impl (before ++ after) (updForceCache [] state);
    Ok (markForceCacheValid s))).
Proof.
  intros Hd Hg Hc.
  assert (Hstep : forall s, forceCache_step env impl contact s = Ok s).
  { intros s. rewrite (forceCache_step_Hertz env impl contact s g Hg Hc).
    simpl. rewrite calc_no_contact by assumption. reflexivity. }
  assert (Hloop : forall s,
            forceCache_loop env impl (before ++ contact :: after) s =
            forceCache_loop env impl (before ++ after) s).
  { intros s. rewrite !forceCache_loop_app.
    destruct (forceCache_loop env impl before s) as [s1 | e]; simpl;
      [rewrite Hstep; reflexivity | reflexivity]. }
  split; [apply calc_no_contact; assumption |].
  split; [rewrite calc_no_contact by assumption; reflexivity |].
  split; [apply Hstep |]. split; [apply Hloop |].
  intros Hv Hs Ha. unfold ensureForceCacheValid.
  rewrite Hv, Hs. simpl. rewrite Ha, Hloop. reflexivity.
Qed.


(** ** The generator registry *)

Lemma fresh_not_live (impl : CompliantContactSubsystemImpl) :
  heap impl !! fresh (dom (heap impl)) = None.
Proof. apply not_elem_of_dom. apply is_fresh. Qed.

Lemma registry_owns_new : registry_owns CompliantContactSubsystemImpl_new.
Proof.
  split.
  - intros type p H. cbn in H. rewrite lookup_empty in H. discriminate.
  - intros p H. discriminate.
Qed.

(** What [adoptForceGenerator] does with a live generator the caller
    owns. *)
Lemma adoptForceGenerator_spec (this : SubsystemRef) (p : GeneratorPtr)
    (g : ContactForceGenerator) (impl : CompliantContactSubsystemImpl) :
  heap impl !! p = Some g ->
  m_generators impl !! getContactTypeId g <> Some p ->
  let impl' := adoptForceGenerator this p impl in
  m_generators impl' = <[getContactTypeId g := p]> (m_generators impl) /\
  m_defaultGenerator impl' = m_defaultGenerator impl /\
  topologyCacheValid impl' = false /\
  m_transitionVelocity impl' = m_transitionVelocity impl /\
  m_ooTransitionVelocity impl' = m_ooTransitionVelocity impl /\
  m_dissipatedEnergyIx impl' = m_dissipatedEnergyIx impl /\
  heap impl' =
    match m_generators impl !! getContactTypeId g with
    | Some old => delete old (<[p := setCompliantContactSubsystem this g]> (heap impl))
    | None => <[p := setCompliantContactSubsystem this g]> (heap impl)
    end.
Proof.
  intros Hp Hown impl'. subst impl'. unfold adoptForceGenerator. simpl.
  rewrite lookup_alter_eq, Hp. simpl.
  assert (Halter : alter (setCompliantContactSubsystem this) p (heap impl)
                   = <[p := setCompliantContactSubsystem this g]> (heap impl)).
  { apply map_eq. intros q. destruct (decide (p = q)) as [<- | Hne].
    - rewrite lookup_alter_eq, lookup_insert_eq, Hp. reflexivity.
    - rewrite lookup_alter_ne, lookup_insert_ne by assumption. reflexivity. }
  destruct (m_generators impl !! getContactTypeId g) as [old |] eqn:Hold;
    simpl; rewrite ?Halter; repeat split; reflexivity.
Qed.

Lemma alter_live (this : SubsystemRef) (p : GeneratorPtr)
    (g : ContactForceGenerator) (h : gmap GeneratorPtr ContactForceGenerator) :
  h !! p = Some g ->
  alter (setCompliantContactSubsystem this) p h
  = <[p := setCompliantContactSubsystem this g]> h.
Proof.
  intros Hp. apply map_eq. intros q. destruct (decide (p = q)) as [<- | Hne].
  - rewrite lookup_alter_eq, lookup_insert_eq, Hp. reflexivity.
  - rewrite lookup_alter_ne, lookup_insert_ne by assumption. reflexivity.
Qed.

(** [adoptForceGenerator(new G())] keeps the ownership invariant and
    files the new object under its type id. *)
Lemma adoptNewForceGenerator_spec (this : SubsystemRef)
    (g : ContactForceGenerator) (impl : CompliantContactSubsystemImpl) :
  registry_owns impl ->
  let impl' := adoptNewForceGenerator this g impl in
  let p := fresh (dom (heap impl)) in
  registry_owns impl' /\
  m_generators impl' = <[getContactTypeId g := p]> (m_generators impl) /\
  heap impl' !! p = Some (setCompliantContactSubsystem this g) /\
  m_defaultGenerator impl' = m_defaultGenerator impl /\
  topologyCacheValid impl' = false /\
  m_transitionVelocity impl' = m_transitionVelocity impl /\
  m_ooTransitionVelocity impl' = m_ooTransitionVelocity impl /\
  m_dissipatedEnergyIx impl' = m_dissipatedEnergyIx impl /\
  (forall q, q <> p -> m_generators impl !! getContactTypeId g <> Some q ->
     heap impl' !! q = heap impl !! q).
Proof.
  intros [Hreg Hdef] impl' p.
  pose proof (fresh_not_live impl) as Hfresh. fold p in Hfresh.
  set (impl0 := set_heap (<[p := g]> (heap impl)) impl).
  assert (Hp0 : heap impl0 !! p = Some g) by apply lookup_insert_eq.
  assert (Hnot : forall t, m_generators impl !! t <> Some p).
  { intros t Ht. destruct (Hreg t p Ht) as (g' & Hg' & _). congruence. }
  destruct (adoptForceGenerator_spec this p g impl0 Hp0 (Hnot _))
    as (Hm & Hd & Ht & Hv & Ho & Hi & Hh).
  change (adoptForceGenerator this p impl0) with impl' in *.
  change (m_generators impl0) with (m_generators impl) in *.
  change (heap impl0) with (<[p := g]> (heap impl)) in *.
  rewrite insert_insert_eq in Hh.
  assert (Hlive : heap impl' !! p = Some (setCompliantContactSubsystem this g)).
  { rewrite Hh. destruct (m_generators impl !! getContactTypeId g) as [old |] eqn:Hold.
    - rewrite lookup_delete_ne; [apply lookup_insert_eq |].
      intros ->. exact (Hnot _ Hold).
    - apply lookup_insert_eq. }
  assert (Hframe : forall q, q <> p ->
            m_generators impl !! getContactTypeId g <> Some q ->
            heap impl' !! q = heap impl !! q).
  { intros q Hq Hne. rewrite Hh.
    destruct (m_generators impl !! getContactTypeId g) as [old |] eqn:Hold.
    - rewrite lookup_delete_ne by congruence.
      rewrite lookup_insert_ne by congruence. reflexivity.
    - rewrite lookup_insert_ne by congruence. reflexivity. }
  assert (Hkeep : forall q gq, q <> p -> heap impl !! q = Some gq ->
            m_generators impl !! getContactTypeId g <> Some q ->
            heap impl' !! q = Some gq).
  { intros q gq Hq Hgq Hne. rewrite Hframe; assumption. }
  repeat split; try assumption.
  - intros t q Hq. rewrite Hm in Hq.
    destruct (decide (getContactTypeId g = t)) as [<- | Hne].
    + rewrite lookup_insert_eq in Hq. injection Hq as <-.
      exists (setCompliantContactSubsystem this g). split; [exact Hlive | reflexivity].
    + rewrite lookup_insert_ne in Hq by assumption.
      destruct (Hreg t q Hq) as (gq & Hgq & Hty).
      exists gq. split; [| exact Hty].
      apply Hkeep; [congruence | exact Hgq |].
      intros Hold. destruct (Hreg _ _ Hold) as (g2 & Hg2 & Hty2). congruence.
  - rewrite Hd in H. destruct (Hdef _ H) as [[gd Hgd] Hnr].
    exists gd. apply Hkeep; [congruence | exact Hgd | apply Hnr].
  - intros t. rewrite Hd in H. destruct (Hdef _ H) as [[gd Hgd] Hnr].
    rewrite Hm. destruct (decide (getContactTypeId g = t)) as [<- | Hne].
    + rewrite lookup_insert_eq. congruence.
    + rewrite lookup_insert_ne by assumption. apply Hnr.
Qed.

Lemma adoptDefaultForceGenerator_fields (this : SubsystemRef)
    (d : option GeneratorPtr) (impl : CompliantContactSubsystemImpl) :
  let impl' := adoptDefaultForceGenerator this d impl in
  m_generators impl' = m_generators impl /\
  m_defaultGenerator impl' = d /\
  topologyCacheValid impl' = false /\
  m_transitionVelocity impl' = m_transitionVelocity impl /\
  m_ooTransitionVelocity impl' = m_ooTransitionVelocity impl /\
  m_dissipatedEnergyIx impl' = m_dissipatedEnergyIx impl.
Proof.
  destruct impl as [vt oo m [old |] ix tv h], d as [p |]; cbn;
    repeat split; reflexivity.
Qed.

Lemma adoptDefaultForceGenerator_heap (this : SubsystemRef)
    (p : GeneratorPtr) (impl : CompliantContactSubsystemImpl) :
  heap (adoptDefaultForceGenerator this (Some p) impl) =
  alter (setCompliantContactSubsystem this) p
    (match m_defaultGenerator impl with
     | Some old => delete old (heap impl)
     | None => heap impl
     end).
Proof.
  destruct impl as [vt oo m [old |] ix tv h]; reflexivity.
Qed.

(** [adoptDefaultForceGenerator(new G())] keeps the ownership invariant
    and installs the new object as the default. *)
Lemma adoptNewDefaultForceGenerator_spec (this : SubsystemRef)
    (g : ContactForceGenerator) (impl : CompliantContactSubsystemImpl) :
  registry_owns impl ->
  let impl' := adoptNewDefaultForceGenerator this g impl in
  let p := fresh (dom (heap impl)) in
  registry_owns impl' /\
  m_generators impl' = m_generators impl /\
  m_defaultGenerator impl' = Some p /\
  heap impl' !! p = Some (setCompliantContactSubsystem this g) /\
  topologyCacheValid impl' = false /\
  m_transitionVelocity impl' = m_transitionVelocity impl /\
  m_ooTransitionVelocity impl' = m_ooTransitionVelocity impl /\
  m_dissipatedEnergyIx impl' = m_dissipatedEnergyIx impl /\
  (forall q, q <> p -> m_defaultGenerator impl <> Some q ->
     heap impl' !! q = heap impl !! q).
Proof.
  intros [Hreg Hdef] impl' p.
  pose proof (fresh_not_live impl) as Hfresh. fold p in Hfresh.
  set (impl0 := set_heap (<[p := g]> (heap impl)) impl).
  change impl' with (adoptDefaultForceGenerator this (Some p) impl0).
  destruct (adoptDefaultForceGenerator_fields this (Some p) impl0)
    as (Hm & Hd & Ht & Hv & Ho & Hi).
  pose proof (adoptDefaultForceGenerator_heap this p impl0) as Hh.
  change (m_defaultGenerator impl0) with (m_defaultGenerator impl) in Hh.
  change (heap impl0) with (<[p := g]> (heap impl)) in Hh.
  change (m_generators impl0) with (m_generators impl) in Hm.
  assert (Hlive : heap (adoptDefaultForceGenerator this (Some p) impl0) !! p
                  = Some (setCompliantContactSubsystem this g)).
  { rewrite Hh, lookup_alter_eq.
    destruct (m_defaultGenerator impl) as [old |] eqn:Hold.
    - rewrite lookup_delete_ne; [rewrite lookup_insert_eq; reflexivity |].
      intros ->. destruct (Hdef _ eq_refl) as [[gd Hgd] _]. congruence.
    - rewrite lookup_insert_eq. reflexivity. }
  assert (Hframe : forall q, q <> p -> m_defaultGenerator impl <> Some q ->
            heap (adoptDefaultForceGenerator this (Some p) impl0) !! q
            = heap impl !! q).
  { intros q Hq Hne. rewrite Hh, lookup_alter_ne by congruence.
    destruct (m_defaultGenerator impl) as [old |] eqn:Hold.
    - rewrite lookup_delete_ne by congruence.
      rewrite lookup_insert_ne by congruence. reflexivity.
    - rewrite lookup_insert_ne by congruence. reflexivity. }
  repeat split; try assumption.
  - intros t q Hq. rewrite Hm in Hq.
    destruct (Hreg t q Hq) as (gq & Hgq & Hty).
    exists gq. split; [| exact Hty].
    rewrite Hframe; [exact Hgq | congruence |].
    intros Hold. destruct (Hdef _ Hold) as [_ Hnr]. exact (Hnr _ Hq).
  - rewrite Hd in H. injection H as <-. rewrite Hlive. eexists; reflexivity.
  - intros t Hq. rewrite Hd in H. injection H as <-. rewrite Hm in Hq.
    destruct (Hreg t p Hq) as (gq & Hgq & _). congruence.
Qed.

(** With the invariant and a default generator, every lookup succeeds. *)
Lemma getForceGenerator_total (impl : CompliantContactSubsystemImpl)
    (type : ContactTypeId) :
  registry_owns impl ->
  hasDefaultForceGenerator impl = true ->
  exists g, getForceGenerator type impl = Ok g.
Proof.
  intros [Hreg Hdef] Hhas. unfold getForceGenerator.
  destruct (m_generators impl !! type) as [p |] eqn:Hp.
  - destruct (Hreg _ _ Hp) as (g & Hg & _). rewrite Hg. eauto.
  - unfold getDefaultForceGenerator, hasDefaultForceGenerator in *.
    destruct (m_defaultGenerator impl) as [d |] eqn:Hd.
    + destruct (Hdef d eq_refl) as [[g Hg] _]. rewrite Hg. eauto.
    + rewrite bool_decide_eq_true in Hhas. destruct Hhas as [? ?]. discriminate.
Qed.

Lemma run_calls_invariant (this : SubsystemRef) (calls : list AdoptCall)
    (impl : CompliantContactSubsystemImpl) :
  registry_owns impl ->
  hasDefaultForceGenerator impl = true ->
  registry_owns (run_calls this calls impl) /\
  hasDefaultForceGenerator (run_calls this calls impl) = true.
Proof.
  revert impl. induction calls as [| c calls IH]; intros impl Hown Hhas.
  - split; assumption.
  - unfold run_calls in *. simpl. destruct c as [g | g]; simpl.
    + destruct (adoptNewForceGenerator_spec this g impl Hown)
        as (Hown' & _ & _ & Hd & _).
      apply IH; [exact Hown' |].
      unfold hasDefaultForceGenerator in *. rewrite Hd. exact Hhas.
    + destruct (adoptNewDefaultForceGenerator_spec this g impl Hown)
        as (Hown' & _ & Hd & _).
      apply IH; [exact Hown' |].
      unfold hasDefaultForceGenerator. rewrite Hd.
      apply bool_decide_eq_true. eexists; reflexivity.
Qed.

Lemma Constructor_as_calls (env : Collaborators) (this : SubsystemRef) :
  CompliantContactSubsystem_new env this =
  run_calls this
    [CallAdopt (HertzCircular_new env); CallAdopt (ElasticFoundation_new env);
     CallAdoptDefault (DoNothing_new env)]
    CompliantContactSubsystemImpl_new.
Proof. unfold CompliantContactSubsystem_new, run_calls. reflexivity. Qed.

(** The three objects the constructor leaves behind, and where lookups
    find them. *)
Lemma Constructor_lookups (env : Collaborators) (this : SubsystemRef) :
  let impl := CompliantContactSubsystem_new env this in
  let circ := CircularPointContact_classTypeId env in
  let tri := TriangleMeshContact_classTypeId env in
  registry_owns impl /\
  hasDefaultForceGenerator impl = true /\
  (forall type, type <> circ -> type <> tri -> m_generators impl !! type = None) /\
  getDefaultForceGenerator impl
    = Ok (setCompliantContactSubsystem this (DoNothing_new env)) /\
  getForceGenerator tri impl
    = Ok (setCompliantContactSubsystem this (ElasticFoundation_new env)) /\
  (circ <> tri ->
   getForceGenerator circ impl
     = Ok (setCompliantContactSubsystem this (HertzCircular_new env))) /\
  transition_consistent impl /\
  topologyCacheValid impl = false.
Proof.
  intros impl circ tri. subst impl. unfold CompliantContactSubsystem_new.
  set (impl0 := CompliantContactSubsystemImpl_new).
  set (impl1 := adoptNewForceGenerator this (HertzCircular_new env) impl0).
  set (impl2 := adoptNewForceGenerator this (ElasticFoundation_new env) impl1).
  set (impl3 := adoptNewDefaultForceGenerator this (DoNothing_new env) impl2).
  cbv zeta.
  destruct (adoptNewForceGenerator_spec this (HertzCircular_new env) impl0
              registry_owns_new)
    as (Hown1 & Hm1 & Hh1 & Hd1 & _ & Hv1 & Ho1 & _ & _).
  destruct (adoptNewForceGenerator_spec this (ElasticFoundation_new env) impl1
              Hown1)
    as (Hown2 & Hm2 & Hh2 & Hd2 & _ & Hv2 & Ho2 & _ & Hf2).
  destruct (adoptNewDefaultForceGenerator_spec this (DoNothing_new env) impl2
              Hown2)
    as (Hown3 & Hm3 & Hd3 & Hh3 & Ht3 & Hv3 & Ho3 & _ & Hf3).
  fold impl1 in Hown1, Hm1, Hh1, Hd1, Hv1, Ho1.
  fold impl2 in Hown2, Hm2, Hh2, Hd2, Hv2, Ho2, Hf2.
  fold impl3 in Hown3, Hm3, Hh3, Hd3, Ht3, Hv3, Ho3, Hf3.
  set (p1 := fresh (dom (heap impl0))) in *.
  set (p2 := fresh (dom (heap impl1))) in *.
  set (p3 := fresh (dom (heap impl2))) in *.
  change (getContactTypeId (HertzCircular_new env)) with circ in *.
  change (getContactTypeId (ElasticFoundation_new env)) with tri in *.
  change (m_generators impl0) with (∅ : gmap ContactTypeId GeneratorPtr) in Hm1.
  change (m_defaultGenerator impl0) with (@None GeneratorPtr) in Hd1.
  rewrite Hd1 in Hd2.
  assert (Hp2 : heap impl3 !! p2
                = Some (setCompliantContactSubsystem this (ElasticFoundation_new env))).
  { rewrite Hf3; [exact Hh2 | | rewrite Hd2; discriminate].
    intros ->. pose proof (fresh_not_live impl2) as Hn. fold p3 in Hn. congruence. }
  split; [exact Hown3 |].
  split; [unfold hasDefaultForceGenerator; rewrite Hd3;
          apply bool_decide_eq_true; eexists; reflexivity |].
  split.
  { intros t Hc Htri. rewrite Hm3, Hm2, Hm1.
    rewrite !lookup_insert_ne by congruence. apply lookup_empty. }
  split; [unfold getDefaultForceGenerator; rewrite Hd3, Hh3; reflexivity |].
  split.
  { unfold getForceGenerator. rewrite Hm3, Hm2, lookup_insert_eq, Hp2.
    reflexivity. }
  split.
  { intros Hne. unfold getForceGenerator.
    rewrite Hm3, Hm2, Hm1, lookup_insert_ne, lookup_insert_eq by congruence.
    assert (Hp1 : heap impl2 !! p1
              = Some (setCompliantContactSubsystem this (HertzCircular_new env))).
    { rewrite Hf2; [exact Hh1 | |].
      - intros ->. pose proof (fresh_not_live impl1) as Hn. fold p2 in Hn.
        congruence.
      - rewrite Hm1, lookup_insert_ne by congruence.
        rewrite lookup_empty. discriminate. }
    rewrite Hf3; [rewrite Hp1; reflexivity | | rewrite Hd2; discriminate].
    intros ->. pose proof (fresh_not_live impl2) as Hn. fold p3 in Hn.
    congruence. }
  split; [| exact Ht3].
  unfold transition_consistent. rewrite Hv3, Hv2, Hv1, Ho3, Ho2, Ho1.
  cbn. lra.
Qed.

(** C10: right after construction the subsystem has a default
    generator and [getForceGenerator] succeeds for every contact type id
    (the Hertz generator for circular-point contacts, the elastic
    foundation generator for triangle-mesh contacts, the do-nothing
    generator for every other id); this stays so under any further
    [adoptForceGenerator] and non-null [adoptDefaultForceGenerator]
    calls, and is lost for the unregistered ids once a null default is
    adopted. *)
Theorem constructor_makes_lookup_total (env : Collaborators)
    (this : SubsystemRef) :
  let impl := CompliantContactSubsystem_new env this in
  let circ := CircularPointContact_classTypeId env in
  let tri := TriangleMeshContact_classTypeId env in
  hasDefaultForceGenerator impl = true /\
  (forall type, exists g, getForceGenerator type impl = Ok g) /\
  getForceGenerator tri impl
    = Ok (setCompliantContactSubsystem this (ElasticFoundation_new env)) /\
  (circ <> tri ->
   getForceGenerator circ impl
     = Ok (setCompliantContactSubsystem this (HertzCircular_new env))) /\
  (forall type, type <> circ -> type <> tri ->
   getForceGenerator type impl
     = Ok (setCompliantContactSubsystem this (DoNothing_new env))) /\
  (forall (calls : list AdoptCall) (type : ContactTypeId),
     hasDefaultForceGenerator (run_calls this calls impl) = true /\
     exists g, getForceGenerator type (run_calls this calls impl) = Ok g) /\
  (forall type, type <> circ -> type <> tri ->
   getForceGenerator type (adoptDefaultForceGenerator this None impl)
     = Err (AssertionFailed "m_defaultGenerator")).
Proof.
  intros impl circ tri.
  destruct (Constructor_lookups env this)
    as (Hown & Hhas & Hnone & Hdef & Htri & Hcirc & _ & _).
  fold impl circ tri in Hown, Hhas, Hnone, Hdef, Htri, Hcirc.
  split; [exact Hhas |].
  split; [intros type; apply getForceGenerator_total; assumption |].
  split; [exact Htri |]. split; [exact Hcirc |].
  split.
  { intros type H1 H2. unfold getForceGenerator.
    rewrite (Hnone type H1 H2). exact Hdef. }
  split.
  { intros calls type.
    destruct (run_calls_invariant this calls impl Hown Hhas) as [Ho Hh].
    split; [exact Hh | apply getForceGenerator_total; assumption]. }
  intros type H1 H2.
  destruct (adoptDefaultForceGenerator_fields this None impl)
    as (Hm & Hd & _).
  unfold getForceGenerator, getDefaultForceGenerator.
  rewrite Hm, Hd, (Hnone type H1 H2). reflexivity.
Qed.



(** ** The checked setters *)

(** C8: [setTransitionVelocity(vt)] fails its error check for every
    vt <= 0, so no field is written; for every vt > 0 it succeeds, after
    which [getTransitionVelocity] returns vt and the cached reciprocal
    times the stored value is 1 (exactly, over the reals), every other
    field being left as it was. *)
Theorem setTransitionVelocity_checked (vt : Real)
    (impl : CompliantContactSubsystemImpl) :
  (vt <= 0 ->
   setTransitionVelocity vt impl =
   Err (ErrCheckFailed "CompliantContactSubsystem::setTransitionVelocity()")) /\
  (0 < vt ->
   exists impl',
     setTransitionVelocity vt impl = Ok impl' /\
     getTransitionVelocity impl' = vt /\
     getOOTransitionVelocity impl' = 1 / vt /\
     getOOTransitionVelocity impl' * getTransitionVelocity impl' = 1 /\
     m_generators impl' = m_generators impl /\
     m_defaultGenerator impl' = m_defaultGenerator impl /\
     heap impl' = heap impl).
Proof.
  unfold setTransitionVelocity. split; intros Hvt.
  - rewrite Rgtb_false by assumption. reflexivity.
  - rewrite Rgtb_true by assumption.
    exists (Impl_setTransitionVelocity vt impl).
    repeat split. cbn. field. lra.
Qed.


Lemma vector_set_get (ix : ZIndex) (e : Real) (vec : list Real) :
  (ix < length vec)%nat ->
  exists vec', vector_set (Some ix) e vec = Ok vec' /\
               vector_get (Some ix) vec' = Ok e /\
               length vec' = length vec.
Proof.
  intros Hix. exists (<[ix := e]> vec). unfold vector_set, vector_get.
  rewrite (proj2 (Nat.ltb_lt _ _) Hix).
  rewrite list_lookup_insert_eq by assumption.
  rewrite length_insert. repeat split.
Qed.

(** C9: [setDissipatedEnergy(s, e)] fails its error check for every
    e < 0, so the state is not written; for every e >= 0, on a state
    whose dissipated-energy variable has been allocated (as
    realizeTopology does), it succeeds and [getDissipatedEnergy] then
    returns e.  In particular -1 is rejected and 5 is read back. *)
Theorem setDissipatedEnergy_checked (env : Collaborators)
    (impl : CompliantContactSubsystemImpl) (s : State) (e : Real) :
  (e < 0 ->
   setDissipatedEnergy impl s e =
   Err (ErrCheckFailed "CompliantContactSubsystem::setDissipatedEnergy()")) /\
  (0 <= e ->
   forall ix : ZIndex,
     m_dissipatedEnergyIx impl = Some ix -> (ix < length (getZ s))%nat ->
     exists s', setDissipatedEnergy impl s e = Ok s' /\
                getDissipatedEnergy impl s' = Ok e) /\
  (0 <= e ->
   let '(impl0, s0) := realizeSubsystemTopologyImpl env impl s in
   getDissipatedEnergy impl0 s0 = Ok 0 /\
   exists s', setDissipatedEnergy impl0 s0 e = Ok s' /\
              getDissipatedEnergy impl0 s' = Ok e) /\
  setDissipatedEnergy impl s (-1) =
   Err (ErrCheckFailed "CompliantContactSubsystem::setDissipatedEnergy()") /\
  (let '(impl0, s0) := realizeSubsystemTopologyImpl env impl s in
   exists s', setDissipatedEnergy impl0 s0 5 = Ok s' /\
              getDissipatedEnergy impl0 s' = Ok 5).
Proof.
  assert (Hset : forall (i : CompliantContactSubsystemImpl) (st : State)
                   (x : Real) (ix : ZIndex),
            0 <= x -> m_dissipatedEnergyIx i = Some ix ->
            (ix < length (getZ st))%nat ->
            exists s', setDissipatedEnergy i st x = Ok s' /\
                       getDissipatedEnergy i s' = Ok x).
  { intros i st x ix Hx Hix Hlen.
    unfold setDissipatedEnergy, getDissipatedEnergy, updDissipatedEnergyVar,
      getDissipatedEnergyVar.
    rewrite Rgeb_true by assumption. rewrite Hix.
    destruct (vector_set_get ix x (getZ st) Hlen) as (z' & Hz & Hg & _).
    rewrite Hz. cbn. exists (updZ z' st). split; [reflexivity | exact Hg]. }
  assert (Htopo : forall x, 0 <= x ->
            let '(impl0, s0) := realizeSubsystemTopologyImpl env impl s in
            exists s', setDissipatedEnergy impl0 s0 x = Ok s' /\
                       getDissipatedEnergy impl0 s' = Ok x).
  { intros x Hx. unfold realizeSubsystemTopologyImpl.
    apply (Hset _ _ x (length (getZ s)) Hx); [reflexivity |].
    cbn. rewrite length_app. cbn. lia. }
  split.
  { intros He. unfold setDissipatedEnergy. rewrite Rgeb_false by assumption.
    reflexivity. }
  split; [intros He ix; apply Hset; assumption |].
  split.
  { intros He. specialize (Htopo e He).
    unfold realizeSubsystemTopologyImpl in *. split; [| exact Htopo].
    unfold getDissipatedEnergy, getDissipatedEnergyVar, vector_get. cbn.
    rewrite lookup_app_r by lia. rewrite Nat.sub_diag. reflexivity. }
  split.
  { unfold setDissipatedEnergy. rewrite Rgeb_false by lra. reflexivity. }
  apply Htopo. lra.
Qed.

(** ** Power loss *)

Section PowerLoss.
Variable env : Collaborators.
Variable impl : CompliantContactSubsystemImpl.
Variable state : State.
Variable contact : Contact.
Hypothesis Hphys : physical_model env impl contact.
Hypothesis Hdepth : 0 < getDepth contact.

Lemma fH_nonneg : 0 <= HertzCircular.fH env contact.
Proof.
  destruct Hphys as (Hk & _). unfold HertzCircular.fH, HertzCircular.x.
  apply Rmult_le_pos; [| apply sqrt_pos].
  apply Rmult_le_pos; [| lra].
  apply Rmult_le_pos; [lra | exact Hk].
Qed.

Lemma powerHC_nonneg : 0 <= HertzCircular.powerHC env state contact.
Proof.
  destruct Hphys as (_ & Hc & _). pose proof fH_nonneg as Hf.
  unfold HertzCircular.powerHC, HertzCircular.fHC.
  set (xd := HertzCircular.xdot env state contact).
  set (f := HertzCircular.fH env contact) in *.
  set (c := HertzCircular.c env contact) in *.
  assert (0 <= xd * xd) by (pose proof (Rle_0_sqr xd) as Hs; exact Hs).
  assert (0 <= f * c) by (apply Rmult_le_pos; assumption).
  replace (f * 1.5 * c * xd * xd) with (1.5 * ((f * c) * (xd * xd))) by ring.
  apply Rmult_le_pos; [lra | apply Rmult_le_pos; assumption].
Qed.

Lemma mu_nonneg : 0 <= HertzCircular.mu env impl state contact.
Proof.
  destruct Hphys as (_ & _ & Hud & Huv & Hvt & Hoo).
  unfold HertzCircular.mu. apply stribeck_nonneg.
  - exact Hud.
  - apply Rmult_le_pos; assumption.
  - unfold HertzCircular.v, HertzCircular.vslip.
    apply Rmult_le_pos; [apply sqrt_pos | assumption].
Qed.

Lemma powerFriction_nonneg :
  0 < HertzCircular.fNormal env state contact ->
  0 <= HertzCircular.powerFriction env impl state contact.
Proof.
  intros Hn. unfold HertzCircular.powerFriction.
  destruct (HertzCircular.slipping env state contact); [| lra].
  unfold HertzCircular.fFriction, HertzCircular.vslip.
  apply Rmult_le_pos; [| apply sqrt_pos].
  apply Rmult_le_pos; [lra | apply mu_nonneg].
Qed.

(** Every valid record the generator returns has a nonnegative
    power loss. *)
Lemma calc_powerLoss_nonneg (V_GS1 V_GS2 : SpatialVec) (cf : ContactForce) :
  0 <= m_powerLoss
         (HertzCircular.calcContactForce env impl state contact
            V_GS1 V_GS2 cf).
Proof.
  destruct (Rle_lt_dec (HertzCircular.fNormal env state contact) 0) as [Hn | Hn].
  - rewrite calc_yanking by assumption. simpl. lra.
  - rewrite calc_pushing by assumption. simpl.
    pose proof powerHC_nonneg. pose proof (powerFriction_nonneg Hn). lra.
Qed.
End PowerLoss.

Lemma sum_powerLoss_acc_nonneg (forces : list ContactForce) (acc : Real) :
  0 <= acc ->
  Forall (fun f => 0 <= m_powerLoss f) forces ->
  0 <= fold_left (fun a f => a + m_powerLoss f) forces acc.
Proof.
  revert acc. induction forces as [| f forces IH]; intros acc Hacc Hall; simpl.
  - exact Hacc.
  - apply Forall_cons in Hall as [Hf Hall]. apply IH; [lra | exact Hall].
Qed.

Lemma sum_powerLoss_nonneg (forces : list ContactForce) :
  Forall (fun f => 0 <= m_powerLoss f) forces -> 0 <= sum_powerLoss forces.
Proof. apply sum_powerLoss_acc_nonneg. lra. Qed.

Lemma getForceCache_upd (forces : list ContactForce) (s : State) :
  getForceCache (updForceCache forces s) = forces.
Proof. reflexivity. Qed.

(** The loop of [ensureForceCacheValid], run over contacts that all
    dispatch to the Hertz generator, terminates normally, writes nothing
    but the force cache entry, and keeps every cached power loss
    nonnegative. *)
Lemma forceCache_loop_powerLoss (env : Collaborators)
    (impl : CompliantContactSubsystemImpl) (active : list Contact) (s : State) :
  Forall (fun c =>
            (exists g, getForceGenerator (getTypeId c) impl = Ok g /\
                       gen_class g = HertzCircularClass) /\
            physical_model env impl c) active ->
  Forall (fun f => 0 <= m_powerLoss f) (getForceCache s) ->
  exists s', forceCache_loop env impl active s = Ok s' /\
             Forall (fun f => 0 <= m_powerLoss f) (getForceCache s') /\
             s' = updForceCache (getForceCache s') s.
Proof.
  revert s. induction active as [| c active IH]; intros s Hact Hs; simpl.
  - exists s. split; [reflexivity |]. split; [exact Hs |].
    symmetry. apply updForceCache_same.
  - apply Forall_cons in Hact as [[(g & Hg & Hc) Hphys] Hact].
    rewrite (forceCache_step_Hertz env impl c s g Hg Hc). cbv zeta.
    rewrite calc_isValid.
    destruct (Rle_lt_dec (getDepth c) 0) as [Hd | Hd].
    + rewrite Rgtb_false by assumption. simpl. apply IH; assumption.
    + rewrite Rgtb_true by assumption. simpl.
      destruct (index_isValid (getContactId c)); simpl.
      * match goal with
        | |- context [forceCache_loop _ _ _ ?s1] =>
            assert (Hs1 : Forall (fun f => 0 <= m_powerLoss f) (getForceCache s1));
            [| destruct (IH s1 Hact Hs1) as (s' & Hrun & Hall & Heq)]
        end.
        { rewrite getForceCache_upd. apply Forall_app. split; [exact Hs |].
          apply Forall_cons. split; [| constructor].
          apply calc_powerLoss_nonneg; assumption. }
        exists s'. split; [exact Hrun |]. split; [exact Hall |].
        rewrite Heq at 1. reflexivity.
      * apply IH; assumption.
Qed.

(** C5 (amended): under the physical model, every valid record the
    Hertz generator returns has power loss >= 0.  With fNormal > 0 the
    power loss is fHC*xdot plus the friction term, both nonnegative; in
    the yanking case it is 0; with depth <= 0 the record is invalidated
    and its power-loss member is left as the caller passed it.  The
    acceleration-stage pass over contacts handled by the Hertz generator
    succeeds and sets the derivative of the dissipated energy to the sum
    of the cached power losses, which is nonnegative. *)
Theorem hertz_powerLoss_nonneg (env : Collaborators)
    (impl : CompliantContactSubsystemImpl) :
  (forall (state : State) (contact : Contact) (V_GS1 V_GS2 : SpatialVec)
          (contactForce : ContactForce),
     physical_model env impl contact ->
     let f := HertzCircular.calcContactForce env impl state contact
                V_GS1 V_GS2 contactForce in
     (getDepth contact <= 0 ->
      ContactForce_isValid f = false /\
      m_powerLoss f = m_powerLoss contactForce) /\
     (0 < getDepth contact ->
      HertzCircular.fNormal env state contact <= 0 -> m_powerLoss f = 0) /\
     (0 < getDepth contact ->
      0 < HertzCircular.fNormal env state contact ->
      m_powerLoss f = HertzCircular.powerHC env state contact
                      + HertzCircular.powerFriction env impl state contact /\
      0 <= HertzCircular.powerHC env state contact /\
      0 <= HertzCircular.powerFriction env impl state contact) /\
     (ContactForce_isValid f = true -> 0 <= m_powerLoss f)) /\
  (forall (state : State) (ix : ZIndex),
     isForceCacheValid state = false ->
     stage_ge (getStage state) Stage_Velocity = true ->
     Forall (fun c =>
               (exists g, getForceGenerator (getTypeId c) impl = Ok g /\
                          gen_class g = HertzCircularClass) /\
               physical_model env impl c)
       (getActiveContacts env (updForceCache [] state)) ->
     m_dissipatedEnergyIx impl = Some ix ->
     (ix < length (getZDot state))%nat ->
     exists state',
       realizeSubsystemAccelerationImpl env impl state = Ok state' /\
       getDissipatedEnergyDeriv impl state'
         = Ok (sum_powerLoss (getForceCache state')) /\
       Forall (fun f => 0 <= m_powerLoss f) (getForceCache state') /\
       0 <= sum_powerLoss (getForceCache state')).
Proof.
  split.
  - intros state contact V_GS1 V_GS2 contactForce Hphys f. subst f.
    split.
    { intros Hd. rewrite calc_no_contact by assumption. split; reflexivity. }
    split.
    { intros Hd Hn. rewrite calc_yanking by assumption. reflexivity. }
    split.
    { intros Hd Hn. rewrite calc_pushing by assumption.
      split; [reflexivity |].
      split; [apply powerHC_nonneg with (impl := impl) |
              apply powerFriction_nonneg]; assumption. }
    intros Hvalid. rewrite calc_isValid in Hvalid.
    apply andb_true_iff in Hvalid as [Hd _].
    unfold Rgtb in Hd. destruct (Rgt_dec (getDepth contact) 0); [| discriminate].
    apply calc_powerLoss_nonneg; [assumption | lra].
  - intros state ix Hinv Hstage Hact Hix Hlen.
    unfold realizeSubsystemAccelerationImpl, ensureForceCacheValid.
    rewrite Hinv, Hstage. cbn [negb].
    destruct (forceCache_loop_powerLoss env impl _ (updForceCache [] state) Hact)
      as (s1 & Hrun & Hall & Heq); [constructor |].
    rewrite Hrun. cbn [mbind result_bind].
    change (getForceCache (markForceCacheValid s1)) with (getForceCache s1).
    unfold updDissipatedEnergyDeriv. rewrite Hix.
    assert (Hlen1 : (ix < length (getZDot (markForceCacheValid s1)))%nat).
    { rewrite Heq. exact Hlen. }
    destruct (vector_set_get ix (sum_powerLoss (getForceCache s1)) _ Hlen1)
      as (zd & Hset & Hget & _).
    rewrite Hset. cbn [mbind result_bind].
    eexists. split; [reflexivity |].
    split; [unfold getDissipatedEnergyDeriv; rewrite Hix; exact Hget |].
    split; [exact Hall | apply sum_powerLoss_nonneg; exact Hall].
Qed.

(** C5, as stated, fails at depth <= 0: a record the caller reuses keeps
    the power loss it came in with (here 5), so the returned power loss
    is not 0. *)
Lemma cleared_record_keeps_powerLoss :
  let env := scene (smooth_material 100 0) (smooth_material 100 0) [] in
  let reused := mkContactForce 7%Z (Vec3_fill 0)
                  (SpatialVec_fill (Vec3_fill 0)) 0 5 in
  let f := HertzCircular.calcContactForce env CompliantContactSubsystemImpl_new
             (scene_state Stage_Velocity 0 0) (scene_contact 0)
             (SpatialVec_fill (Vec3_fill 0)) (SpatialVec_fill (Vec3_fill 0))
             reused in
  getDepth (scene_contact 0) <= 0 /\
  m_powerLoss f = 5 /\ m_powerLoss f <> 0.
Proof.
  cbv zeta. rewrite calc_no_contact by (cbn; lra).
  cbn. repeat split; lra.
Qed.

(** ** The end-to-end scenario: stiffnesses 100 and 400 *)

Lemma scenario_k1 : HertzCircular.k1 scenario_env scenario_contact = 100.
Proof. reflexivity. Qed.

(** The second stiffness is surface 1's again, not the 400 of surface 2. *)
Lemma scenario_k2 : HertzCircular.k2 scenario_env scenario_contact = 100.
Proof. reflexivity. Qed.

Lemma scenario_s1 : HertzCircular.s1 scenario_env scenario_contact = 0.5.
Proof. unfold HertzCircular.s1. rewrite scenario_k1, scenario_k2. lra. Qed.

Lemma scenario_k : HertzCircular.k scenario_env scenario_contact = 50.
Proof. unfold HertzCircular.k. rewrite scenario_s1, scenario_k1. lra. Qed.

Lemma scenario_c : HertzCircular.c scenario_env scenario_contact = 0.
Proof.
  unfold HertzCircular.c, HertzCircular.c1, HertzCircular.c2. cbn. lra.
Qed.

Lemma scenario_fH :
  HertzCircular.fH scenario_env scenario_contact = spec_fH 50 0.01 1.
Proof. unfold HertzCircular.fH. rewrite scenario_k. reflexivity. Qed.

Lemma scenario_xdot :
  HertzCircular.xdot scenario_env scenario_state scenario_contact = 0.
Proof. unfold HertzCircular.xdot, dot. cbn. lra. Qed.

Lemma scenario_velTangent :
  HertzCircular.velTangent scenario_env scenario_state scenario_contact
  = Vec3_fill 0.
Proof.
  unfold HertzCircular.velTangent, HertzCircular.velNormal.
  rewrite scenario_xdot. unfold vsub, vscale, Vec3_fill. cbn.
  f_equal; lra.
Qed.

Lemma spec_fH_pos (k x R : Real) : 0 < k -> 0 < x -> 0 < R -> 0 < spec_fH k x R.
Proof.
  intros Hk Hx HR. unfold spec_fH.
  assert (0 < sqrt (R * k * x)).
  { apply sqrt_lt_R0. repeat apply Rmult_lt_0_compat; assumption. }
  repeat apply Rmult_lt_0_compat; try assumption; lra.
Qed.

Lemma spec_fH_50_lt_80 : spec_fH 50 0.01 1 < spec_fH 80 0.01 1.
Proof.
  unfold spec_fH.
  assert (H5 : 0 < sqrt (1 * 50 * 0.01)) by (apply sqrt_lt_R0; lra).
  assert (H8 : sqrt (1 * 50 * 0.01) < sqrt (1 * 80 * 0.01))
    by (apply sqrt_lt_1; lra).
  lra.
Qed.

Lemma scenario_fNormal :
  HertzCircular.fNormal scenario_env scenario_state scenario_contact
  = spec_fH 50 0.01 1.
Proof.
  unfold HertzCircular.fNormal, HertzCircular.fHC.
  rewrite scenario_fH, scenario_xdot. lra.
Qed.

Lemma scenario_not_slipping :
  HertzCircular.slipping scenario_env scenario_state scenario_contact = false.
Proof.
  unfold HertzCircular.slipping, HertzCircular.vslipSq.
  rewrite scenario_velTangent. apply Rgtb_false.
  unfold normSqr, dot, square. cbn. lra.
Qed.

(** C1, evaluated on the code: in the scenario of the claim the
    generator combines surface 1's stiffness with itself (k2 = 100, not
    400), so s1 = 0.5 and k = 50, not 0.8 and 80.  The record is valid,
    with zero friction force and zero power loss, but its normal force is
    fH at k = 50, strictly below the claimed fH at k = 80, and its
    potential energy is (2/5) fH x for that smaller fH. *)
Theorem scenario_uses_surface1_stiffness_twice :
  let f := HertzCircular.calcContactForce scenario_env
             CompliantContactSubsystemImpl_new scenario_state scenario_contact
             (SpatialVec_fill (Vec3_fill 0)) (SpatialVec_fill (Vec3_fill 0))
             (ContactForce_new scenario_env) in
  getStiffness23
    (getContactSurfaceMaterial scenario_env (getSurface2 scenario_contact))
    = 400 /\
  HertzCircular.k2 scenario_env scenario_contact = 100 /\
  HertzCircular.s1 scenario_env scenario_contact = 0.5 /\
  HertzCircular.k scenario_env scenario_contact = 50 /\
  ContactForce_isValid f = true /\
  m_forceOnSurface2InG f
    = mkSpatialVec (mkVec3 0 0 0) (mkVec3 (spec_fH 50 0.01 1) 0 0) /\
  m_potentialEnergy f = (2 / 5) * spec_fH 50 0.01 1 * 0.01 /\
  m_powerLoss f = 0 /\
  spec_fH 50 0.01 1 < spec_fH 80 0.01 1.
Proof.
  cbv zeta.
  assert (Hd : 0 < getDepth scenario_contact) by (cbn; lra).
  assert (Hn : 0 < HertzCircular.fNormal scenario_env scenario_state
                     scenario_contact).
  { rewrite scenario_fNormal. apply spec_fH_pos; lra. }
  rewrite calc_pushing by assumption.
  cbn [m_forceOnSurface2InG m_potentialEnergy m_powerLoss].
  split; [reflexivity |]. split; [apply scenario_k2 |].
  split; [apply scenario_s1 |]. split; [apply scenario_k |].
  split; [reflexivity |].
  split.
  { unfold HertzCircular.forceTotal, HertzCircular.forceLoss,
      HertzCircular.forceH, HertzCircular.forceHC, HertzCircular.forceFriction,
      HertzCircular.fHC.
    rewrite scenario_not_slipping, scenario_fH, scenario_xdot.
    unfold vadd, vscale, Vec3_fill. cbn. f_equal. f_equal; lra. }
  split.
  { unfold HertzCircular.potentialEnergy. rewrite scenario_fH. reflexivity. }
  split.
  { unfold HertzCircular.powerHC, HertzCircular.powerFriction.
    rewrite scenario_not_slipping, scenario_xdot. lra. }
  apply spec_fH_50_lt_80.
Qed.

(** Whatever is passed for the stiffness of surface 2, the combined
    stiffness is half the stiffness of surface 1. *)
Lemma hertz_k_is_half_k1 (env : Collaborators) (contact : Contact) :
  0 < HertzCircular.k1 env contact ->
  HertzCircular.k env contact = HertzCircular.k1 env contact / 2 /\
  HertzCircular.c env contact = HertzCircular.c1 env contact.
Proof.
  intros Hk. unfold HertzCircular.k, HertzCircular.c, HertzCircular.s2,
    HertzCircular.s1.
  change (HertzCircular.k2 env contact) with (HertzCircular.k1 env contact).
  change (HertzCircular.c2 env contact) with (HertzCircular.c1 env contact).
  split; field; lra.
Qed.

(** ** The Position-stage potential energy *)

Lemma potentialEnergy_step_Hertz (env : Collaborators)
    (impl : CompliantContactSubsystemImpl) (contact : Contact) (s : State)
    (g : ContactForceGenerator) :
  getForceGenerator (getTypeId contact) impl = Ok g ->
  gen_class g = HertzCircularClass ->
  potentialEnergy_step env impl contact s =
  Ok (updPotentialEnergyCache
        (getPotentialEnergyCache s
         + m_potentialEnergy
             (HertzCircular.calcContactForce env impl s contact
                (SpatialVec_fill (Vec3_fill 0)) (SpatialVec_fill (Vec3_fill 0))
                (ContactForce_new env))) s).
Proof.
  intros Hg Hc. unfold potentialEnergy_step. rewrite Hg.
  cbn [mbind result_bind]. unfold Generator_calcContactForce. rewrite Hc.
  reflexivity.
Qed.

(** With depth > 0 and a state in which the two bodies have no relative
    normal velocity at the contact point, the potential energy the
    generator reports is (2/5) fH x, whichever surface velocities it is
    passed. *)
Lemma potentialEnergy_at_rest (env : Collaborators)
    (impl : CompliantContactSubsystemImpl) (state : State) (contact : Contact)
    (V_GS1 V_GS2 : SpatialVec) (cf : ContactForce) :
  0 < getDepth contact ->
  0 <= HertzCircular.k env contact ->
  HertzCircular.xdot env state contact = 0 ->
  m_potentialEnergy
    (HertzCircular.calcContactForce env impl state contact V_GS1 V_GS2 cf)
  = (2 / 5) * HertzCircular.fH env contact * getDepth contact.
Proof.
  intros Hd Hk Hx.
  assert (HfN : HertzCircular.fNormal env state contact
                = HertzCircular.fH env contact).
  { unfold HertzCircular.fNormal, HertzCircular.fHC. rewrite Hx. lra. }
  assert (Hf : 0 <= HertzCircular.fH env contact).
  { unfold HertzCircular.fH, HertzCircular.x.
    apply Rmult_le_pos; [| apply sqrt_pos].
    apply Rmult_le_pos; [| lra]. apply Rmult_le_pos; [lra | exact Hk]. }
  destruct (Rle_lt_dec (HertzCircular.fNormal env state contact) 0) as [Hn | Hn].
  - rewrite calc_yanking by assumption. cbn. rewrite HfN in Hn.
    replace (HertzCircular.fH env contact) with 0 by lra. lra.
  - rewrite calc_pushing by assumption. reflexivity.
Qed.

Lemma yank_fH : HertzCircular.fH yank_env scenario_contact = spec_fH 50 0.01 1.
Proof.
  unfold HertzCircular.fH.
  destruct (hertz_k_is_half_k1 yank_env scenario_contact) as [-> _];
    [cbn; lra |].
  change (HertzCircular.k1 yank_env scenario_contact) with 100.
  unfold spec_fH. replace (100 / 2) with 50 by lra. reflexivity.
Qed.

Lemma yank_c : HertzCircular.c yank_env scenario_contact = 1.
Proof.
  destruct (hertz_k_is_half_k1 yank_env scenario_contact) as [_ ->];
    [cbn; lra | reflexivity].
Qed.

(** In [separating_state], and in any state that differs from it in the
    cache entries only, the normal force comes out negative. *)
Lemma yank_fNormal (pe : Real) :
  HertzCircular.fNormal yank_env
    (updPotentialEnergyCache pe separating_state) scenario_contact <= 0.
Proof.
  unfold HertzCircular.fNormal, HertzCircular.fHC.
  rewrite yank_fH, yank_c.
  assert (Hx : HertzCircular.xdot yank_env
                 (updPotentialEnergyCache pe separating_state) scenario_contact
               = -10).
  { unfold HertzCircular.xdot, dot. cbn. lra. }
  rewrite Hx.
  assert (0 < spec_fH 50 0.01 1) by (apply spec_fH_pos; lra).
  lra.
Qed.

(** C2, evaluated on the code: the generator never reads the surface
    velocities it is passed, it recomputes the relative velocity from
    the state.  On a Position-stage state in which the bodies separate
    fast the Position-stage derivation therefore takes the yanking
    branch and yields potential energy 0, while the full computation at
    the same depth with zero relative velocity yields (2/5) fH x > 0. *)
Theorem position_stage_energy_depends_on_state_velocity :
  let impl := CompliantContactSubsystem_new yank_env 1%positive in
  let zero := SpatialVec_fill (Vec3_fill 0) in
  0 < getDepth scenario_contact /\
  getActiveContacts yank_env separating_state = [scenario_contact] /\
  getForceGenerator (getTypeId scenario_contact) impl
    = Ok (setCompliantContactSubsystem 1%positive (HertzCircular_new yank_env)) /\
  (exists s', calcPotentialEnergy yank_env impl separating_state = Ok (0, s')) /\
  m_potentialEnergy
    (HertzCircular.calcContactForce yank_env impl resting_state
       scenario_contact zero zero (ContactForce_new yank_env))
    = (2 / 5) * spec_fH 50 0.01 1 * 0.01 /\
  0 < (2 / 5) * spec_fH 50 0.01 1 * 0.01.
Proof.
  intros impl zero.
  destruct (Constructor_lookups yank_env 1%positive)
    as (_ & _ & _ & _ & _ & Hcirc & _).
  specialize (Hcirc ltac:(discriminate)). fold impl in Hcirc.
  change (CircularPointContact_classTypeId yank_env)
    with (getTypeId scenario_contact) in Hcirc.
  assert (Hpos : 0 < spec_fH 50 0.01 1) by (apply spec_fH_pos; lra).
  split; [cbn; lra |]. split; [reflexivity |]. split; [exact Hcirc |].
  split.
  { unfold calcPotentialEnergy, ensurePotentialEnergyCacheValid.
    change (isPotentialEnergyCacheValid separating_state) with false.
    change (getStage separating_state) with Stage_Position.
    change (stage_ge Stage_Position Stage_Position) with true.
    cbn [negb].
    change (getStage (updPotentialEnergyCache 0 separating_state))
      with Stage_Position.
    change (stage_ge Stage_Position Stage_Velocity) with false.
    cbv zeta.
    change (getActiveContacts yank_env
              (updPotentialEnergyCache 0 separating_state))
      with [scenario_contact].
    cbn [potentialEnergy_loop].
    rewrite (potentialEnergy_step_Hertz _ _ _ _ _ Hcirc eq_refl).
    rewrite calc_yanking; [| cbn; lra | apply yank_fNormal].
    cbn [mbind result_bind m_potentialEnergy].
    eexists. f_equal. f_equal.
    change (getPotentialEnergyCache
              (markPotentialEnergyCacheValid
                 (updPotentialEnergyCache
                    (getPotentialEnergyCache
                       (updPotentialEnergyCache 0 separating_state) + 0)
                    (updPotentialEnergyCache 0 separating_state))))
      with (0 + 0).
    lra. }
  split; [| lra].
  rewrite potentialEnergy_at_rest.
  - rewrite yank_fH. reflexivity.
  - cbn; lra.
  - destruct (hertz_k_is_half_k1 yank_env scenario_contact) as [-> _];
      cbn; lra.
  - unfold HertzCircular.xdot, dot. cbn. lra.
Qed.

(** ** The theorems at concrete inputs *)

Lemma yank_lookup :
  getForceGenerator (getTypeId scenario_contact)
    (CompliantContactSubsystem_new yank_env 1%positive)
  = Ok (setCompliantContactSubsystem 1%positive (HertzCircular_new yank_env)).
Proof.
  destruct (Constructor_lookups yank_env 1%positive)
    as (_ & _ & _ & _ & _ & Hcirc & _).
  apply Hcirc. discriminate.
Defined.



(** C4 at the same pair with the surfaces just touching (depth 0). *)
Lemma no_penetration_no_cache_entry_witness :
  let impl := CompliantContactSubsystem_new yank_env 1%positive in
  let st := scene_state Stage_Velocity 0 0 in
  let zero := SpatialVec_fill (Vec3_fill 0) in
  getDepth (scene_contact 0) <= 0 /\
  ContactForce_isValid
    (HertzCircular.calcContactForce yank_env impl st (scene_contact 0)
       zero zero (ContactForce_new yank_env)) = false /\
  forceCache_step yank_env impl (scene_contact 0) st = Ok st /\
  forceCache_loop yank_env impl ([] ++ scene_contact 0 :: []) st =
  forceCache_loop yank_env impl ([] ++ []) st.
Proof.
  intros impl st zero.
  assert (Hd : getDepth (scene_contact 0) <= 0) by (cbn; lra).
  destruct (no_penetration_no_cache_entry yank_env impl st (scene_contact 0)
              zero zero (ContactForce_new yank_env) _ [] [] Hd
              yank_lookup eq_refl)
    as (_ & Hinvalid & Hstep & Hloop & _).
  split; [exact Hd |]. split; [exact Hinvalid |]. split; [exact Hstep |].
  exact Hloop.
Defined.


(** Combining a coefficient with itself gives it back. *)
Lemma combineFriction_same (u : Real) : combineFriction u u = u.
Proof.
  unfold combineFriction. destruct (Req_dec_T (2 * u * u) 0) as [Hz | Hnz].
  - assert (u = 0) by nra. subst u. lra.
  - assert (u <> 0) by (intros ->; apply Hnz; lra). field. lra.
Defined.

(** Physical materials and a consistent transition velocity give the
    physical model of every contact. *)
Lemma physical_model_of_materials (env : Collaborators)
    (impl : CompliantContactSubsystemImpl) (contact : Contact) :
  physical_material (getContactSurfaceMaterial env (getSurface1 contact)) ->
  transition_consistent impl ->
  physical_model env impl contact.
Proof.
  intros (Hk & Hc & Hu & Hv) [Hvt Hoo].
  destruct (hertz_k_is_half_k1 env contact Hk) as [Ek Ec].
  unfold physical_model. rewrite Ek, Ec.
  unfold HertzCircular.us, HertzCircular.ud, HertzCircular.uv.
  change (HertzCircular.us2 env contact) with (HertzCircular.us1 env contact).
  change (HertzCircular.ud2 env contact) with (HertzCircular.ud1 env contact).
  change (HertzCircular.uv2 env contact) with (HertzCircular.uv1 env contact).
  rewrite !combineFriction_same.
  unfold HertzCircular.k1, HertzCircular.c1, HertzCircular.us1,
    HertzCircular.ud1, HertzCircular.uv1, HertzCircular.mat1,
    HertzCircular.vtrans, HertzCircular.ooVtrans,
    getTransitionVelocity, getOOTransitionVelocity.
  repeat split; try lra.
  destruct (Rle_lt_dec 0 (m_ooTransitionVelocity impl)); [assumption | nra].
Defined.

(** C5 at the dissipative pair: the acceleration-stage pass on a freshly
    realized topology succeeds and the derivative it stores is
    nonnegative. *)
Lemma hertz_powerLoss_nonneg_witness :
  let topo := realizeSubsystemTopologyImpl yank_env
                (CompliantContactSubsystem_new yank_env 1%positive)
                (scene_state Stage_Velocity (-10) 0) in
  exists state',
    realizeSubsystemAccelerationImpl yank_env topo.1 topo.2 = Ok state' /\
    getDissipatedEnergyDeriv topo.1 state'
      = Ok (sum_powerLoss (getForceCache state')) /\
    0 <= sum_powerLoss (getForceCache state').
Proof.
  intros topo.
  destruct (Constructor_lookups yank_env 1%positive)
    as (_ & _ & _ & _ & _ & _ & Hcons & _).
  assert (Hphys : physical_model yank_env topo.1 scenario_contact).
  { apply physical_model_of_materials.
    - unfold physical_material. cbn. lra.
    - exact Hcons. }
  destruct (proj2 (hertz_powerLoss_nonneg yank_env topo.1) topo.2 1%nat
              eq_refl eq_refl)
    as (state' & Hrun & Hderiv & _ & Hsum).
  - apply Forall_cons. split; [| constructor].
    split; [| exact Hphys].
    eexists. split; [exact yank_lookup | reflexivity].
  - reflexivity.
  - cbn. lia.
  - exists state'. split; [exact Hrun |]. split; [exact Hderiv | exact Hsum].
Defined.

(** * Further properties of the code *)

(** ** Combining friction coefficients *)

(** X1: the effective coefficient [2*u1*u2/(u1+u2)] is symmetric in the
    two materials, vanishes as soon as one material is frictionless
    (without dividing 0 by 0), returns a coefficient combined with
    itself, and for positive coefficients lies between the smaller and
    the larger of the two. *)
Theorem combineFriction_algebra (u1 u2 : Real) :
  combineFriction u1 u2 = combineFriction u2 u1 /\
  combineFriction u1 0 = 0 /\
  combineFriction 0 u2 = 0 /\
  combineFriction u1 u1 = u1 /\
  (0 < u1 -> 0 < u2 ->
   Rmin u1 u2 <= combineFriction u1 u2 <= Rmax u1 u2).
Proof.
  assert (Hzero : forall a b, a = 0 \/ b = 0 -> combineFriction a b = 0).
  { intros a b Hab. unfold combineFriction.
    destruct (Req_dec_T (2 * a * b) 0) as [Hz | Hnz]; [exact Hz |].
    exfalso. apply Hnz. destruct Hab as [-> | ->]; lra. }
  split.
  { unfold combineFriction.
    replace (2 * u2 * u1) with (2 * u1 * u2) by ring.
    replace (u2 + u1) with (u1 + u2) by ring. reflexivity. }
  split; [apply Hzero; right; reflexivity |].
  split; [apply Hzero; left; reflexivity |].
  split; [apply combineFriction_same |].
  intros H1 H2. unfold combineFriction.
  destruct (Req_dec_T (2 * u1 * u2) 0) as [Hz | Hnz]; [nra |].
  assert (Hs : 0 < u1 + u2) by lra.
  assert (Hlo : forall m, m <= u1 -> m <= u2 -> 0 < m ->
                  m <= 2 * u1 * u2 / (u1 + u2)).
  { intros m Hm1 Hm2 Hm. apply Rmult_le_reg_r with (u1 + u2); [exact Hs |].
    replace (2 * u1 * u2 / (u1 + u2) * (u1 + u2)) with (2 * u1 * u2)
      by (field; lra).
    nra. }
  assert (Hhi : forall m, u1 <= m -> u2 <= m ->
                  2 * u1 * u2 / (u1 + u2) <= m).
  { intros m Hm1 Hm2. apply Rmult_le_reg_r with (u1 + u2); [exact Hs |].
    replace (2 * u1 * u2 / (u1 + u2) * (u1 + u2)) with (2 * u1 * u2)
      by (field; lra).
    nra. }
  split.
  - apply Hlo; [apply Rmin_l | apply Rmin_r |].
    unfold Rmin. destruct (Rle_dec u1 u2); assumption.
  - apply Hhi; [apply Rmax_l | apply Rmax_r].
Qed.

(** ** Range of the friction curve *)

(** X2: for coefficients us >= ud >= 0, uv >= 0 and a slip v >= 0 the
    Stribeck coefficient is never negative, never exceeds the static
    coefficient up to v = 3, never falls below the dynamic coefficient
    from v = 1 on, equals us at v = 1, ud at v = 3 and ud + uv at v = 4,
    and beyond v = 4 is the line ud + uv*(v-3). *)
Theorem stribeck_range (us ud uv v : Real) :
  0 <= ud <= us -> 0 <= uv -> 0 <= v ->
  0 <= stribeck us ud uv v /\
  (v <= 3 -> stribeck us ud uv v <= us) /\
  (1 <= v -> ud <= stribeck us ud uv v) /\
  stribeck us ud uv 1 = us /\
  stribeck us ud uv 3 = ud /\
  stribeck us ud uv 4 = ud + uv /\
  (4 < v -> stribeck us ud uv v = ud + uv * (v - 3)).
Proof.
  intros [Hd Hs] Hv Hvel.
  split; [apply stribeck_nonneg; [split |..]; assumption |].
  split.
  { intros H3. unfold stribeck.
    destruct (Rle_lt_dec v 1) as [L1 | G1].
    - rewrite Rleb_true by assumption. unfold stiction.
      pose proof (step5_nonneg v Hvel). pose proof (step5_le_1 v (conj Hvel L1)).
      nra.
    - rewrite (Rleb_false v 1), (Rleb_true v 3) by assumption.
      unfold stribeck_decay.
      assert (Ht : 0 <= (v - 1) / 2) by lra.
      pose proof (step5_nonneg _ Ht). nra. }
  split.
  { intros H1. unfold stribeck.
    destruct (Rle_lt_dec v 1) as [L1 | G1].
    - assert (v = 1) by lra. subst v. rewrite Rleb_true by lra.
      unfold stiction. rewrite step5_1. lra.
    - rewrite (Rleb_false v 1) by assumption.
      destruct (Rle_lt_dec v 3) as [L3 | G3].
      + rewrite Rleb_true by assumption. unfold stribeck_decay.
        assert (Ht : 0 <= (v - 1) / 2 <= 1) by lra.
        pose proof (step5_le_1 _ Ht). pose proof (step5_nonneg _ (proj1 Ht)).
        nra.
      + rewrite (Rleb_false v 3) by assumption.
        destruct (Rle_lt_dec v 4) as [L4 | G4].
        * rewrite Rleb_true by assumption. unfold transition.
          assert (0 <= step5d uv uv (v - 3)) by (apply step5d_nonneg; lra).
          lra.
        * rewrite Rleb_false by assumption. unfold sliding. nra. }
  split.
  { unfold stribeck. rewrite Rleb_true by lra. unfold stiction.
    rewrite step5_1. lra. }
  split.
  { unfold stribeck. rewrite (Rleb_false 3 1), (Rleb_true 3 3) by lra.
    rewrite (knot_3 us ud uv). unfold transition. replace (3 - 3) with 0 by lra.
    rewrite step5d_0. lra. }
  split.
  { unfold stribeck.
    rewrite (Rleb_false 4 1), (Rleb_false 4 3), (Rleb_true 4 4) by lra.
    rewrite knot_4. unfold sliding. lra. }
  intros G4. unfold stribeck. rewrite !Rleb_false by lra. reflexivity.
Qed.

Lemma stribeck_range_witness :
  0 <= 0.5 <= 0.8 /\ 0 <= 0.1 /\ 0 <= 2 /\
  0 <= stribeck 0.8 0.5 0.1 2 /\ stribeck 0.8 0.5 0.1 2 <= 0.8.
Proof.
  assert (H1 : 0 <= 0.5 <= 0.8) by lra.
  assert (H2 : 0 <= 0.1) by lra.
  assert (H3 : 0 <= 2) by lra.
  destruct (stribeck_range 0.8 0.5 0.1 2 H1 H2 H3) as (Hn & Hle & _).
  split; [exact H1 |]. split; [exact H2 |]. split; [exact H3 |].
  split; [exact Hn | apply Hle; lra].
Defined.

(** ** Slopes of the splines *)

(** Derivative of the quintic shape shared by [step5] and [step5d]. *)
Lemma quintic_derivable_pt_lim (a b c x : R) :
  derivable_pt_lim (fun t => t * t * t * (c + t * (b + t * a))) x
    (x * x * (3 * c + x * (4 * b + 5 * a * x))).
Proof.
  evar (l : R).
  assert (H : derivable_pt_lim
                ((id * id * id) *
                 (fct_cte c + id * (fct_cte b + id * fct_cte a)))%F x l).
  { subst l.
    repeat first [ apply derivable_pt_lim_mult
                 | apply derivable_pt_lim_plus
                 | apply derivable_pt_lim_id
                 | apply derivable_pt_lim_const ]. }
  replace (x * x * (3 * c + x * (4 * b + 5 * a * x))) with l;
    [exact H |].
  subst l. unfold mult_fct, plus_fct, fct_cte, id. ring.
Qed.

Lemma step5_derivable_pt_lim (x : R) :
  derivable_pt_lim step5 x (30 * (x * x) * ((1 - x) * (1 - x))).
Proof.
  pose proof (quintic_derivable_pt_lim 6 (-15) 10 x) as H.
  replace (30 * (x * x) * ((1 - x) * (1 - x)))
    with (x * x * (3 * 10 + x * (4 * -15 + 5 * 6 * x))) by ring.
  intros eps Heps. destruct (H eps Heps) as [d Hd]. exists d.
  intros h Hh Hlt. specialize (Hd h Hh Hlt).
  unfold step5.
  replace (10 + (x + h) * (6 * (x + h) - 15))
    with (10 + (x + h) * (-15 + (x + h) * 6)) by ring.
  replace (10 + x * (6 * x - 15)) with (10 + x * (-15 + x * 6)) by ring.
  exact Hd.
Qed.

Lemma step5d_derivable_pt_lim (y yd x : R) :
  derivable_pt_lim (step5d y yd) x
    (x * x * (3 * (10 * y - 4 * yd)
              + x * (4 * (-15 * y + 7 * yd) + 5 * (6 * y - 3 * yd) * x))).
Proof. apply quintic_derivable_pt_lim. Qed.

Ltac derive_poly :=
  repeat first [ apply derivable_pt_lim_id
               | apply derivable_pt_lim_const
               | apply derivable_pt_lim_minus
               | apply derivable_pt_lim_opp
               | apply derivable_pt_lim_mult
               | apply derivable_pt_lim_plus ].

Lemma step5_has_slope (x : R) : derivable_pt_lim step5 x (step5_slope x).
Proof. apply step5_derivable_pt_lim. Qed.

Lemma step5d_has_slope (y yd x : R) :
  derivable_pt_lim (step5d y yd) x (step5d_slope y yd x).
Proof. apply step5d_derivable_pt_lim. Qed.

Lemma step5_slope_has_slope (x : R) :
  derivable_pt_lim step5_slope x (step5_slope2 x).
Proof.
  evar (l : R).
  assert (H : derivable_pt_lim
                (fct_cte 30 * (id * id) *
                 ((fct_cte 1 - id) * (fct_cte 1 - id)))%F x l)
    by (subst l; derive_poly).
  replace (step5_slope2 x) with l; [exact H |].
  subst l. unfold step5_slope2, mult_fct, minus_fct, fct_cte, id. ring.
Qed.

Lemma step5d_slope_has_slope (y yd x : R) :
  derivable_pt_lim (step5d_slope y yd) x (step5d_slope2 y yd x).
Proof.
  evar (l : R).
  assert (H : derivable_pt_lim
                (id * id *
                 (fct_cte (3 * (10 * y - 4 * yd))
                  + id * (fct_cte (4 * (-15 * y + 7 * yd))
                          + fct_cte (5 * (6 * y - 3 * yd)) * id)))%F x l)
    by (subst l; derive_poly).
  replace (step5d_slope2 y yd x) with l; [exact H |].
  subst l. unfold step5d_slope2, mult_fct, plus_fct, fct_cte, id. ring.
Qed.

(** X3: [step5] rises from 0 at x = 0 to 1 at x = 1, is nondecreasing
    (its slope 30 x^2 (1-x)^2 is never negative), stays within [0,1] on
    [0,1], and has zero first and second derivative at both ends. *)
Theorem step5_shape :
  step5 0 = 0 /\ step5 1 = 1 /\
  (forall x y : R, x <= y -> step5 x <= step5 y) /\
  (forall x : R, 0 <= x <= 1 -> 0 <= step5 x <= 1) /\
  (forall x : R, derivable_pt_lim step5 x (step5_slope x)) /\
  (forall x : R, derivable_pt_lim step5_slope x (step5_slope2 x)) /\
  step5_slope 0 = 0 /\ step5_slope 1 = 0 /\
  step5_slope2 0 = 0 /\ step5_slope2 1 = 0.
Proof.
  split; [apply step5_0 |]. split; [apply step5_1 |].
  split.
  { pose (pr := fun x : R =>
                  exist (fun l => derivable_pt_lim step5 x l)
                    (step5_slope x) (step5_has_slope x)).
    apply (nonneg_derivative_1 step5 pr).
    intros x. simpl. unfold step5_slope.
    apply Rmult_le_pos; [apply Rmult_le_pos; [lra |] |];
      apply Rle_0_sqr. }
  split.
  { intros x Hx. split; [apply step5_nonneg; lra | apply step5_le_1; exact Hx]. }
  split; [apply step5_has_slope |].
  split; [apply step5_slope_has_slope |].
  unfold step5_slope, step5_slope2. repeat split; lra.
Qed.

(** X4: [step5d y yd] goes from 0 at x = 0 to y at x = 1; its first
    derivative is 0 at the beginning and yd at the end, and its second
    derivative is 0 at both ends. *)
Theorem step5d_shape (y yd : Real) :
  step5d y yd 0 = 0 /\ step5d y yd 1 = y /\
  (forall x : R, derivable_pt_lim (step5d y yd) x (step5d_slope y yd x)) /\
  (forall x : R,
     derivable_pt_lim (step5d_slope y yd) x (step5d_slope2 y yd x)) /\
  step5d_slope y yd 0 = 0 /\ step5d_slope y yd 1 = yd /\
  step5d_slope2 y yd 0 = 0 /\ step5d_slope2 y yd 1 = 0.
Proof.
  split; [apply step5d_0 |]. split; [apply step5d_1 |].
  split; [apply step5d_has_slope |].
  split; [apply step5d_slope_has_slope |].
  unfold step5d_slope, step5d_slope2. repeat split; lra.
Qed.

(** A derivative only depends on the function near the point. *)
Lemma derivable_pt_lim_local (f g : R -> R) (x l d : R) :
  0 < d ->
  (forall t, Rabs (t - x) < d -> f t = g t) ->
  derivable_pt_lim f x l -> derivable_pt_lim g x l.
Proof.
  intros Hd Heq Hf eps Heps.
  destruct (Hf eps Heps) as [[df Hdf] Hlim].
  assert (Hm : 0 < Rmin df d) by (apply Rmin_glb_lt; assumption).
  exists (mkposreal (Rmin df d) Hm). intros h Hh Hlt. simpl in Hlt.
  pose proof (Rmin_l df d). pose proof (Rmin_r df d).
  rewrite <- (Heq (x + h)), <- (Heq x).
  - apply Hlim; [exact Hh | simpl; lra].
  - replace (x - x) with 0 by ring. rewrite Rabs_R0. exact Hd.
  - replace (x + h - x) with h by ring. lra.
Qed.

(** Two functions with the same value and the same slope at [a] glue
    into a function with that slope at [a]. *)
Lemma glue_derivable_pt_lim (a l : R) (f g : R -> R) :
  f a = g a ->
  derivable_pt_lim f a l -> derivable_pt_lim g a l ->
  derivable_pt_lim (glue a f g) a l.
Proof.
  intros Hag Hf Hg eps Heps.
  destruct (Hf eps Heps) as [[df Hdf] Hfl].
  destruct (Hg eps Heps) as [[dg Hdg] Hgl].
  assert (Hm : 0 < Rmin df dg) by (apply Rmin_glb_lt; assumption).
  exists (mkposreal (Rmin df dg) Hm). intros h Hh Hlt. simpl in *.
  pose proof (Rmin_l df dg). pose proof (Rmin_r df dg).
  unfold glue. rewrite (Rleb_true a a) by lra.
  destruct (Rle_lt_dec (a + h) a) as [Hle | Hgt].
  - rewrite Rleb_true by assumption. apply Hfl; [exact Hh | lra].
  - rewrite Rleb_false by assumption. rewrite Hag.
    apply Hgl; [exact Hh | lra].
Qed.

Lemma stiction_has_slope (us v : R) :
  derivable_pt_lim (stiction us) v (us * step5_slope v).
Proof.
  evar (l : R).
  assert (H : derivable_pt_lim (fct_cte us * step5)%F v l).
  { subst l. apply derivable_pt_lim_mult;
      [apply derivable_pt_lim_const | apply step5_has_slope]. }
  replace (us * step5_slope v) with l; [exact H |].
  subst l. unfold fct_cte. ring.
Qed.

Lemma stribeck_decay_has_slope (us ud v : R) :
  derivable_pt_lim (stribeck_decay us ud) v
    (- (us - ud) * step5_slope ((v - 1) / 2) / 2).
Proof.
  evar (l : R).
  assert (H : derivable_pt_lim
                (fct_cte us
                 - fct_cte (us - ud)
                   * comp step5 ((id - fct_cte 1) * fct_cte (/ 2)))%F v l).
  { subst l. apply derivable_pt_lim_minus; [apply derivable_pt_lim_const |].
    apply derivable_pt_lim_mult; [apply derivable_pt_lim_const |].
    apply derivable_pt_lim_comp; [derive_poly | apply step5_has_slope]. }
  replace (- (us - ud) * step5_slope ((v - 1) / 2) / 2) with l; [exact H |].
  subst l. unfold fct_cte, mult_fct, minus_fct, id, Rdiv. ring.
Qed.

Lemma transition_has_slope (ud uv v : R) :
  derivable_pt_lim (transition ud uv) v (step5d_slope uv uv (v - 3)).
Proof.
  evar (l : R).
  assert (H : derivable_pt_lim
                (fct_cte ud + comp (step5d uv uv) (id - fct_cte 3))%F v l).
  { subst l. apply derivable_pt_lim_plus; [apply derivable_pt_lim_const |].
    apply derivable_pt_lim_comp; [derive_poly | apply step5d_has_slope]. }
  replace (step5d_slope uv uv (v - 3)) with l; [exact H |].
  subst l. unfold fct_cte, minus_fct, id. ring.
Qed.

Lemma sliding_has_slope (ud uv v : R) :
  derivable_pt_lim (sliding ud uv) v uv.
Proof.
  evar (l : R).
  assert (H : derivable_pt_lim
                (fct_cte ud + fct_cte uv * (id - fct_cte 3))%F v l)
    by (subst l; derive_poly).
  assert (E : l = uv) by (subst l; unfold fct_cte, minus_fct, id; ring).
  rewrite E in H. exact H.
Qed.

(** X5: the friction curve is differentiable at each of its three knots,
    with slope 0 at v = 1 and v = 3 and slope uv at v = 4, the slope of
    the sliding line: the segments join without a kink. *)
Theorem stribeck_smooth_at_knots (us ud uv : Real) :
  derivable_pt_lim (stribeck us ud uv) 1 0 /\
  derivable_pt_lim (stribeck us ud uv) 3 0 /\
  derivable_pt_lim (stribeck us ud uv) 4 uv.
Proof.
  pose proof (stiction_has_slope us 1) as S1.
  replace (us * step5_slope 1) with 0 in S1 by (unfold step5_slope; ring).
  pose proof (stribeck_decay_has_slope us ud 1) as D1.
  replace (- (us - ud) * step5_slope ((1 - 1) / 2) / 2) with 0 in D1
    by (unfold step5_slope; field).
  pose proof (stribeck_decay_has_slope us ud 3) as D3.
  replace (- (us - ud) * step5_slope ((3 - 1) / 2) / 2) with 0 in D3
    by (unfold step5_slope; field).
  pose proof (transition_has_slope ud uv 3) as T3.
  replace (step5d_slope uv uv (3 - 3)) with 0 in T3
    by (unfold step5d_slope; ring).
  pose proof (transition_has_slope ud uv 4) as T4.
  replace (step5d_slope uv uv (4 - 3)) with uv in T4
    by (unfold step5d_slope; ring).
  pose proof (sliding_has_slope ud uv 4) as L4.
  set (tail4 := glue 4 (transition ud uv) (sliding ud uv)).
  set (tail3 := glue 3 (stribeck_decay us ud) tail4).
  assert (G4 : derivable_pt_lim tail4 4 uv)
    by (apply glue_derivable_pt_lim; [apply knot_4 | assumption | assumption]).
  assert (Hlt : forall t d, Rabs (t - d) < 1 -> d - 1 < t < d + 1).
  { intros t d Ht. apply Rabs_def2 in Ht. lra. }
  split; [| split].
  - apply (glue_derivable_pt_lim 1 0 (stiction us) tail3).
    + unfold tail3, glue. rewrite (Rleb_true 1 3) by lra. apply knot_1.
    + exact S1.
    + apply (derivable_pt_lim_local (stribeck_decay us ud) tail3 1 0 1);
        [lra | | exact D1].
      intros t Ht. apply Hlt in Ht. unfold tail3, glue.
      rewrite Rleb_true by lra. reflexivity.
  - apply (derivable_pt_lim_local tail3 (stribeck us ud uv) 3 0 1); [lra | |].
    + intros t Ht. apply Hlt in Ht. unfold stribeck, tail3, tail4, glue.
      rewrite (Rleb_false t 1) by lra. reflexivity.
    + apply glue_derivable_pt_lim.
      * unfold tail4, glue. rewrite (Rleb_true 3 4) by lra. apply knot_3.
      * exact D3.
      * apply (derivable_pt_lim_local (transition ud uv) tail4 3 0 1);
          [lra | | exact T3].
        intros t Ht. apply Hlt in Ht. unfold tail4, glue.
        rewrite Rleb_true by lra. reflexivity.
  - apply (derivable_pt_lim_local tail4 (stribeck us ud uv) 4 uv 1);
      [lra | | exact G4].
    intros t Ht. apply Hlt in Ht. unfold stribeck, tail4, glue.
    rewrite (Rleb_false t 1), (Rleb_false t 3) by lra. reflexivity.
Qed.

(** ** The alternative curve [hollars] *)

(** X6: [hollars] starts at 0, reaches us + uv at v = 1, is
    v*(ud + 2(us-ud)/(1+v^2)) + uv*v up to v = 1 and
    ud + 2(us-ud)/(1+v^2) + uv*v beyond, and for us >= ud >= 0, uv >= 0
    and v >= 1 stays between ud + uv*v and us + uv*v. *)
Theorem hollars_values (us ud uv v : Real) :
  hollars us ud uv 0 = 0 /\
  hollars us ud uv 1 = us + uv /\
  (v <= 1 ->
   hollars us ud uv v = v * (ud + 2 * (us - ud) / (1 + v * v)) + uv * v) /\
  (1 <= v ->
   hollars us ud uv v = ud + 2 * (us - ud) / (1 + v * v) + uv * v) /\
  (0 <= ud <= us -> 0 <= uv -> 1 <= v ->
   ud + uv * v <= hollars us ud uv v <= us + uv * v).
Proof.
  assert (Hden : forall t : R, 0 < 1 + t * t).
  { intros t. pose proof (Rle_0_sqr t) as Hs. unfold Rsqr in Hs. lra. }
  assert (Hge : 1 <= v ->
            hollars us ud uv v = ud + 2 * (us - ud) / (1 + v * v) + uv * v).
  { intros H1. unfold hollars. rewrite Rmin_right by assumption. ring. }
  split; [unfold hollars; rewrite Rmin_left by lra; ring |].
  split; [unfold hollars; rewrite Rmin_right by lra; field |].
  split; [intros H1; unfold hollars; rewrite Rmin_left by assumption;
          reflexivity |].
  split; [exact Hge |].
  intros [Hd Hs] Hv H1. rewrite (Hge H1).
  pose proof (Hden v) as Hp.
  assert (Hq : 0 <= 2 * (us - ud) / (1 + v * v) <= us - ud).
  { split.
    - apply Rmult_le_pos; [lra | apply Rlt_le, Rinv_0_lt_compat; exact Hp].
    - apply Rmult_le_reg_r with (1 + v * v); [exact Hp |].
      replace (2 * (us - ud) / (1 + v * v) * (1 + v * v)) with (2 * (us - ud))
        by (field; lra).
      assert (1 <= v * v) by nra.
      assert (0 <= (us - ud) * (v * v - 1)) by (apply Rmult_le_pos; lra).
      lra. }
  lra.
Qed.

(** ** Geometry of the Hertz force *)

Lemma Vec3_eq (a b : Vec3) :
  vx a = vx b -> vy a = vy b -> vz a = vz b -> a = b.
Proof. destruct a, b. simpl. intros -> -> ->. reflexivity. Qed.

Section HertzGeometry.
Variable env : Collaborators.
Variable impl : CompliantContactSubsystemImpl.
Variable state : State.
Variable contact : Contact.
Hypothesis Hunit : normSqr (getNormal contact) = 1.

Lemma velTangent_orthogonal :
  dot (HertzCircular.velTangent env state contact) (getNormal contact) = 0.
Proof.
  unfold HertzCircular.velTangent, HertzCircular.velNormal,
    HertzCircular.xdot, HertzCircular.normal.
  set (n := getNormal contact) in *.
  set (w := HertzCircular.vel env state contact).
  unfold normSqr, dot in *. destruct n as [nx ny nz], w as [wx wy wz].
  simpl in *.
  transitivity ((wx * nx + wy * ny + wz * nz)
                * (1 - (nx * nx + ny * ny + nz * nz))); [ring |].
  rewrite Hunit. ring.
Qed.

Lemma forceFriction_orthogonal :
  dot (HertzCircular.forceFriction env impl state contact)
    (getNormal contact) = 0.
Proof.
  pose proof velTangent_orthogonal as Ht.
  unfold HertzCircular.forceFriction.
  destruct (HertzCircular.slipping env state contact).
  - set (s := HertzCircular.fFriction env impl state contact
              / HertzCircular.vslip env state contact).
    set (t := HertzCircular.velTangent env state contact) in *.
    transitivity (s * dot t (getNormal contact));
      [unfold dot, vscale; simpl; ring | rewrite Ht; ring].
  - unfold dot, Vec3_fill. simpl. ring.
Qed.

Lemma forceTotal_normal_component :
  dot (HertzCircular.forceTotal env impl state contact) (getNormal contact)
  = HertzCircular.fNormal env state contact.
Proof.
  pose proof forceFriction_orthogonal as Hf.
  unfold HertzCircular.forceTotal, HertzCircular.forceLoss,
    HertzCircular.forceH, HertzCircular.forceHC, HertzCircular.fNormal,
    HertzCircular.normal.
  set (ff := HertzCircular.forceFriction env impl state contact) in *.
  set (n := getNormal contact) in *.
  set (a := HertzCircular.fH env contact).
  set (b := HertzCircular.fHC env state contact).
  transitivity ((a + b) * normSqr n + dot ff n);
    [unfold normSqr, dot, vadd, vscale; simpl; ring |].
  rewrite Hunit, Hf. ring.
Qed.
End HertzGeometry.

Lemma forceFriction_magnitude (env : Collaborators)
    (impl : CompliantContactSubsystemImpl) (state : State) (contact : Contact) :
  HertzCircular.slipping env state contact = true ->
  normSqr (HertzCircular.forceFriction env impl state contact)
  = square (HertzCircular.fFriction env impl state contact).
Proof.
  intros Hslip. unfold HertzCircular.forceFriction. rewrite Hslip.
  assert (Hsq : 0 < HertzCircular.vslipSq env state contact).
  { unfold HertzCircular.slipping, Rgtb in Hslip.
    destruct (Rgt_dec _ _) as [Hgt | _]; [| discriminate].
    pose proof (Rle_0_sqr (SignificantReal env)) as Hs.
    unfold Rsqr in Hs. unfold square in Hgt. lra. }
  assert (Hv : 0 < HertzCircular.vslip env state contact)
    by (apply sqrt_lt_R0; exact Hsq).
  assert (Hvv : HertzCircular.vslip env state contact
                * HertzCircular.vslip env state contact
                = HertzCircular.vslipSq env state contact)
    by (apply sqrt_sqrt; lra).
  set (s := HertzCircular.vslip env state contact) in *.
  set (f := HertzCircular.fFriction env impl state contact).
  unfold HertzCircular.vslipSq in Hvv.
  set (t := HertzCircular.velTangent env state contact) in *.
  transitivity (f * f * normSqr t / (s * s));
    [unfold normSqr, dot, vscale; simpl; field; lra |].
  rewrite <- Hvv. unfold square. field. lra.
Qed.

(** X7: for a unit contact normal and depth > 0, the component along
    the normal of the force the generator reports is fNormal when
    fNormal > 0 and 0 otherwise; the friction force is perpendicular to
    the normal, and when the surfaces slip its magnitude is
    fNormal * mu. *)
Theorem hertz_force_decomposition (env : Collaborators)
    (impl : CompliantContactSubsystemImpl) (state : State) (contact : Contact)
    (V_GS1 V_GS2 : SpatialVec) (contactForce : ContactForce) :
  normSqr (getNormal contact) = 1 ->
  0 < getDepth contact ->
  let f := HertzCircular.calcContactForce env impl state contact
             V_GS1 V_GS2 contactForce in
  dot (sv_force (m_forceOnSurface2InG f)) (getNormal contact)
    = Rmax (HertzCircular.fNormal env state contact) 0 /\
  sv_torque (m_forceOnSurface2InG f) = mkVec3 0 0 0 /\
  dot (HertzCircular.forceFriction env impl state contact)
    (getNormal contact) = 0 /\
  (HertzCircular.slipping env state contact = true ->
   normSqr (HertzCircular.forceFriction env impl state contact)
   = square (HertzCircular.fNormal env state contact
             * HertzCircular.mu env impl state contact)).
Proof.
  intros Hunit Hd f. subst f.
  split; [| split; [| split]].
  - destruct (Rle_lt_dec (HertzCircular.fNormal env state contact) 0)
      as [Hn | Hn].
    + rewrite calc_yanking by assumption. rewrite Rmax_right by assumption.
      unfold dot. simpl. ring.
    + rewrite calc_pushing by assumption. rewrite Rmax_left by lra.
      simpl. apply forceTotal_normal_component. exact Hunit.
  - destruct (Rle_lt_dec (HertzCircular.fNormal env state contact) 0)
      as [Hn | Hn].
    + rewrite calc_yanking by assumption. reflexivity.
    + rewrite calc_pushing by assumption. reflexivity.
  - apply forceFriction_orthogonal. exact Hunit.
  - apply forceFriction_magnitude.
Qed.

(** X7 at the end-to-end scenario. *)
Lemma hertz_force_decomposition_witness :
  let zero := SpatialVec_fill (Vec3_fill 0) in
  let f := HertzCircular.calcContactForce scenario_env
             CompliantContactSubsystemImpl_new scenario_state scenario_contact
             zero zero (ContactForce_new scenario_env) in
  normSqr (getNormal scenario_contact) = 1 /\
  0 < getDepth scenario_contact /\
  dot (sv_force (m_forceOnSurface2InG f)) (getNormal scenario_contact)
    = Rmax (HertzCircular.fNormal scenario_env scenario_state
              scenario_contact) 0.
Proof.
  intros zero f.
  assert (Hu : normSqr (getNormal scenario_contact) = 1)
    by (unfold normSqr, dot; cbn; lra).
  assert (Hd : 0 < getDepth scenario_contact) by (cbn; lra).
  split; [exact Hu |]. split; [exact Hd |].
  exact (proj1 (hertz_force_decomposition scenario_env
                  CompliantContactSubsystemImpl_new scenario_state
                  scenario_contact zero zero (ContactForce_new scenario_env)
                  Hu Hd)).
Defined.

(** X8: whatever the two materials are, as long as surface 1 has a
    positive stiffness the split fractions are s1 = s2 = 1/2, so the
    center of pressure of every record returned for depth > 0 is the
    contact's origin: it never moves toward the stiffer surface. *)
Theorem center_of_pressure_is_origin (env : Collaborators)
    (impl : CompliantContactSubsystemImpl) (state : State) (contact : Contact)
    (V_GS1 V_GS2 : SpatialVec) (contactForce : ContactForce) :
  0 < getStiffness23 (getContactSurfaceMaterial env (getSurface1 contact)) ->
  0 < getDepth contact ->
  HertzCircular.s1 env contact = 0.5 /\
  HertzCircular.s2 env contact = 0.5 /\
  m_centerOfPressureInG
    (HertzCircular.calcContactForce env impl state contact
       V_GS1 V_GS2 contactForce) = getOrigin contact.
Proof.
  intros Hk Hd.
  assert (Hs1 : HertzCircular.s1 env contact = 0.5).
  { unfold HertzCircular.s1.
    change (HertzCircular.k2 env contact) with (HertzCircular.k1 env contact).
    unfold HertzCircular.k1, HertzCircular.mat1.
    set (k := getStiffness23 _) in *.
    assert (E : k / (k + k) = / 2) by (field; lra).
    rewrite E. lra. }
  split; [exact Hs1 |].
  split; [unfold HertzCircular.s2; rewrite Hs1; lra |].
  assert (Hpt : HertzCircular.contactPt env contact = getOrigin contact).
  { unfold HertzCircular.contactPt, HertzCircular.origin. rewrite Hs1.
    apply Vec3_eq; unfold vadd, vscale; simpl; ring. }
  destruct (Rle_lt_dec (HertzCircular.fNormal env state contact) 0) as [Hn | Hn].
  - rewrite calc_yanking by assumption. exact Hpt.
  - rewrite calc_pushing by assumption. exact Hpt.
Qed.

Lemma center_of_pressure_is_origin_witness :
  let zero := SpatialVec_fill (Vec3_fill 0) in
  0 < getStiffness23
        (getContactSurfaceMaterial scenario_env (getSurface1 scenario_contact))
  /\ 0 < getDepth scenario_contact /\
  m_centerOfPressureInG
    (HertzCircular.calcContactForce scenario_env
       CompliantContactSubsystemImpl_new scenario_state scenario_contact
       zero zero (ContactForce_new scenario_env)) = getOrigin scenario_contact.
Proof.
  intros zero.
  assert (Hk : 0 < getStiffness23
                     (getContactSurfaceMaterial scenario_env
                        (getSurface1 scenario_contact))) by (cbn; lra).
  assert (Hd : 0 < getDepth scenario_contact) by (cbn; lra).
  split; [exact Hk |]. split; [exact Hd |].
  exact (proj2 (proj2 (center_of_pressure_is_origin scenario_env
                         CompliantContactSubsystemImpl_new scenario_state
                         scenario_contact zero zero
                         (ContactForce_new scenario_env) Hk Hd))).
Defined.

(** ** The Hertz force as a function of depth *)

Lemma fH_at_depth (env : Collaborators) (contact : Contact) (x : R) :
  HertzCircular.fH env (contact_at_depth contact x)
  = spec_fH (HertzCircular.k env contact) x (getEffectiveRadius contact).
Proof. reflexivity. Qed.

Lemma spec_fH_monotone (k R0 x y : R) :
  0 <= k -> 0 <= R0 -> 0 <= x <= y -> spec_fH k x R0 <= spec_fH k y R0.
Proof.
  intros Hk HR [Hx Hxy]. unfold spec_fH.
  assert (H0 : 0 <= R0 * k) by (apply Rmult_le_pos; assumption).
  assert (Hs : sqrt (R0 * k * x) <= sqrt (R0 * k * y))
    by (apply sqrt_le_1_alt; nra).
  assert (Hsx : 0 <= sqrt (R0 * k * x)) by apply sqrt_pos.
  assert (Hkx : 0 <= 4 / 3 * k * x) by nra.
  assert (Hky : 4 / 3 * k * x <= 4 / 3 * k * y) by nra.
  apply Rmult_le_compat; assumption.
Qed.

(** The potential energy (2/5) fH x, as a function of x, has slope fH. *)
Lemma hertz_energy_slope (k R0 x : R) :
  0 < k -> 0 < R0 -> 0 < x ->
  derivable_pt_lim (fun t => 2 / 5 * spec_fH k t R0 * t) x (spec_fH k x R0).
Proof.
  intros Hk HR Hx.
  assert (Ha : 0 < R0 * k * x) by (repeat apply Rmult_lt_0_compat; assumption).
  assert (Hs : 0 < sqrt (R0 * k * x)) by (apply sqrt_lt_R0; exact Ha).
  pose proof (sqrt_sqrt (R0 * k * x) (Rlt_le _ _ Ha)) as Hss.
  evar (l : R).
  assert (H : derivable_pt_lim
                (fct_cte (2 / 5)
                 * (fct_cte (4 / 3) * fct_cte k * id
                    * comp sqrt (fct_cte R0 * fct_cte k * id))
                 * id)%F x l).
  { subst l.
    repeat first [ apply derivable_pt_lim_id
                 | apply derivable_pt_lim_const
                 | apply derivable_pt_lim_comp
                 | apply derivable_pt_lim_mult ].
    apply derivable_pt_lim_sqrt.
    unfold mult_fct, fct_cte, id. exact Ha. }
  assert (E : l = spec_fH k x R0).
  { subst l. unfold spec_fH, mult_fct, fct_cte, id, comp.
    set (s := sqrt (R0 * k * x)) in *.
    replace (R0 * k * x) with (s * s) at 1 by exact Hss.
    transitivity (4 / 3 * k * x * s * (4 / 5 + (R0 * k * x) / (5 * (s * s))));
      [field; lra |].
    rewrite Hss. field. lra. }
  rewrite E in H. exact H.
Qed.

(** X9: for a positive combined stiffness and radius, the Hertz force
    is positive at every depth x > 0 and does not decrease with depth,
    and the stored potential energy (2/5) fH x is positive and has the
    force as its derivative with respect to depth. *)
Theorem hertz_force_is_energy_gradient (env : Collaborators)
    (contact : Contact) (x y : Real) :
  0 < HertzCircular.k env contact ->
  0 < getEffectiveRadius contact ->
  0 < x -> x <= y ->
  0 < HertzCircular.fH env (contact_at_depth contact x) /\
  HertzCircular.fH env (contact_at_depth contact x)
    <= HertzCircular.fH env (contact_at_depth contact y) /\
  0 < HertzCircular.potentialEnergy env (contact_at_depth contact x) /\
  derivable_pt_lim
    (fun t => HertzCircular.potentialEnergy env (contact_at_depth contact t))
    x (HertzCircular.fH env (contact_at_depth contact x)).
Proof.
  intros Hk HR Hx Hxy. rewrite !fH_at_depth.
  assert (Hpos : 0 < spec_fH (HertzCircular.k env contact) x
                       (getEffectiveRadius contact))
    by (apply spec_fH_pos; assumption).
  split; [exact Hpos |].
  split; [apply spec_fH_monotone; lra |].
  split.
  { unfold HertzCircular.potentialEnergy. rewrite fH_at_depth.
    unfold HertzCircular.x. simpl.
    apply Rmult_lt_0_compat; [lra | exact Hx]. }
  apply (hertz_energy_slope (HertzCircular.k env contact)
           (getEffectiveRadius contact) x); assumption.
Qed.

Lemma hertz_force_is_energy_gradient_witness :
  0 < HertzCircular.k scenario_env scenario_contact /\
  0 < HertzCircular.fH scenario_env (contact_at_depth scenario_contact 0.01) /\
  HertzCircular.fH scenario_env (contact_at_depth scenario_contact 0.01)
    <= HertzCircular.fH scenario_env (contact_at_depth scenario_contact 0.02).
Proof.
  assert (Hk : 0 < HertzCircular.k scenario_env scenario_contact)
    by (rewrite scenario_k; lra).
  assert (HR : 0 < getEffectiveRadius scenario_contact) by (cbn; lra).
  assert (Hx : 0 < 0.01) by lra.
  assert (Hxy : 0.01 <= 0.02) by lra.
  destruct (hertz_force_is_energy_gradient scenario_env scenario_contact
              0.01 0.02 Hk HR Hx Hxy) as (Hp & Hm & _).
  split; [exact Hk |]. split; [exact Hp | exact Hm].
Defined.

(** ** The lazy caches *)

(** Whatever the generators are, an iteration of the force-cache loop
    writes nothing but the force cache entry and adds at most one
    record. *)
Lemma forceCache_step_frame (env : Collaborators)
    (impl : CompliantContactSubsystemImpl) (contact : Contact) (s s' : State) :
  forceCache_step env impl contact s = Ok s' ->
  s' = updForceCache (getForceCache s') s /\
  (length (getForceCache s') <= S (length (getForceCache s)))%nat.
Proof.
  unfold forceCache_step.
  destruct (getForceGenerator (getTypeId contact) impl) as [g | e];
    [| discriminate].
  cbn [mbind result_bind]. cbv zeta.
  destruct (ContactForce_isValid _); intros [= <-].
  - split; [reflexivity |]. rewrite getForceCache_upd, length_app. simpl. lia.
  - split; [reflexivity |]. rewrite getForceCache_upd. lia.
Qed.

Lemma forceCache_loop_frame (env : Collaborators)
    (impl : CompliantContactSubsystemImpl) (active : list Contact)
    (s s' : State) :
  forceCache_loop env impl active s = Ok s' ->
  s' = updForceCache (getForceCache s') s /\
  (length (getForceCache s') <= length (getForceCache s) + length active)%nat.
Proof.
  revert s. induction active as [| c active IH]; intros s; simpl.
  - intros [= <-]. split; [symmetry; apply updForceCache_same | lia].
  - destruct (forceCache_step env impl c s) as [s1 | e] eqn:Hstep;
      [| discriminate].
    cbn [mbind result_bind]. intros Hrun.
    destruct (forceCache_step_frame _ _ _ _ _ Hstep) as [E1 L1].
    destruct (IH _ Hrun) as [E2 L2].
    split; [| lia]. rewrite E2. rewrite E1 at 1. reflexivity.
Qed.

(** X10: [ensureForceCacheValid] returns a state whose force cache is
    already valid as it is, refuses with a stage error a state that is
    not yet at Velocity stage, and otherwise, when it succeeds, marks the
    cache valid, leaves every other part of the state as it was, caches
    at most one record per active contact, and is idempotent. *)
Theorem ensureForceCacheValid_contract (env : Collaborators)
    (impl : CompliantContactSubsystemImpl) (state : State) :
  (isForceCacheValid state = true ->
   ensureForceCacheValid env impl state = Ok state) /\
  (isForceCacheValid state = false ->
   stage_ge (getStage state) Stage_Velocity = false ->
   ensureForceCacheValid env impl state =
   Err (StageCheckFailed
          "CompliantContactSubystemImpl::ensureForceCacheValid()")) /\
  (forall s' : State,
     ensureForceCacheValid env impl state = Ok s' ->
     isForceCacheValid s' = true /\
     ensureForceCacheValid env impl s' = Ok s' /\
     s' = markForceCacheValid (updForceCache (getForceCache s') state) /\
     (isForceCacheValid state = false ->
      (length (getForceCache s')
       <= length (getActiveContacts env (updForceCache [] state)))%nat)).
Proof.
  split; [intros Hv; unfold ensureForceCacheValid; rewrite Hv; reflexivity |].
  split.
  { intros Hv Hs. unfold ensureForceCacheValid. rewrite Hv, Hs. reflexivity. }
  intros s'. unfold ensureForceCacheValid.
  destruct (isForceCacheValid state) eqn:Hv.
  - intros [= <-]. rewrite Hv. repeat split; try discriminate.
    destruct state; unfold isForceCacheValid in Hv; simpl in *; subst;
      reflexivity.
  - destruct (stage_ge (getStage state) Stage_Velocity); [| discriminate].
    cbn [negb]. cbv zeta.
    destruct (forceCache_loop env impl _ (updForceCache [] state))
      as [s1 | e] eqn:Hrun; [| discriminate].
    cbn [mbind result_bind]. intros [= <-].
    destruct (forceCache_loop_frame _ _ _ _ _ Hrun) as [E L].
    split; [reflexivity |]. split; [reflexivity |].
    split; [rewrite E at 1; reflexivity |].
    intros _. exact L.
Qed.

(** X11: a contact whose type id has no registered generator, in a
    subsystem without a default generator, makes both cache builds fail
    with an assertion failure instead of guessing a force model. *)
Theorem missing_generator_is_detected (env : Collaborators)
    (impl : CompliantContactSubsystemImpl) (state : State) (contact : Contact) :
  m_generators impl !! getTypeId contact = None ->
  m_defaultGenerator impl = None ->
  getForceGenerator (getTypeId contact) impl
    = Err (AssertionFailed "m_defaultGenerator") /\
  (isForceCacheValid state = false ->
   stage_ge (getStage state) Stage_Velocity = true ->
   In contact (getActiveContacts env (updForceCache [] state)) ->
   exists what, ensureForceCacheValid env impl state
                = Err (AssertionFailed what)) /\
  (isPotentialEnergyCacheValid state = false ->
   stage_ge (getStage state) Stage_Position = true ->
   stage_ge (getStage state) Stage_Velocity = false ->
   In contact (getActiveContacts env (updPotentialEnergyCache 0 state)) ->
   exists what, ensurePotentialEnergyCacheValid env impl state
                = Err (AssertionFailed what)).
Proof.
  intros Hreg Hdef.
  assert (Hget : getForceGenerator (getTypeId contact) impl
                 = Err (AssertionFailed "m_defaultGenerator")).
  { unfold getForceGenerator, getDefaultForceGenerator.
    rewrite Hreg, Hdef. reflexivity. }
  assert (Hany : forall t, (exists g, getForceGenerator t impl = Ok g) \/
                           (exists what, getForceGenerator t impl
                                         = Err (AssertionFailed what))).
  { intros t. unfold getForceGenerator, getDefaultForceGenerator.
    destruct (m_generators impl !! t) as [p |].
    - destruct (heap impl !! p); eauto.
    - rewrite Hdef. eauto. }
  split; [exact Hget |].
  split.
  - intros Hv Hs Hin. unfold ensureForceCacheValid. rewrite Hv, Hs.
    cbn [negb]. cbv zeta.
    assert (Hloop : forall active s, In contact active ->
              exists what, forceCache_loop env impl active s
                           = Err (AssertionFailed what)).
    { induction active as [| c active IH]; intros s Hc; [destruct Hc |].
      simpl. unfold forceCache_step at 1.
      destruct Hc as [-> | Hc].
      - rewrite Hget. eauto.
      - destruct (Hany (getTypeId c)) as [[g Hg] | [what Hw]].
        + rewrite Hg. cbn [mbind result_bind]. cbv zeta.
          destruct (ContactForce_isValid _); cbn [mbind result_bind];
            apply IH; exact Hc.
        + rewrite Hw. eauto. }
    destruct (Hloop _ (updForceCache [] state) Hin) as [what Hw].
    rewrite Hw. eauto.
  - intros Hv Hp Hs Hin. unfold ensurePotentialEnergyCacheValid.
    rewrite Hv, Hp. cbn [negb]. cbv zeta.
    change (getStage (updPotentialEnergyCache 0 state)) with (getStage state).
    rewrite Hs.
    assert (Hloop : forall active s, In contact active ->
              exists what, potentialEnergy_loop env impl active s
                           = Err (AssertionFailed what)).
    { induction active as [| c active IH]; intros s Hc; [destruct Hc |].
      simpl. unfold potentialEnergy_step at 1.
      destruct Hc as [-> | Hc].
      - rewrite Hget. eauto.
      - destruct (Hany (getTypeId c)) as [[g Hg] | [what Hw]].
        + rewrite Hg. cbn [mbind result_bind]. apply IH; exact Hc.
        + rewrite Hw. eauto. }
    destruct (Hloop _ (updPotentialEnergyCache 0 state) Hin) as [what Hw].
    rewrite Hw. eauto.
Qed.

(** A subsystem with no generator at all, and a state with one active
    contact. *)
Lemma missing_generator_is_detected_witness :
  let env := yank_env in
  let state := scene_state Stage_Velocity 0 0 in
  m_generators CompliantContactSubsystemImpl_new !! getTypeId scenario_contact
    = None /\
  m_defaultGenerator CompliantContactSubsystemImpl_new = None /\
  exists what,
    ensureForceCacheValid env CompliantContactSubsystemImpl_new state
    = Err (AssertionFailed what).
Proof.
  intros env state.
  assert (Hreg : m_generators CompliantContactSubsystemImpl_new
                   !! getTypeId scenario_contact = None)
    by apply lookup_empty.
  split; [exact Hreg |]. split; [reflexivity |].
  destruct (missing_generator_is_detected env
              CompliantContactSubsystemImpl_new state scenario_contact
              Hreg eq_refl) as (_ & Hforce & _).
  apply Hforce; [reflexivity | reflexivity | left; reflexivity].
Defined.

(** X12: when every active contact is dispatched to the Hertz
    generator, the force cache holds, in the tracker's order, exactly one
    record for each contact with depth > 0 and a valid id, carrying
    that contact's id. *)
Theorem forceCache_ids_follow_contacts (env : Collaborators)
    (impl : CompliantContactSubsystemImpl) (state : State) :
  isForceCacheValid state = false ->
  stage_ge (getStage state) Stage_Velocity = true ->
  Forall (fun c => exists g, getForceGenerator (getTypeId c) impl = Ok g /\
                             gen_class g = HertzCircularClass)
    (getActiveContacts env (updForceCache [] state)) ->
  exists s',
    ensureForceCacheValid env impl state = Ok s' /\
    map m_contactId (getForceCache s')
    = map getContactId
        (List.filter
           (fun c => Rgtb (getDepth c) 0 && index_isValid (getContactId c))
           (getActiveContacts env (updForceCache [] state))) /\
    Forall (fun f => ContactForce_isValid f = true) (getForceCache s').
Proof.
  intros Hv Hs Hact. unfold ensureForceCacheValid. rewrite Hv, Hs.
  cbn [negb]. cbv zeta.
  assert (Hloop : forall active s,
            Forall (fun c => exists g,
                      getForceGenerator (getTypeId c) impl = Ok g /\
                      gen_class g = HertzCircularClass) active ->
            exists s', forceCache_loop env impl active s = Ok s' /\
              map m_contactId (getForceCache s')
              = map m_contactId (getForceCache s)
                ++ map getContactId
                     (List.filter
                        (fun c => Rgtb (getDepth c) 0
                                  && index_isValid (getContactId c)) active) /\
              (Forall (fun f => ContactForce_isValid f = true)
                 (getForceCache s) ->
               Forall (fun f => ContactForce_isValid f = true)
                 (getForceCache s'))).
  { induction active as [| c active IH]; intros s Hall; simpl.
    - exists s. split; [reflexivity |]. rewrite app_nil_r. auto.
    - apply Forall_cons in Hall as [(g & Hg & Hc) Hall].
      rewrite (forceCache_step_Hertz env impl c s g Hg Hc). cbv zeta.
      pose proof (calc_isValid env impl (forces_push_back env s) c
                    (SpatialVec_fill (Vec3_fill 0))
                    (SpatialVec_fill (Vec3_fill 0)) (ContactForce_new env))
        as Hvalid.
      destruct (Rgtb (getDepth c) 0 && index_isValid (getContactId c))
        eqn:Hkeep; rewrite Hvalid; cbn [mbind result_bind].
      + destruct (IH (updForceCache (getForceCache s ++
                   [HertzCircular.calcContactForce env impl
                      (forces_push_back env s) c
                      (SpatialVec_fill (Vec3_fill 0))
                      (SpatialVec_fill (Vec3_fill 0))
                      (ContactForce_new env)]) s) Hall)
          as (s' & Hrun & Hids & Hok).
        exists s'. split; [exact Hrun |].
        rewrite getForceCache_upd in Hids, Hok.
        split.
        * rewrite Hids, map_app. simpl. rewrite <- app_assoc. simpl.
          do 2 f_equal.
          apply andb_true_iff in Hkeep as [Hd _].
          unfold Rgtb in Hd. destruct (Rgt_dec (getDepth c) 0); [| discriminate].
          destruct (Rle_lt_dec
                      (HertzCircular.fNormal env (forces_push_back env s) c) 0).
          -- rewrite calc_yanking by (assumption || lra). reflexivity.
          -- rewrite calc_pushing by (assumption || lra). reflexivity.
        * intros Hprev. apply Hok. apply Forall_app. split; [exact Hprev |].
          apply Forall_cons. split; [exact Hvalid | constructor].
      + apply IH. exact Hall. }
  destruct (Hloop _ (updForceCache [] state) Hact) as (s' & Hrun & Hids & Hok).
  rewrite Hrun. cbn [mbind result_bind].
  exists (markForceCacheValid s'). split; [reflexivity |].
  split; [exact Hids |]. apply Hok. constructor.
Qed.

Lemma forceCache_ids_follow_contacts_witness :
  let impl := CompliantContactSubsystem_new yank_env 1%positive in
  let state := scene_state Stage_Velocity (-10) 0 in
  exists s',
    ensureForceCacheValid yank_env impl state = Ok s' /\
    map m_contactId (getForceCache s') = [7%Z].
Proof.
  intros impl state.
  destruct (forceCache_ids_follow_contacts yank_env impl state
              eq_refl eq_refl) as (s' & Hrun & Hids & _).
  - apply Forall_cons. split; [| constructor].
    eexists. split; [exact yank_lookup | reflexivity].
  - exists s'. split; [exact Hrun |]. rewrite Hids.
    change (getActiveContacts yank_env (updForceCache [] state))
      with [scenario_contact].
    cbn [List.filter getDepth getContactId scenario_contact scene_contact].
    rewrite Rgtb_true by lra. reflexivity.
Defined.

Lemma ensureForceCacheValid_frame (env : Collaborators)
    (impl : CompliantContactSubsystemImpl) (state s' : State) :
  ensureForceCacheValid env impl state = Ok s' ->
  isForceCacheValid s' = true /\
  s' = markForceCacheValid (updForceCache (getForceCache s') state).
Proof.
  unfold ensureForceCacheValid.
  destruct (isForceCacheValid state) eqn:Hv.
  - intros [= <-]. split; [exact Hv |].
    destruct state; unfold isForceCacheValid in Hv; simpl in *; subst;
      reflexivity.
  - destruct (stage_ge (getStage state) Stage_Velocity); [| discriminate].
    cbn [negb]. cbv zeta.
    destruct (forceCache_loop env impl _ (updForceCache [] state))
      as [s1 | e] eqn:Hrun; [| discriminate].
    cbn [mbind result_bind]. intros [= <-].
    destruct (forceCache_loop_frame _ _ _ _ _ Hrun) as [E _].
    split; [reflexivity |]. rewrite E at 1. reflexivity.
Qed.

Lemma potentialEnergy_loop_frame (env : Collaborators)
    (impl : CompliantContactSubsystemImpl) (active : list Contact)
    (s s' : State) :
  potentialEnergy_loop env impl active s = Ok s' ->
  s' = updPotentialEnergyCache (getPotentialEnergyCache s') s.
Proof.
  revert s. induction active as [| c active IH]; intros s; simpl.
  - intros [= <-]. destruct s; reflexivity.
  - unfold potentialEnergy_step at 1.
    destruct (getForceGenerator (getTypeId c) impl) as [g | e];
      [| discriminate].
    cbn [mbind result_bind]. intros Hrun.
    rewrite (IH _ Hrun) at 1. reflexivity.
Qed.

(** X13: [ensurePotentialEnergyCacheValid] returns a state whose energy
    cache is valid as it is and refuses with a stage error a state not
    yet at Position stage.  When it succeeds the energy cache is valid
    and a second call, or [calcPotentialEnergy], returns the same value
    without recomputing.  On a state below Velocity stage it writes
    nothing but the energy cache entry (the force cache and its flag are
    untouched), and with no active contact the energy is 0. *)
Theorem ensurePotentialEnergyCacheValid_contract (env : Collaborators)
    (impl : CompliantContactSubsystemImpl) (state : State) :
  (isPotentialEnergyCacheValid state = true ->
   ensurePotentialEnergyCacheValid env impl state = Ok state) /\
  (isPotentialEnergyCacheValid state = false ->
   stage_ge (getStage state) Stage_Position = false ->
   ensurePotentialEnergyCacheValid env impl state =
   Err (StageCheckFailed
          "CompliantContactSubystemImpl::ensurePotentialEnergyCacheValid()")) /\
  (forall s' : State,
     ensurePotentialEnergyCacheValid env impl state = Ok s' ->
     isPotentialEnergyCacheValid s' = true /\
     ensurePotentialEnergyCacheValid env impl s' = Ok s' /\
     calcPotentialEnergy env impl s' = Ok (getPotentialEnergyCache s', s') /\
     (stage_ge (getStage state) Stage_Velocity = false ->
      s' = markPotentialEnergyCacheValid
             (updPotentialEnergyCache (getPotentialEnergyCache s') state)) /\
     (isPotentialEnergyCacheValid state = false ->
      stage_ge (getStage state) Stage_Velocity = false ->
      getActiveContacts env (updPotentialEnergyCache 0 state) = [] ->
      getPotentialEnergyCache s' = 0)).
Proof.
  assert (Hvalid : forall s, isPotentialEnergyCacheValid s = true ->
            ensurePotentialEnergyCacheValid env impl s = Ok s).
  { intros s Hs. unfold ensurePotentialEnergyCacheValid. rewrite Hs.
    reflexivity. }
  split; [apply Hvalid |].
  split.
  { intros Hv Hs. unfold ensurePotentialEnergyCacheValid. rewrite Hv, Hs.
    reflexivity. }
  intros s' Hrun.
  assert (Hs' : isPotentialEnergyCacheValid s' = true).
  { revert Hrun. unfold ensurePotentialEnergyCacheValid.
    destruct (isPotentialEnergyCacheValid state) eqn:Hv;
      [intros [= <-]; exact Hv |].
    destruct (stage_ge (getStage state) Stage_Position); [| discriminate].
    cbn [negb]. cbv zeta.
    destruct (stage_ge (getStage (updPotentialEnergyCache 0 state))
                Stage_Velocity).
    - destruct (ensureForceCacheValid env impl _); [| discriminate].
      cbn [mbind result_bind]. intros [= <-]. reflexivity.
    - destruct (potentialEnergy_loop env impl _ _); [| discriminate].
      cbn [mbind result_bind]. intros [= <-]. reflexivity. }
  split; [exact Hs' |]. split; [apply Hvalid; exact Hs' |].
  split; [unfold calcPotentialEnergy; rewrite (Hvalid _ Hs'); reflexivity |].
  revert Hrun. unfold ensurePotentialEnergyCacheValid.
  destruct (isPotentialEnergyCacheValid state) eqn:Hv.
  - intros [= <-]. split; [| discriminate]. intros _.
    destruct state; unfold isPotentialEnergyCacheValid in Hv; simpl in *;
      subst; reflexivity.
  - destruct (stage_ge (getStage state) Stage_Position); [| discriminate].
    cbn [negb]. cbv zeta.
    change (getStage (updPotentialEnergyCache 0 state)) with (getStage state).
    destruct (stage_ge (getStage state) Stage_Velocity);
      [intros _; split; [discriminate | intros _; discriminate] |].
    destruct (potentialEnergy_loop env impl _ (updPotentialEnergyCache 0 state))
      as [s1 | e] eqn:Hloop; [| discriminate].
    cbn [mbind result_bind]. intros [= <-].
    pose proof (potentialEnergy_loop_frame _ _ _ _ _ Hloop) as E.
    split.
    + intros _. rewrite E at 1. reflexivity.
    + intros _ _ Hnone. rewrite Hnone in Hloop. simpl in Hloop.
      injection Hloop as <-. reflexivity.
Qed.

(** X14: at Velocity stage or later the potential energy is computed
    from the force cache: a successful call leaves the force cache
    valid, and the energy it caches is the sum of the potential
    energies of the cached records, which is 0 for an empty cache. *)
Theorem potentialEnergy_sums_forceCache (env : Collaborators)
    (impl : CompliantContactSubsystemImpl) (state s' : State) :
  isPotentialEnergyCacheValid state = false ->
  stage_ge (getStage state) Stage_Velocity = true ->
  ensurePotentialEnergyCacheValid env impl state = Ok s' ->
  isForceCacheValid s' = true /\
  getPotentialEnergyCache s' = sum_potentialEnergy 0 (getForceCache s') /\
  (getForceCache s' = [] -> getPotentialEnergyCache s' = 0) /\
  (isForceCacheValid state = true ->
   getForceCache s' = getForceCache state).
Proof.
  intros Hv Hs. unfold ensurePotentialEnergyCacheValid. rewrite Hv.
  assert (Hp : stage_ge (getStage state) Stage_Position = true).
  { revert Hs. unfold stage_ge. destruct (getStage state); simpl;
      intros; congruence. }
  rewrite Hp. cbn [negb]. cbv zeta.
  change (getStage (updPotentialEnergyCache 0 state)) with (getStage state).
  rewrite Hs.
  destruct (ensureForceCacheValid env impl (updPotentialEnergyCache 0 state))
    as [s1 | e] eqn:Hrun; [| discriminate].
  cbn [mbind result_bind]. intros [= <-].
  destruct (ensureForceCacheValid_frame _ _ _ _ Hrun) as [Hvalid E].
  assert (Hpe : getPotentialEnergyCache s1 = 0) by (rewrite E; reflexivity).
  split; [exact Hvalid |].
  assert (Hsum : getPotentialEnergyCache
                   (markPotentialEnergyCacheValid
                      (updPotentialEnergyCache
                         (sum_potentialEnergy (getPotentialEnergyCache s1)
                            (getForceCache s1)) s1))
                 = sum_potentialEnergy 0 (getForceCache s1))
    by (rewrite Hpe; reflexivity).
  split; [exact Hsum |].
  split.
  - intros Hnil. rewrite Hsum.
    change (getForceCache
              (markPotentialEnergyCacheValid
                 (updPotentialEnergyCache
                    (sum_potentialEnergy (getPotentialEnergyCache s1)
                       (getForceCache s1)) s1)))
      with (getForceCache s1) in Hnil.
    rewrite Hnil. reflexivity.
  - intros Hfv. revert Hrun. unfold ensureForceCacheValid.
    change (isForceCacheValid (updPotentialEnergyCache 0 state))
      with (isForceCacheValid state).
    rewrite Hfv. intros [= <-]. reflexivity.
Qed.

(** ** The dynamics-stage pass *)

Lemma total_force_alter (G : SpatialVec) (j : nat) (l : list SpatialVec) :
  (j < length l)%nat ->
  total_force (alter (fun old => SpatialVec_add old G) j l)
  = vadd (total_force l) (sv_force G).
Proof.
  revert j. induction l as [| F l IH]; intros j Hj; simpl in Hj; [lia |].
  destruct j as [| j].
  - change (alter (fun old => SpatialVec_add old G) 0%nat (F :: l))
      with (SpatialVec_add F G :: l).
    cbn [total_force]. apply Vec3_eq; simpl; ring.
  - change (alter (fun old => SpatialVec_add old G) (S j) (F :: l))
      with (F :: alter (fun old => SpatialVec_add old G) j l).
    cbn [total_force]. rewrite IH by lia. apply Vec3_eq; simpl; ring.
Qed.

Lemma total_moment_alter (origin : nat -> Vec3) (G : SpatialVec)
    (i j : nat) (l : list SpatialVec) :
  (j < length l)%nat ->
  total_moment origin i (alter (fun old => SpatialVec_add old G) j l)
  = vadd (total_moment origin i l)
      (vadd (sv_torque G) (cross (origin (i + j)%nat) (sv_force G))).
Proof.
  revert i j. induction l as [| F l IH]; intros i j Hj; simpl in Hj; [lia |].
  destruct j as [| j].
  - change (alter (fun old => SpatialVec_add old G) 0%nat (F :: l))
      with (SpatialVec_add F G :: l).
    cbn [total_moment]. rewrite Nat.add_0_r. apply Vec3_eq; simpl; ring.
  - change (alter (fun old => SpatialVec_add old G) (S j) (F :: l))
      with (F :: alter (fun old => SpatialVec_add old G) j l).
    cbn [total_moment]. rewrite IH by lia.
    replace (S i + j)%nat with (i + S j)%nat by lia.
    apply Vec3_eq; simpl; ring.
Qed.

Lemma applyBodyForce_spec (mobod : MobilizedBody) (F : SpatialVec)
    (l l' : list SpatialVec) (origin : nat -> Vec3) :
  applyBodyForce mobod F l = Ok l' ->
  (0 <= mobod)%Z /\
  length l' = length l /\
  total_force l' = vadd (total_force l) (sv_force F) /\
  total_moment origin 0 l'
  = vadd (total_moment origin 0 l)
      (vadd (sv_torque F) (cross (origin (Z.to_nat mobod)) (sv_force F))).
Proof.
  unfold applyBodyForce.
  destruct (0 <=? mobod)%Z eqn:H0; [| discriminate].
  destruct (Z.to_nat mobod <? length l)%nat eqn:H1; [| discriminate].
  simpl. intros [= <-].
  apply Z.leb_le in H0. apply Nat.ltb_lt in H1.
  split; [exact H0 |]. split; [apply length_alter |].
  split; [apply total_force_alter; exact H1 |].
  rewrite total_moment_alter by exact H1. reflexivity.
Qed.

(** One contact force leaves the resultant of the array unchanged. *)
Lemma dynamics_step_balance (env : Collaborators)
    (getBodyOriginLocation : MobilizedBody -> State -> Vec3)
    (s : State) (contacts : list Contact) (force : ContactForce)
    (l l' : list SpatialVec) :
  dynamics_step env getBodyOriginLocation s contacts force l = Ok l' ->
  length l' = length l /\
  total_force l' = total_force l /\
  total_moment (fun i => getBodyOriginLocation (Z.of_nat i) s) 0 l'
  = total_moment (fun i => getBodyOriginLocation (Z.of_nat i) s) 0 l.
Proof.
  unfold dynamics_step.
  destruct (getContactById contacts (m_contactId force)) as [contact |];
    [| discriminate].
  cbv zeta.
  set (origin := fun i => getBodyOriginLocation (Z.of_nat i) s).
  destruct (applyBodyForce _ _ l) as [l1 |] eqn:H1; [| discriminate].
  cbn [mbind result_bind]. intros H2.
  destruct (applyBodyForce_spec _ _ _ _ origin H1) as (Hm1 & L1 & F1 & M1).
  destruct (applyBodyForce_spec _ _ _ _ origin H2) as (Hm2 & L2 & F2 & M2).
  split; [congruence |].
  split.
  - rewrite F2, F1. apply Vec3_eq; simpl; ring.
  - rewrite M2, M1. unfold origin. rewrite !Z2Nat.id by assumption.
    apply Vec3_eq; simpl; ring.
Qed.

Lemma dynamics_loop_balance (env : Collaborators)
    (getBodyOriginLocation : MobilizedBody -> State -> Vec3)
    (s : State) (contacts : list Contact) (forces : list ContactForce)
    (l l' : list SpatialVec) :
  dynamics_loop env getBodyOriginLocation s contacts forces l = Ok l' ->
  length l' = length l /\
  total_force l' = total_force l /\
  total_moment (fun i => getBodyOriginLocation (Z.of_nat i) s) 0 l'
  = total_moment (fun i => getBodyOriginLocation (Z.of_nat i) s) 0 l.
Proof.
  revert l. induction forces as [| f forces IH]; intros l; simpl.
  - intros [= <-]. repeat split.
  - destruct (dynamics_step env getBodyOriginLocation s contacts f l)
      as [l1 |] eqn:Hstep; [| discriminate].
    cbn [mbind result_bind]. intros Hrun.
    destruct (dynamics_step_balance _ _ _ _ _ _ _ Hstep) as (L1 & F1 & M1).
    destruct (IH _ Hrun) as (L2 & F2 & M2).
    repeat split; congruence.
Qed.

Lemma SpatialVec_eq (A B : SpatialVec) :
  sv_torque A = sv_torque B -> sv_force A = sv_force B -> A = B.
Proof. destruct A, B; simpl; intros -> ->; reflexivity. Qed.

Lemma applyBodyForce_ok (mobod : MobilizedBody) (F : SpatialVec)
    (l : list SpatialVec) :
  (0 <= mobod < Z.of_nat (length l))%Z <->
  applyBodyForce mobod F l
  = Ok (alter (fun old => SpatialVec_add old F) (Z.to_nat mobod) l).
Proof.
  unfold applyBodyForce. split.
  - intros [H0 H1].
    assert (E0 : (0 <=? mobod)%Z = true) by (apply Z.leb_le; exact H0).
    assert (E1 : (Z.to_nat mobod <? length l)%nat = true)
      by (apply Nat.ltb_lt; lia).
    rewrite E0, E1. reflexivity.
  - destruct (0 <=? mobod)%Z eqn:E0; [| discriminate].
    destruct (Z.to_nat mobod <? length l)%nat eqn:E1; [| discriminate].
    intros _. apply Z.leb_le in E0. apply Nat.ltb_lt in E1. lia.
Qed.

Lemma applyBodyForce_inv (mobod : MobilizedBody) (F : SpatialVec)
    (l l' : list SpatialVec) :
  applyBodyForce mobod F l = Ok l' ->
  (0 <= mobod < Z.of_nat (length l))%Z /\
  l' = alter (fun old => SpatialVec_add old F) (Z.to_nat mobod) l.
Proof.
  unfold applyBodyForce.
  destruct (0 <=? mobod)%Z eqn:E0; [| discriminate].
  destruct (Z.to_nat mobod <? length l)%nat eqn:E1; [| discriminate].
  simpl. intros [= <-]. apply Z.leb_le in E0. apply Nat.ltb_lt in E1.
  split; [lia | reflexivity].
Qed.

(** One iteration succeeds exactly on an applicable force. *)
Lemma dynamics_step_succeeds (env : Collaborators)
    (getBodyOriginLocation : MobilizedBody -> State -> Vec3)
    (s : State) (contacts : list Contact) (force : ContactForce)
    (l : list SpatialVec) :
  force_applicable env contacts (length l) force <->
  exists l', dynamics_step env getBodyOriginLocation s contacts force l = Ok l'.
Proof.
  unfold force_applicable, dynamics_step. split.
  - intros (contact & -> & Hm1 & Hm2). cbv zeta.
    rewrite (proj1 (applyBodyForce_ok _ _ l) Hm1). cbn [mbind result_bind].
    eexists. apply applyBodyForce_ok. rewrite length_alter. exact Hm2.
  - intros [l' Hrun].
    destruct (getContactById contacts (m_contactId force)) as [contact |];
      [| discriminate].
    cbv zeta in Hrun.
    destruct (applyBodyForce _ _ l) as [l1 |] eqn:H1; [| discriminate].
    cbn [mbind result_bind] in Hrun.
    apply applyBodyForce_inv in H1 as [Hm1 ->].
    apply applyBodyForce_inv in Hrun as [Hm2 _].
    rewrite length_alter in Hm2.
    exists contact. split; [reflexivity |]. split; assumption.
Qed.

Lemma dynamics_loop_succeeds (env : Collaborators)
    (getBodyOriginLocation : MobilizedBody -> State -> Vec3)
    (s : State) (contacts : list Contact) (forces : list ContactForce)
    (l : list SpatialVec) :
  Forall (force_applicable env contacts (length l)) forces <->
  exists l', dynamics_loop env getBodyOriginLocation s contacts forces l = Ok l'.
Proof.
  revert l. induction forces as [| f forces IH]; intros l.
  - split; [intros _; eexists; reflexivity | intros _; constructor].
  - cbn [dynamics_loop]. split.
    + intros Hall. apply Forall_cons in Hall as [Hf Hall].
      apply (dynamics_step_succeeds env getBodyOriginLocation s) in Hf
        as [l1 Hstep].
      rewrite Hstep. cbn [mbind result_bind].
      apply IH.
      destruct (dynamics_step_balance _ _ _ _ _ _ _ Hstep) as (-> & _).
      exact Hall.
    + intros [l' Hrun].
      destruct (dynamics_step env getBodyOriginLocation s contacts f l)
        as [l1 |] eqn:Hstep; [| discriminate].
      cbn [mbind result_bind] in Hrun.
      apply Forall_cons. split.
      * apply (dynamics_step_succeeds env getBodyOriginLocation s).
        eexists; exact Hstep.
      * destruct (dynamics_step_balance _ _ _ _ _ _ _ Hstep) as (L & _).
        rewrite <- L. apply IH. eexists; exact Hrun.
Qed.

(** Where one cached force lands: the entry of every body changes by
    the body's share of the contact wrench, both taken at the ground
    origin. *)
Lemma dynamics_step_lands (env : Collaborators)
    (getBodyOriginLocation : MobilizedBody -> State -> Vec3)
    (s : State) (contacts : list Contact) (force : ContactForce)
    (l l' : list SpatialVec) (b : nat) (Fb : SpatialVec) :
  dynamics_step env getBodyOriginLocation s contacts force l = Ok l' ->
  l !! b = Some Fb ->
  exists Fb',
    l' !! b = Some Fb' /\
    shift_to_origin (getBodyOriginLocation (Z.of_nat b) s) Fb'
    = SpatialVec_add
        (shift_to_origin (getBodyOriginLocation (Z.of_nat b) s) Fb)
        (contact_share env contacts force b).
Proof.
  unfold dynamics_step, contact_share.
  destruct (getContactById contacts (m_contactId force)) as [contact |];
    [| discriminate].
  cbv zeta.
  set (m1 := getMobilizedBody env (getSurface1 contact)).
  set (m2 := getMobilizedBody env (getSurface2 contact)).
  destruct (applyBodyForce m1 _ l) as [l1 |] eqn:H1; [| discriminate].
  cbn [mbind result_bind]. intros H2 Hb.
  apply applyBodyForce_inv in H1 as [Hm1 ->].
  apply applyBodyForce_inv in H2 as [Hm2 ->].
  clearbody m1 m2.
  destruct (Z.eqb_spec (Z.of_nat b) m2) as [E2 | N2];
    destruct (Z.eqb_spec (Z.of_nat b) m1) as [E1 | N1].
  - subst m1 m2. rewrite Nat2Z.id.
    eexists. split.
    + rewrite !list_lookup_alter_eq, Hb. reflexivity.
    + unfold contact_wrench, shift_to_origin, SpatialVec_add, SpatialVec_neg.
      apply SpatialVec_eq; apply Vec3_eq; cbn; ring.
  - subst m2. rewrite Nat2Z.id.
    assert (B1 : Z.to_nat m1 <> b) by lia.
    eexists. split.
    + rewrite list_lookup_alter_eq, list_lookup_alter_ne by exact B1.
      rewrite Hb. reflexivity.
    + unfold contact_wrench, shift_to_origin, SpatialVec_add, SpatialVec_neg.
      apply SpatialVec_eq; apply Vec3_eq; cbn; ring.
  - subst m1. rewrite Nat2Z.id.
    assert (B2 : Z.to_nat m2 <> b) by lia.
    eexists. split.
    + rewrite list_lookup_alter_ne by exact B2.
      rewrite list_lookup_alter_eq, Hb. reflexivity.
    + unfold contact_wrench, shift_to_origin, SpatialVec_add, SpatialVec_neg.
      apply SpatialVec_eq; apply Vec3_eq; cbn; ring.
  - assert (B1 : Z.to_nat m1 <> b) by lia.
    assert (B2 : Z.to_nat m2 <> b) by lia.
    exists Fb. split.
    + rewrite !list_lookup_alter_ne by assumption. exact Hb.
    + unfold shift_to_origin, SpatialVec_add.
      apply SpatialVec_eq; apply Vec3_eq; cbn; ring.
Qed.

Lemma dynamics_loop_lands (env : Collaborators)
    (getBodyOriginLocation : MobilizedBody -> State -> Vec3)
    (s : State) (contacts : list Contact) (forces : list ContactForce)
    (l l' : list SpatialVec) (b : nat) (Fb : SpatialVec) :
  dynamics_loop env getBodyOriginLocation s contacts forces l = Ok l' ->
  l !! b = Some Fb ->
  exists Fb',
    l' !! b = Some Fb' /\
    shift_to_origin (getBodyOriginLocation (Z.of_nat b) s) Fb'
    = fold_left
        (fun acc force => SpatialVec_add acc (contact_share env contacts force b))
        forces
        (shift_to_origin (getBodyOriginLocation (Z.of_nat b) s) Fb).
Proof.
  revert l Fb. induction forces as [| f forces IH]; intros l Fb; simpl.
  - intros [= <-] Hb. exists Fb. split; [exact Hb | reflexivity].
  - destruct (dynamics_step env getBodyOriginLocation s contacts f l)
      as [l1 |] eqn:Hstep; [| discriminate].
    cbn [mbind result_bind]. intros Hrun Hb.
    destruct (dynamics_step_lands _ _ _ _ _ _ _ _ _ Hstep Hb)
      as (Fb1 & Hb1 & E1).
    destruct (IH _ _ Hrun Hb1) as (Fb' & Hb' & E').
    exists Fb'. split; [exact Hb' |]. rewrite E', E1. reflexivity.
Qed.

(** X15: the dynamics-stage pass applies each cached contact force as an
    equal and opposite pair shifted to the two body origins.  Once the
    force cache is valid, the pass succeeds exactly when every cached
    record names an active contact whose two bodies have an entry in the
    array.  When it succeeds, the entry of every body, taken as a wrench
    at the ground origin, has grown by the body's share of each cached
    force: the force and its moment about the ground origin when the
    body carries surface 2 of the contact, the opposite when it carries
    surface 1, nothing otherwise.  The array therefore keeps its length,
    its total force and its total moment about the ground origin, and
    with an empty force cache it is returned as it was. *)
Theorem dynamics_pass_adds_no_net_wrench (env : Collaborators)
    (getBodyOriginLocation : MobilizedBody -> State -> Vec3)
    (impl : CompliantContactSubsystemImpl) (s : State)
    (rigidBodyForces : list SpatialVec) :
  (forall s1 : State,
     ensureForceCacheValid env impl s = Ok s1 ->
     (Forall (force_applicable env (getActiveContacts env s1)
                (length rigidBodyForces)) (getForceCache s1)
      <-> exists rigidBodyForces',
            realizeSubsystemDynamicsImpl env getBodyOriginLocation impl s
              rigidBodyForces = Ok (s1, rigidBodyForces'))) /\
  (forall (s' : State) (rigidBodyForces' : list SpatialVec),
     realizeSubsystemDynamicsImpl env getBodyOriginLocation impl s
       rigidBodyForces = Ok (s', rigidBodyForces') ->
     ensureForceCacheValid env impl s = Ok s' /\
     length rigidBodyForces' = length rigidBodyForces /\
     (forall (b : nat) (Fb : SpatialVec),
        rigidBodyForces !! b = Some Fb ->
        exists Fb',
          rigidBodyForces' !! b = Some Fb' /\
          shift_to_origin (getBodyOriginLocation (Z.of_nat b) s') Fb'
          = fold_left
              (fun acc force =>
                 SpatialVec_add acc
                   (contact_share env (getActiveContacts env s') force b))
              (getForceCache s')
              (shift_to_origin (getBodyOriginLocation (Z.of_nat b) s') Fb)) /\
     total_force rigidBodyForces' = total_force rigidBodyForces /\
     total_moment (fun i => getBodyOriginLocation (Z.of_nat i) s') 0
       rigidBodyForces'
     = total_moment (fun i => getBodyOriginLocation (Z.of_nat i) s') 0
         rigidBodyForces /\
     (getForceCache s' = [] -> rigidBodyForces' = rigidBodyForces)).
Proof.
  split.
  - intros s1 Hc. unfold realizeSubsystemDynamicsImpl. rewrite Hc.
    cbn [mbind result_bind]. cbv zeta.
    rewrite (dynamics_loop_succeeds env getBodyOriginLocation s1).
    split.
    + intros [l' ->]. exists l'. reflexivity.
    + intros [l' Hrun].
      destruct (dynamics_loop env getBodyOriginLocation s1 _ _ rigidBodyForces)
        as [l1 |]; [| discriminate].
      exists l1. reflexivity.
  - intros s' rigidBodyForces'. unfold realizeSubsystemDynamicsImpl.
    destruct (ensureForceCacheValid env impl s) as [s1 |]; [| discriminate].
    cbn [mbind result_bind]. cbv zeta.
    destruct (dynamics_loop env getBodyOriginLocation s1 _ _ rigidBodyForces)
      as [l1 |] eqn:Hloop; [| discriminate].
    cbn [mbind result_bind]. intros [= <- <-].
    destruct (dynamics_loop_balance _ _ _ _ _ _ _ Hloop) as (L & F & M).
    split; [reflexivity |]. split; [exact L |].
    split; [intros b Fb Hb; exact (dynamics_loop_lands _ _ _ _ _ _ _ _ _ Hloop Hb) |].
    split; [exact F |]. split; [exact M |].
    intros Hnil. rewrite Hnil in Hloop. simpl in Hloop. congruence.
Qed.

(** X14 on the dissipative pair at rest: the one active contact puts one
    record in the force cache, and the cached energy is the sum over it,
    (2/5) fH x > 0. *)
Lemma potentialEnergy_sums_forceCache_witness :
  let impl := CompliantContactSubsystem_new yank_env 1%positive in
  exists s',
    ensurePotentialEnergyCacheValid yank_env impl resting_state = Ok s' /\
    map m_contactId (getForceCache s') = [7%Z] /\
    isForceCacheValid s' = true /\
    getPotentialEnergyCache s' = sum_potentialEnergy 0 (getForceCache s') /\
    getPotentialEnergyCache s' = 0 + (2 / 5) * spec_fH 50 0.01 1 * 0.01 /\
    0 < getPotentialEnergyCache s'.
Proof.
  intros impl.
  set (zero := SpatialVec_fill (Vec3_fill 0)).
  set (state0 := updPotentialEnergyCache 0 resting_state).
  set (back := HertzCircular.calcContactForce yank_env impl
                 (forces_push_back yank_env (updForceCache [] state0))
                 scenario_contact zero zero (ContactForce_new yank_env)).
  assert (Hvalid : ContactForce_isValid back = true).
  { unfold back. rewrite calc_isValid.
    change (getDepth scenario_contact) with 0.01.
    rewrite Rgtb_true by lra. reflexivity. }
  assert (Hid : m_contactId back = 7%Z).
  { unfold back. destruct (Rle_lt_dec
      (HertzCircular.fNormal yank_env
         (forces_push_back yank_env (updForceCache [] state0))
         scenario_contact) 0).
    - rewrite calc_yanking; [reflexivity | cbn; lra | assumption].
    - rewrite calc_pushing; [reflexivity | cbn; lra | assumption]. }
  assert (Hpe : m_potentialEnergy back = (2 / 5) * spec_fH 50 0.01 1 * 0.01).
  { unfold back. rewrite potentialEnergy_at_rest.
    - rewrite yank_fH. reflexivity.
    - cbn; lra.
    - destruct (hertz_k_is_half_k1 yank_env scenario_contact) as [-> _];
        cbn; lra.
    - unfold HertzCircular.xdot, dot. cbn. lra. }
  set (s1 := markForceCacheValid (updForceCache [back] (updForceCache [] state0))).
  set (s' := markPotentialEnergyCacheValid
               (updPotentialEnergyCache
                  (sum_potentialEnergy (getPotentialEnergyCache s1)
                     (getForceCache s1)) s1)).
  assert (Hforce : ensureForceCacheValid yank_env impl state0 = Ok s1).
  { unfold ensureForceCacheValid.
    change (isForceCacheValid state0) with false.
    change (stage_ge (getStage state0) Stage_Velocity) with true.
    cbn [negb]. cbv zeta.
    change (getActiveContacts yank_env (updForceCache [] state0))
      with [scenario_contact].
    cbn [forceCache_loop].
    rewrite (forceCache_step_Hertz _ _ _ _ _ yank_lookup eq_refl).
    cbv zeta. fold zero. fold impl. fold back. rewrite Hvalid.
    reflexivity. }
  assert (Hrun : ensurePotentialEnergyCacheValid yank_env impl resting_state
                 = Ok s').
  { unfold ensurePotentialEnergyCacheValid.
    change (isPotentialEnergyCacheValid resting_state) with false.
    change (stage_ge (getStage resting_state) Stage_Position) with true.
    cbn [negb]. cbv zeta. fold state0.
    change (stage_ge (getStage state0) Stage_Velocity) with true.
    cbv iota. rewrite Hforce. reflexivity. }
  destruct (potentialEnergy_sums_forceCache yank_env impl resting_state s'
              eq_refl eq_refl Hrun) as (Hv & Hsum & _).
  assert (Hcache : getForceCache s' = [back]) by reflexivity.
  assert (Hpos : 0 < spec_fH 50 0.01 1) by (apply spec_fH_pos; lra).
  assert (Hval : getPotentialEnergyCache s'
                 = 0 + (2 / 5) * spec_fH 50 0.01 1 * 0.01).
  { rewrite Hsum, Hcache. unfold sum_potentialEnergy. cbn [fold_left].
    rewrite Hpe. reflexivity. }
  exists s'. split; [exact Hrun |].
  split; [rewrite Hcache; cbn [map]; rewrite Hid; reflexivity |].
  split; [exact Hv |]. split; [exact Hsum |]. split; [exact Hval |].
  rewrite Hval. lra.
Defined.

(** X15 on the scene: a cached force of 3 along x on surface 2, applied
    at the point (0, 1, 0), on a three-body array of zero wrenches; the
    origin of body 2 is the point of application and the origin of
    body 1 is the ground origin.  Body 2 receives the force with no
    torque, body 1 the opposite force with the torque of its lever arm,
    and body 0 nothing. *)
Lemma dynamics_pass_adds_no_net_wrench_witness :
  let origin := fun (b : MobilizedBody) (_ : State) =>
                  if (b =? 2)%Z then mkVec3 0 1 0 else mkVec3 0 0 0 in
  let cached := mkContactForce 7%Z (mkVec3 0 1 0)
                  (mkSpatialVec (mkVec3 0 0 0) (mkVec3 3 0 0)) 0 0 in
  let state := mkState Stage_Velocity [0; 0; 0] [0] [0] [cached] true 0 false in
  let none := mkSpatialVec (mkVec3 0 0 0) (mkVec3 0 0 0) in
  exists F' F0 F1 F2,
    realizeSubsystemDynamicsImpl scenario_env origin
      CompliantContactSubsystemImpl_new state [none; none; none]
    = Ok (state, F') /\
    F' !! 0%nat = Some F0 /\ F' !! 1%nat = Some F1 /\ F' !! 2%nat = Some F2 /\
    sv_force F0 = mkVec3 0 0 0 /\ sv_torque F0 = mkVec3 0 0 0 /\
    sv_force F1 = mkVec3 (-3) 0 0 /\ sv_torque F1 = mkVec3 0 0 3 /\
    sv_force F2 = mkVec3 3 0 0 /\ sv_torque F2 = mkVec3 0 0 0 /\
    total_force F' = total_force [none; none; none].
Proof.
  intros origin cached state none.
  destruct (dynamics_pass_adds_no_net_wrench scenario_env origin
              CompliantContactSubsystemImpl_new state [none; none; none])
    as [Hsucc Hland].
  assert (Hcache : ensureForceCacheValid scenario_env
                     CompliantContactSubsystemImpl_new state = Ok state)
    by reflexivity.
  assert (Hrun : exists F',
            realizeSubsystemDynamicsImpl scenario_env origin
              CompliantContactSubsystemImpl_new state [none; none; none]
            = Ok (state, F')).
  { apply (Hsucc state Hcache).
    change (getForceCache state) with [cached].
    apply Forall_cons. split; [| constructor].
    exists scenario_contact. split; [reflexivity |].
    change (getMobilizedBody scenario_env (getSurface1 scenario_contact))
      with 1%Z.
    change (getMobilizedBody scenario_env (getSurface2 scenario_contact))
      with 2%Z.
    cbn [length]. lia. }
  destruct Hrun as [F' Hrun].
  destruct (Hland state F' Hrun) as (_ & _ & Hb & Hforce & _).
  destruct (Hb 0%nat none eq_refl) as (F0 & H0 & E0).
  destruct (Hb 1%nat none eq_refl) as (F1 & H1 & E1).
  destruct (Hb 2%nat none eq_refl) as (F2 & H2 & E2).
  change (getForceCache state) with [cached] in E0, E1, E2.
  cbn [fold_left] in E0, E1, E2.
  unfold contact_share in E0, E1, E2.
  change (getContactById (getActiveContacts scenario_env state)
            (m_contactId cached)) with (Some scenario_contact) in E0, E1, E2.
  change (getMobilizedBody scenario_env (getSurface1 scenario_contact))
    with 1%Z in E0, E1, E2.
  change (getMobilizedBody scenario_env (getSurface2 scenario_contact))
    with 2%Z in E0, E1, E2.
  cbv [Z.of_nat Pos.of_succ_nat Pos.succ Z.eqb Pos.eqb] in E0, E1, E2.
  assert (Hsplit : forall (p : Vec3) (F G : SpatialVec),
            shift_to_origin p F = G ->
            sv_force F = sv_force G /\
            sv_torque F = vsub (sv_torque G) (cross p (sv_force G))).
  { intros p F G <-. split; [reflexivity |].
    apply Vec3_eq; cbn; ring. }
  apply Hsplit in E0 as [Ef0 Et0].
  apply Hsplit in E1 as [Ef1 Et1].
  apply Hsplit in E2 as [Ef2 Et2].
  exists F', F0, F1, F2.
  split; [exact Hrun |]. split; [exact H0 |]. split; [exact H1 |].
  split; [exact H2 |].
  split; [rewrite Ef0; apply Vec3_eq; cbn; lra |].
  split; [rewrite Et0; apply Vec3_eq; cbn; lra |].
  split; [rewrite Ef1; apply Vec3_eq; cbn; lra |].
  split; [rewrite Et1; apply Vec3_eq; cbn; lra |].
  split; [rewrite Ef2; apply Vec3_eq; cbn; lra |].
  split; [rewrite Et2; apply Vec3_eq; cbn; lra |].
  exact Hforce.
Defined.

(** ** More on the registry *)

(** X16: adopting a freshly allocated generator makes it the one
    lookups return for its type id, deletes the generator it replaces,
    keeps the ownership invariant, and changes neither
    [hasForceGenerator] nor [getForceGenerator] for any other type id. *)
Theorem adopt_affects_one_type_only (this : SubsystemRef)
    (g : ContactForceGenerator) (impl : CompliantContactSubsystemImpl) :
  registry_owns impl ->
  let impl' := adoptNewForceGenerator this g impl in
  registry_owns impl' /\
  hasForceGenerator (getContactTypeId g) impl' = true /\
  getForceGenerator (getContactTypeId g) impl'
    = Ok (setCompliantContactSubsystem this g) /\
  (forall old, m_generators impl !! getContactTypeId g = Some old ->
               heap impl' !! old = None) /\
  (forall type, type <> getContactTypeId g ->
     hasForceGenerator type impl' = hasForceGenerator type impl /\
     getForceGenerator type impl' = getForceGenerator type impl).
Proof.
  intros Hown impl'.
  destruct (adoptNewForceGenerator_spec this g impl Hown)
    as (Hown' & Hm & Hlive & Hd & _ & _ & _ & _ & Hframe).
  fold impl' in Hown', Hm, Hlive, Hd, Hframe.
  set (p := fresh (dom (heap impl))) in *.
  pose proof (fresh_not_live impl) as Hfresh. fold p in Hfresh.
  destruct Hown as [Hreg Hdef].
  split; [exact Hown' |].
  split.
  { unfold hasForceGenerator. rewrite Hm, lookup_insert_eq.
    apply bool_decide_eq_true. eexists; reflexivity. }
  split.
  { unfold getForceGenerator. rewrite Hm, lookup_insert_eq, Hlive.
    reflexivity. }
  split.
  { intros old Hold.
    destruct Hown' as [Hreg' _].
    destruct (heap impl' !! old) as [go |] eqn:Hgo; [exfalso | reflexivity].
    destruct (Hreg _ _ Hold) as (g0 & Hg0 & _).
    assert (Hne : old <> p) by congruence.
    (* the replaced object was deleted by the adopt call *)
    unfold impl', adoptNewForceGenerator, new_generator in Hgo.
    fold p in Hgo.
    set (impl0 := set_heap (<[p := g]> (heap impl)) impl) in Hgo.
    assert (Hp0 : heap impl0 !! p = Some g) by apply lookup_insert_eq.
    assert (Hnp : m_generators impl0 !! getContactTypeId g <> Some p).
    { change (m_generators impl0) with (m_generators impl).
      rewrite Hold. congruence. }
    destruct (adoptForceGenerator_spec this p g impl0 Hp0 Hnp)
      as (_ & _ & _ & _ & _ & _ & Hh).
    change (m_generators impl0) with (m_generators impl) in Hh.
    rewrite Hold in Hh. rewrite Hh, lookup_delete_eq in Hgo. discriminate. }
  intros type Hne.
  assert (Hlook : m_generators impl' !! type = m_generators impl !! type)
    by (rewrite Hm; apply lookup_insert_ne; congruence).
  split; [unfold hasForceGenerator; rewrite Hlook; reflexivity |].
  unfold getForceGenerator, getDefaultForceGenerator. rewrite Hlook, Hd.
  destruct (m_generators impl !! type) as [q |] eqn:Hq.
  - destruct (Hreg _ _ Hq) as (gq & Hgq & Hty).
    rewrite Hframe; [reflexivity | congruence |].
    intros Hold. destruct (Hreg _ _ Hold) as (g2 & Hg2 & Hty2). congruence.
  - destruct (m_defaultGenerator impl) as [d |] eqn:Hdd; [| reflexivity].
    destruct (Hdef d eq_refl) as [[gd Hgd] Hnr].
    rewrite Hframe; [reflexivity | congruence | apply Hnr].
Qed.

Lemma adopt_affects_one_type_only_witness :
  let g := mkGenerator (UserGeneratorClass 0) 5%Z None in
  let impl := CompliantContactSubsystem_new yank_env 1%positive in
  let impl' := adoptNewForceGenerator 1%positive g impl in
  registry_owns impl /\
  getForceGenerator 5%Z impl' = Ok (setCompliantContactSubsystem 1%positive g) /\
  getForceGenerator 1%Z impl' = getForceGenerator 1%Z impl.
Proof.
  intros g impl impl'.
  destruct (Constructor_lookups yank_env 1%positive) as (Hown & _).
  destruct (adopt_affects_one_type_only 1%positive g impl Hown)
    as (_ & _ & Hget & _ & Hother).
  split; [exact Hown |]. split; [exact Hget |].
  apply Hother. discriminate.
Defined.

(** X17: adopting a freshly allocated default generator makes it the
    default, deletes the previous default and leaves every registered
    generator in place; adopting the null pointer deletes the previous
    default and leaves the subsystem without one, so that
    [getDefaultForceGenerator] fails while registered type ids are still
    served. *)
Theorem adoptDefault_replaces_default (this : SubsystemRef)
    (g : ContactForceGenerator) (impl : CompliantContactSubsystemImpl) :
  registry_owns impl ->
  (let impl' := adoptNewDefaultForceGenerator this g impl in
   registry_owns impl' /\
   hasDefaultForceGenerator impl' = true /\
   getDefaultForceGenerator impl'
     = Ok (setCompliantContactSubsystem this g) /\
   (forall old, m_defaultGenerator impl = Some old ->
                heap impl' !! old = None) /\
   (forall type, is_Some (m_generators impl !! type) ->
      getForceGenerator type impl' = getForceGenerator type impl)) /\
  (let impl' := adoptDefaultForceGenerator this None impl in
   hasDefaultForceGenerator impl' = false /\
   getDefaultForceGenerator impl'
     = Err (AssertionFailed "m_defaultGenerator") /\
   (forall old, m_defaultGenerator impl = Some old ->
                heap impl' !! old = None) /\
   (forall type, is_Some (m_generators impl !! type) ->
      getForceGenerator type impl' = getForceGenerator type impl)).
Proof.
  intros Hown. pose proof Hown as [Hreg Hdef]. split.
  - intros impl'.
    destruct (adoptNewDefaultForceGenerator_spec this g impl Hown)
      as (Hown' & Hm & Hd & Hlive & _ & _ & _ & _ & Hframe).
    fold impl' in Hown', Hm, Hd, Hlive, Hframe.
    set (p := fresh (dom (heap impl))) in *.
    pose proof (fresh_not_live impl) as Hfresh. fold p in Hfresh.
    split; [exact Hown' |].
    split; [unfold hasDefaultForceGenerator; rewrite Hd;
            apply bool_decide_eq_true; eexists; reflexivity |].
    split; [unfold getDefaultForceGenerator; rewrite Hd, Hlive; reflexivity |].
    split.
    { intros old Hold. destruct (Hdef _ Hold) as [[go Hgo] _].
      unfold impl', adoptNewDefaultForceGenerator, new_generator.
      fold p. rewrite adoptDefaultForceGenerator_heap.
      cbn [m_defaultGenerator set_heap heap]. rewrite Hold.
      rewrite lookup_alter_ne by congruence. apply lookup_delete_eq. }
    intros type [q Hq]. unfold getForceGenerator. rewrite Hm, Hq.
    destruct (Hreg _ _ Hq) as (gq & Hgq & _).
    rewrite Hframe; [reflexivity | congruence |].
    intros Hold. destruct (Hdef _ Hold) as [_ Hnr]. exact (Hnr _ Hq).
  - intros impl'.
    destruct (adoptDefaultForceGenerator_fields this None impl)
      as (Hm & Hd & _).
    fold impl' in Hm, Hd.
    assert (Hheap : heap impl' = match m_defaultGenerator impl with
                                 | Some old => delete old (heap impl)
                                 | None => heap impl
                                 end).
    { unfold impl'. destruct impl as [vt oo m [old |] ix tv h]; reflexivity. }
    split; [unfold hasDefaultForceGenerator; rewrite Hd; reflexivity |].
    split; [unfold getDefaultForceGenerator; rewrite Hd; reflexivity |].
    split.
    { intros old Hold. rewrite Hheap, Hold. apply lookup_delete_eq. }
    intros type [q Hq]. unfold getForceGenerator. rewrite Hm, Hq, Hheap.
    destruct (m_defaultGenerator impl) as [old |] eqn:Hold; [| reflexivity].
    rewrite lookup_delete_ne; [reflexivity |].
    intros ->. destruct (Hdef _ eq_refl) as [_ Hnr]. exact (Hnr _ Hq).
Qed.

Lemma adoptDefault_replaces_default_witness :
  let impl := CompliantContactSubsystem_new yank_env 1%positive in
  registry_owns impl /\
  hasDefaultForceGenerator impl = true /\
  hasDefaultForceGenerator (adoptDefaultForceGenerator 1%positive None impl)
    = false.
Proof.
  intros impl.
  destruct (Constructor_lookups yank_env 1%positive) as (Hown & Hhas & _).
  destruct (adoptDefault_replaces_default 1%positive (DoNothing_new yank_env)
              impl Hown) as [_ (Hno & _)].
  split; [exact Hown |]. split; [exact Hhas | exact Hno].
Defined.

(** ** Destruction and cloning *)

Lemma delete_all_spec (ps : list GeneratorPtr)
    (mem : gmap GeneratorPtr ContactForceGenerator) :
  NoDup ps ->
  (forall p, p ∈ ps -> is_Some (mem !! p)) ->
  exists mem', delete_all ps mem = Ok mem' /\
    (forall p, p ∈ ps -> mem' !! p = None) /\
    (forall q, q ∉ ps -> mem' !! q = mem !! q).
Proof.
  revert mem. induction ps as [| p ps IH]; intros mem Hnd Hlive.
  - exists mem. split; [reflexivity |]. split; [| reflexivity].
    intros p Hp. inversion Hp.
  - apply NoDup_cons in Hnd as [Hp Hnd]. simpl. unfold checked_delete.
    destruct (Hlive p) as [g Hg]; [left |]. rewrite Hg.
    cbn [mbind result_bind].
    destruct (IH (delete p mem) Hnd) as (mem' & Hrun & Hgone & Hkeep).
    { intros q Hq. rewrite lookup_delete_ne by (intros ->; contradiction).
      apply Hlive. right. exact Hq. }
    exists mem'. split; [exact Hrun |]. split.
    + intros q Hq. apply elem_of_cons in Hq as [-> | Hq].
      * rewrite (Hkeep p Hp). apply lookup_delete_eq.
      * apply Hgone. exact Hq.
    + intros q Hq. apply not_elem_of_cons in Hq as [Hne Hq].
      rewrite (Hkeep q Hq). apply lookup_delete_ne. congruence.
Qed.

Lemma registered_pointers (impl : CompliantContactSubsystemImpl)
    (p : GeneratorPtr) :
  p ∈ (map_to_list (m_generators impl)).*2 <->
  exists type, m_generators impl !! type = Some p.
Proof.
  rewrite list_elem_of_fmap. split.
  - intros ([t q] & -> & Hin). exists t. apply elem_of_map_to_list. exact Hin.
  - intros [t Ht]. exists (t, p). split; [reflexivity |].
    apply elem_of_map_to_list. exact Ht.
Qed.

Lemma registered_pointers_NoDup (impl : CompliantContactSubsystemImpl) :
  registry_owns impl -> NoDup (map_to_list (m_generators impl)).*2.
Proof.
  intros [Hreg _]. apply NoDup_fmap_2_strong; [| apply NoDup_map_to_list].
  intros [t1 p1] [t2 p2] H1 H2 Heq. simpl in Heq. subst p2.
  apply elem_of_map_to_list in H1, H2.
  destruct (Hreg _ _ H1) as (g1 & Hg1 & <-).
  destruct (Hreg _ _ H2) as (g2 & Hg2 & <-).
  congruence.
Qed.

(** X18: under the ownership invariant the destructor deletes every
    registered generator and the default generator exactly once and
    touches no object the caller owns.  A clone made by [cloneImpl] holds
    the same pointers, so destroying it after the original deletes
    objects a second time as soon as the subsystem owns any generator. *)
Theorem destructor_frees_each_generator_once
    (impl : CompliantContactSubsystemImpl) :
  registry_owns impl ->
  exists mem',
    Impl_destructor impl (heap impl) = Ok mem' /\
    (forall type p, m_generators impl !! type = Some p -> mem' !! p = None) /\
    (forall d, m_defaultGenerator impl = Some d -> mem' !! d = None) /\
    (forall q, caller_owns q impl -> mem' !! q = heap impl !! q) /\
    m_generators (cloneImpl impl) = m_generators impl /\
    m_defaultGenerator (cloneImpl impl) = m_defaultGenerator impl /\
    (hasDefaultForceGenerator impl = true \/ m_generators impl <> ∅ ->
     Impl_destructor (cloneImpl impl) mem'
     = Err (AssertionFailed "deleted twice")).
Proof.
  intros Hown. pose proof Hown as [Hreg Hdef].
  set (ps := (map_to_list (m_generators impl)).*2).
  pose proof (registered_pointers_NoDup impl Hown) as Hnd. fold ps in Hnd.
  set (mem1 := match m_defaultGenerator impl with
               | Some d => delete d (heap impl)
               | None => heap impl
               end).
  assert (Hfirst : match m_defaultGenerator impl with
                   | Some d => checked_delete d (heap impl)
                   | None => Ok (heap impl)
                   end = Ok mem1).
  { unfold mem1, checked_delete.
    destruct (m_defaultGenerator impl) as [d |] eqn:Hd; [| reflexivity].
    destruct (Hdef d eq_refl) as [[gd Hgd] _]. rewrite Hgd. reflexivity. }
  assert (Hnotdef : forall p, p ∈ ps -> m_defaultGenerator impl <> Some p).
  { intros p Hp Hd. apply registered_pointers in Hp as [t Ht].
    destruct (Hdef p Hd) as [_ Hnr]. exact (Hnr _ Ht). }
  assert (Hmem1 : forall p, m_defaultGenerator impl <> Some p ->
                    mem1 !! p = heap impl !! p).
  { intros p Hp. unfold mem1.
    destruct (m_defaultGenerator impl) as [d |]; [| reflexivity].
    apply lookup_delete_ne. congruence. }
  destruct (delete_all_spec ps mem1 Hnd) as (mem' & Hrun & Hgone & Hkeep).
  { intros p Hp. rewrite (Hmem1 p (Hnotdef p Hp)).
    apply registered_pointers in Hp as [t Ht].
    destruct (Hreg _ _ Ht) as (g & Hg & _). rewrite Hg. eexists; reflexivity. }
  assert (Hdgone : forall d, m_defaultGenerator impl = Some d ->
                     mem' !! d = None).
  { intros d Hd. rewrite Hkeep.
    - unfold mem1. rewrite Hd. apply lookup_delete_eq.
    - intros Hin. exact (Hnotdef d Hin Hd). }
  exists mem'. split.
  { unfold Impl_destructor. rewrite Hfirst. exact Hrun. }
  split.
  { intros t p Ht. apply Hgone. apply registered_pointers. eauto. }
  split; [exact Hdgone |].
  split.
  { intros q [Hq1 Hq2]. rewrite Hkeep.
    - apply Hmem1. exact Hq2.
    - intros Hin. apply registered_pointers in Hin as [t Ht].
      exact (Hq1 t Ht). }
  split; [reflexivity |]. split; [reflexivity |].
  intros Hsome. unfold Impl_destructor, cloneImpl.
  cbn [m_defaultGenerator m_generators]. fold ps.
  destruct (m_defaultGenerator impl) as [d |] eqn:Hd.
  - unfold checked_delete. rewrite (Hdgone d eq_refl). reflexivity.
  - cbn [mbind result_bind].
    destruct ps as [| p ps'] eqn:Hps.
    + exfalso. destruct Hsome as [Hhas | Hne].
      * unfold hasDefaultForceGenerator in Hhas. rewrite Hd in Hhas.
        apply bool_decide_eq_true in Hhas. destruct Hhas; discriminate.
      * apply Hne. apply map_to_list_empty_iff.
        unfold ps in Hps. apply fmap_nil_inv in Hps. exact Hps.
    + simpl. unfold checked_delete at 1.
      rewrite (Hgone p); [reflexivity | left].
Qed.

Lemma destructor_frees_each_generator_once_witness :
  let impl := CompliantContactSubsystem_new yank_env 1%positive in
  registry_owns impl /\
  exists mem',
    Impl_destructor impl (heap impl) = Ok mem' /\
    Impl_destructor (cloneImpl impl) mem'
    = Err (AssertionFailed "deleted twice").
Proof.
  intros impl.
  destruct (Constructor_lookups yank_env 1%positive) as (Hown & Hhas & _).
  destruct (destructor_frees_each_generator_once impl Hown)
    as (mem' & Hrun & _ & _ & _ & _ & _ & Htwice).
  split; [exact Hown |]. exists mem'. split; [exact Hrun |].
  apply Htwice. left. exact Hhas.
Defined.

(** ** The acceleration-stage pass *)

Lemma vector_set_frame (ix : option ZIndex) (e : Real) (vec vec' : list Real) :
  vector_set ix e vec = Ok vec' ->
  exists i, ix = Some i /\ (i < length vec)%nat /\
            length vec' = length vec /\ vec' !! i = Some e /\
            forall j, j <> i -> vec' !! j = vec !! j.
Proof.
  unfold vector_set. destruct ix as [i |]; [| discriminate].
  destruct (i <? length vec)%nat eqn:Hlt; [| discriminate].
  intros [= <-]. apply Nat.ltb_lt in Hlt.
  exists i. split; [reflexivity |]. split; [exact Hlt |].
  split; [apply length_insert |].
  split; [apply list_lookup_insert_eq; exact Hlt |].
  intros j Hj. apply list_lookup_insert_ne. congruence.
Qed.

(** X19: the acceleration-stage pass fails on a subsystem whose
    dissipated-energy variable was never allocated.  When it succeeds it
    has validated the force cache, has stored the sum of the cached
    power losses as the derivative of the dissipated energy (0 when no
    force is cached), and has changed neither the dissipated energy
    itself nor any other derivative. *)
Theorem acceleration_pass_contract (env : Collaborators)
    (impl : CompliantContactSubsystemImpl) (state : State) :
  (m_dissipatedEnergyIx impl = None ->
   forall s1, ensureForceCacheValid env impl state = Ok s1 ->
   realizeSubsystemAccelerationImpl env impl state
   = Err (AssertionFailed "invalid index")) /\
  (forall s', realizeSubsystemAccelerationImpl env impl state = Ok s' ->
   exists ix,
     m_dissipatedEnergyIx impl = Some ix /\
     isForceCacheValid s' = true /\
     getDissipatedEnergyDeriv impl s'
       = Ok (sum_powerLoss (getForceCache s')) /\
     (getForceCache s' = [] -> getDissipatedEnergyDeriv impl s' = Ok 0) /\
     getZ s' = getZ state /\
     getDissipatedEnergyVar impl s' = getDissipatedEnergyVar impl state /\
     length (getZDot s') = length (getZDot state) /\
     (forall j, j <> ix -> getZDot s' !! j = getZDot state !! j)).
Proof.
  split.
  - intros Hix s1 Hrun. unfold realizeSubsystemAccelerationImpl.
    rewrite Hrun. cbn [mbind result_bind].
    unfold updDissipatedEnergyDeriv, vector_set. rewrite Hix. reflexivity.
  - intros s'. unfold realizeSubsystemAccelerationImpl.
    destruct (ensureForceCacheValid env impl state) as [s1 |] eqn:Hrun;
      [| discriminate].
    cbn [mbind result_bind]. unfold updDissipatedEnergyDeriv.
    destruct (vector_set (m_dissipatedEnergyIx impl)
                (sum_powerLoss (getForceCache s1)) (getZDot s1))
      as [zd |] eqn:Hset; [| discriminate].
    cbn [mbind result_bind]. intros [= <-].
    destruct (vector_set_frame _ _ _ _ Hset) as (ix & Hix & Hlt & Hlen & Hat & Hfr).
    destruct (ensureForceCacheValid_frame _ _ _ _ Hrun) as [Hvalid E].
    assert (Hzd : getZDot s1 = getZDot state) by (rewrite E; reflexivity).
    assert (Hz : getZ s1 = getZ state) by (rewrite E; reflexivity).
    exists ix. split; [exact Hix |]. split; [exact Hvalid |].
    assert (Hderiv : getDissipatedEnergyDeriv impl (updZDot zd s1)
                     = Ok (sum_powerLoss (getForceCache s1))).
    { unfold getDissipatedEnergyDeriv, vector_get. rewrite Hix.
      change (getZDot (updZDot zd s1)) with zd. rewrite Hat. reflexivity. }
    split; [exact Hderiv |].
    split.
    { intros Hnil. rewrite Hderiv.
      change (getForceCache (updZDot zd s1)) with (getForceCache s1) in Hnil.
      rewrite Hnil. reflexivity. }
    split; [exact Hz |].
    split.
    { unfold getDissipatedEnergyVar.
      change (getZ (updZDot zd s1)) with (getZ s1). rewrite Hz. reflexivity. }
    change (getZDot (updZDot zd s1)) with zd. rewrite <- Hzd.
    split; [exact Hlen | exact Hfr].
Qed.

(** ** Sequences of configuration calls *)







(** ** When the generator yields no force *)

(** X21: with a positive Hertz force, the yanking branch is taken
    exactly when 1.5*c*xdot <= -1, that is, for dissipation c > 0, when
    the surfaces separate at a rate of at least 2/(3c); with zero
    dissipation, or while the surfaces approach with c >= 0, it is never
    taken and the normal force is at least the Hertz force. *)
Theorem yanking_threshold (env : Collaborators) (state : State)
    (contact : Contact) :
  0 < HertzCircular.fH env contact ->
  (HertzCircular.fNormal env state contact <= 0 <->
   1.5 * HertzCircular.c env contact * HertzCircular.xdot env state contact
   <= -1) /\
  (0 < HertzCircular.c env contact ->
   (HertzCircular.fNormal env state contact <= 0 <->
    HertzCircular.xdot env state contact
    <= - (2 / (3 * HertzCircular.c env contact)))) /\
  (HertzCircular.c env contact = 0 ->
   HertzCircular.fNormal env state contact = HertzCircular.fH env contact) /\
  (0 <= HertzCircular.c env contact ->
   0 <= HertzCircular.xdot env state contact ->
   HertzCircular.fH env contact <= HertzCircular.fNormal env state contact).
Proof.
  intros Hf. unfold HertzCircular.fNormal, HertzCircular.fHC.
  set (f := HertzCircular.fH env contact) in *.
  set (c := HertzCircular.c env contact).
  set (xd := HertzCircular.xdot env state contact).
  assert (E : f + f * 1.5 * c * xd = f * (1 + 1.5 * c * xd)) by ring.
  assert (Hiff : f + f * 1.5 * c * xd <= 0 <-> 1.5 * c * xd <= -1).
  { rewrite E. split; intros H.
    - destruct (Rle_lt_dec (1 + 1.5 * c * xd) 0) as [Hle | Hgt]; [lra |].
      pose proof (Rmult_lt_0_compat _ _ Hf Hgt). lra.
    - assert (0 <= f * - (1 + 1.5 * c * xd))
        by (apply Rmult_le_pos; lra).
      lra. }
  split; [exact Hiff |].
  split.
  { intros Hc. rewrite Hiff.
    assert (Hq : 2 / (3 * c) * (3 / 2 * c) = 1) by (field; lra).
    split; intros H.
    - apply Rmult_le_reg_r with (3 / 2 * c); [lra |].
      replace (- (2 / (3 * c)) * (3 / 2 * c)) with (-1) by lra. lra.
    - assert (xd * (3 / 2 * c) <= - (2 / (3 * c)) * (3 / 2 * c))
        by (apply Rmult_le_compat_r; lra).
      lra. }
  split; [intros Hc; rewrite Hc; ring |].
  intros Hc Hx.
  assert (0 <= f * (c * xd)).
  { apply Rmult_le_pos; [lra | apply Rmult_le_pos; assumption]. }
  replace (f * 1.5 * c * xd) with (1.5 * (f * (c * xd))) by ring.
  lra.
Qed.

Lemma yanking_threshold_witness :
  0 < HertzCircular.fH yank_env scenario_contact /\
  (HertzCircular.fNormal yank_env separating_state scenario_contact <= 0 <->
   1.5 * HertzCircular.c yank_env scenario_contact
   * HertzCircular.xdot yank_env separating_state scenario_contact <= -1).
Proof.
  assert (Hf : 0 < HertzCircular.fH yank_env scenario_contact)
    by (rewrite yank_fH; apply spec_fH_pos; lra).
  split; [exact Hf |].
  exact (proj1 (yanking_threshold yank_env separating_state scenario_contact
                  Hf)).
Defined.

Lemma stribeck_frictionless (v : R) : stribeck 0 0 0 v = 0.
Proof.
  unfold stribeck, stiction, stribeck_decay, transition, sliding, step5d.
  destruct (Rleb v 1); [ring |].
  destruct (Rleb v 3); [ring |].
  destruct (Rleb v 4); ring.
Qed.

(** X22: when surface 1's material is frictionless (all three
    coefficients zero) the generator produces no friction force and no
    friction power however fast the surfaces slip, and the force it
    reports on surface 2 is fNormal times the contact normal. *)
Theorem frictionless_material_gives_no_friction (env : Collaborators)
    (impl : CompliantContactSubsystemImpl) (state : State) (contact : Contact)
    (V_GS1 V_GS2 : SpatialVec) (contactForce : ContactForce) :
  getStaticFriction (getContactSurfaceMaterial env (getSurface1 contact)) = 0 ->
  getDynamicFriction (getContactSurfaceMaterial env (getSurface1 contact)) = 0 ->
  getViscousFriction (getContactSurfaceMaterial env (getSurface1 contact)) = 0 ->
  0 < getDepth contact ->
  0 < HertzCircular.fNormal env state contact ->
  let f := HertzCircular.calcContactForce env impl state contact
             V_GS1 V_GS2 contactForce in
  HertzCircular.mu env impl state contact = 0 /\
  HertzCircular.forceFriction env impl state contact = mkVec3 0 0 0 /\
  HertzCircular.powerFriction env impl state contact = 0 /\
  sv_force (m_forceOnSurface2InG f)
    = vscale (HertzCircular.fNormal env state contact) (getNormal contact) /\
  m_powerLoss f = HertzCircular.powerHC env state contact.
Proof.
  intros Hus Hud Huv Hd Hn f. subst f.
  assert (Hmu : HertzCircular.mu env impl state contact = 0).
  { unfold HertzCircular.mu, HertzCircular.us, HertzCircular.ud,
      HertzCircular.uv, HertzCircular.us1, HertzCircular.us2,
      HertzCircular.ud1, HertzCircular.ud2, HertzCircular.uv1,
      HertzCircular.uv2, HertzCircular.mat1, HertzCircular.mat2.
    rewrite Hus, Hud, Huv, !combineFriction_same.
    replace (0 * HertzCircular.vtrans impl) with 0 by ring.
    apply stribeck_frictionless. }
  assert (Hff : HertzCircular.fFriction env impl state contact = 0)
    by (unfold HertzCircular.fFriction; rewrite Hmu; ring).
  assert (Hforce : HertzCircular.forceFriction env impl state contact
                   = mkVec3 0 0 0).
  { unfold HertzCircular.forceFriction. rewrite Hff.
    destruct (HertzCircular.slipping env state contact); [| reflexivity].
    apply Vec3_eq; unfold vscale, Rdiv; simpl; ring. }
  assert (Hpow : HertzCircular.powerFriction env impl state contact = 0).
  { unfold HertzCircular.powerFriction. rewrite Hff.
    destruct (HertzCircular.slipping env state contact); ring. }
  split; [exact Hmu |]. split; [exact Hforce |]. split; [exact Hpow |].
  rewrite calc_pushing by assumption. simpl.
  split; [| rewrite Hpow; ring].
  unfold HertzCircular.forceTotal, HertzCircular.forceLoss. rewrite Hforce.
  unfold HertzCircular.forceH, HertzCircular.forceHC, HertzCircular.fNormal,
    HertzCircular.normal.
  apply Vec3_eq; unfold vadd, vscale; simpl; ring.
Qed.

Lemma frictionless_material_gives_no_friction_witness :
  let zero := SpatialVec_fill (Vec3_fill 0) in
  0 < getDepth scenario_contact /\
  0 < HertzCircular.fNormal scenario_env scenario_state scenario_contact /\
  m_powerLoss
    (HertzCircular.calcContactForce scenario_env
       CompliantContactSubsystemImpl_new scenario_state scenario_contact
       zero zero (ContactForce_new scenario_env))
  = HertzCircular.powerHC scenario_env scenario_state scenario_contact.
Proof.
  intros zero.
  assert (Hd : 0 < getDepth scenario_contact) by (cbn; lra).
  assert (Hn : 0 < HertzCircular.fNormal scenario_env scenario_state
                     scenario_contact)
    by (rewrite scenario_fNormal; apply spec_fH_pos; lra).
  split; [exact Hd |]. split; [exact Hn |].
  exact (proj2 (proj2 (proj2 (proj2
           (frictionless_material_gives_no_friction scenario_env
              CompliantContactSubsystemImpl_new scenario_state
              scenario_contact zero zero (ContactForce_new scenario_env)
              eq_refl eq_refl eq_refl Hd Hn))))).
Defined.
